(** * scatfit: pulse models and the sub-band fitting loop

    A shallow embedding of [scatfit/pulsemodels.py] and, from
    [scatfit/apps/fit_frb.py], of the fitting loop and of the time axis that
    [main] hands to it.

    The Python code is written against NumPy scalars and arrays.  The
    embedding is parametric in the number system: the operations the code uses
    are collected in two interfaces ([Arith], [Elementary]), every function is
    translated once against these interfaces, and two instances are given:

    - exact real numbers ([R]), in which the closed-form statements about the
      pulse models are proved;
    - IEEE-754 binary64 ([PrimFloat.float]), Python's [float], in which the
      signal-to-noise gate (including its behaviour on NaN) is evaluated.

    Arrays are lists.  Exceptions are values of [exn]. *)

From Stdlib Require Import Floats String.
From Stdlib Require Import ZArith QArith List Bool Lia.
From Stdlib Require Import Reals Lra Psatz Factorial Sorted.
Import ListNotations.

Set Warnings "-inexact-float".

(* ================================================================= *)
(** * Exceptions and the two effect monads *)

Inductive exn : Type :=
| RuntimeError (msg : string)
| IndexError
| ValueError.

Inductive outcome (A : Type) : Type :=
| Ok (a : A)
| Raise (e : exn).
Arguments Ok {A} a.
Arguments Raise {A} e.

Definition obind {A B} (m : outcome A) (f : A -> outcome B) : outcome B :=
  match m with
  | Ok a => f a
  | Raise e => Raise e
  end.

Declare Scope outcome_scope.
Delimit Scope outcome_scope with outcome.
Notation "x <- m ;; k" := (obind m (fun x => k))
  (at level 61, m at next level, right associativity) : outcome_scope.

(* ================================================================= *)
(** * The numeric interfaces *)

(** Field operations, comparisons and conversions: what [+ - * /], [abs],
    [np.sqrt], [<=], [<], [float(int)] and NaN tests need. *)
Class Arith (F : Type) : Type := {
  fadd : F -> F -> F;
  fsub : F -> F -> F;
  fmul : F -> F -> F;
  fdiv : F -> F -> F;
  fneg : F -> F;
  fabs : F -> F;
  fsqrt : F -> F;
  fle : F -> F -> bool;
  flt : F -> F -> bool;
  fisnan : F -> bool;
  of_int : Z -> F
}.

(** The transcendental functions of NumPy and SciPy used by the models. *)
Class Elementary (F : Type) : Type := {
  fexp : F -> F;
  flog : F -> F;
  ferfc : F -> F;
  fpi : F;
  fpow : F -> F -> F
}.

(** A decimal literal of the source, [n/d] with [n] and [d] integers. *)
Definition lit {F} `{Arith F} (q : Q) : F :=
  fdiv (of_int (Qnum q)) (of_int (Zpos (Qden q))).
Arguments lit {F _} q%_Q.

Declare Scope np_scope.
Delimit Scope np_scope with np.
Infix "+" := fadd : np_scope.
Infix "-" := fsub : np_scope.
Infix "*" := fmul : np_scope.
Infix "/" := fdiv : np_scope.
Notation "- x" := (fneg x) : np_scope.
Notation "x <=? y" := (fle x y) : np_scope.
Notation "x <? y" := (flt x y) : np_scope.
Notation "x >=? y" := (fle y x) : np_scope.
Notation "x >? y" := (flt y x) : np_scope.
Notation "x ** y" := (fpow x y) (at level 30, right associativity) : np_scope.

(* ----------------------------------------------------------------- *)
(** ** Instance 1: exact real numbers *)

Definition Rleb (a b : R) : bool := if Rle_dec a b then true else false.
Definition Rltb (a b : R) : bool := if Rlt_dec a b then true else false.

(** The error function, [2/sqrt(pi)] times the integral of [exp(-u^2)]
    from [0] to [x], and its complement (SciPy's [special.erfc]). *)
Lemma gauss_kernel_continuous (t : R) :
  continuity_pt (fun u : R => exp (- (u * u))) t.
Proof.
  apply (continuity_pt_comp (fun u : R => (- (u * u))%R) exp).
  - apply continuity_pt_opp.
    apply continuity_pt_mult; apply derivable_continuous_pt, derivable_pt_id.
  - apply derivable_continuous_pt, derivable_pt_exp.
Qed.

Lemma gauss_kernel_integrable (a b : R) :
  Riemann_integrable (fun u : R => exp (- (u * u))) a b.
Proof.
  destruct (Rle_dec a b) as [Hab | Hab].
  - apply continuity_implies_RiemannInt; [exact Hab | ].
    intros; apply gauss_kernel_continuous.
  - apply RiemannInt_P1, continuity_implies_RiemannInt; [lra | ].
    intros; apply gauss_kernel_continuous.
Qed.

Definition erf (x : R) : R :=
  (2 / sqrt PI * RiemannInt (gauss_kernel_integrable 0 x))%R.
Definition erfc (x : R) : R := (1 - erf x)%R.

(** [np.power] on reals: an integral exponent is an iterated product (defined
    for every base), any other exponent goes through [exp (y * ln x)]. *)
Definition Rpow_np (x y : R) : R :=
  if Req_dec_T y (IZR (Int_part y)) then powerRZ x (Int_part y)
  else Rpower x y.

#[export] Instance Arith_R : Arith R := {
  fadd := Rplus; fsub := Rminus; fmul := Rmult; fdiv := Rdiv;
  fneg := Ropp; fabs := Rabs; fsqrt := sqrt;
  fle := Rleb; flt := Rltb; fisnan := fun _ => false;
  of_int := IZR
}.

#[export] Instance Elementary_R : Elementary R := {
  fexp := exp; flog := ln; ferfc := erfc; fpi := PI; fpow := Rpow_np
}.

(* ----------------------------------------------------------------- *)
(** ** Instance 2: IEEE-754 binary64 *)

Definition float_of_Z (z : Z) : PrimFloat.float :=
  FloatOps.SF2Prim
    (SpecFloat.binary_normalize FloatOps.prec FloatOps.emax z 0 false).

#[export] Instance Arith_binary64 : Arith PrimFloat.float := {
  fadd := PrimFloat.add; fsub := PrimFloat.sub;
  fmul := PrimFloat.mul; fdiv := PrimFloat.div;
  fneg := PrimFloat.opp; fabs := PrimFloat.abs; fsqrt := PrimFloat.sqrt;
  fle := PrimFloat.leb; flt := PrimFloat.ltb; fisnan := PrimFloat.is_nan;
  of_int := float_of_Z
}.

(** The C library behind NumPy supplies [exp], [log], [erfc] and [pow] on
    binary64; statements about binary64 hold for every such library. *)
Record Libm : Type := {
  libm_exp : PrimFloat.float -> PrimFloat.float;
  libm_log : PrimFloat.float -> PrimFloat.float;
  libm_erfc : PrimFloat.float -> PrimFloat.float;
  libm_pow : PrimFloat.float -> PrimFloat.float -> PrimFloat.float
}.

Definition Elementary_binary64 (L : Libm) : Elementary PrimFloat.float := {|
  fexp := libm_exp L; flog := libm_log L; ferfc := libm_erfc L;
  fpi := 0x1.921fb54442d18p+1%float; fpow := libm_pow L
|}.

(* ================================================================= *)
(** * NumPy and SciPy array primitives *)

Module numpy.
Section Generic.
Context {F : Type} `{Arith F}.
Local Open Scope np_scope.

Definition array := list F.

(** [np.zeros(n)] *)
Definition zeros (n : nat) : array := repeat (lit 0.0) n.

(** [np.sum(a)]: accumulation from the left. *)
Definition sum (a : array) : F := fold_left fadd a (lit 0.0).

(** [np.mean(a)] *)
Definition mean (a : array) : F := sum a / of_int (Z.of_nat (length a)).

(** [np.maximum(a, b)]: NaN wins. *)
Definition maximum (a b : F) : F :=
  if (a >=? b) || fisnan a then a else b.

(** [np.minimum(a, b)]: NaN wins. *)
Definition minimum (a b : F) : F :=
  if (a <=? b) || fisnan a then a else b.

(** [np.max(a)]: [ValueError] on an empty array. *)
Definition max (a : array) : outcome F :=
  match a with
  | [] => Raise ValueError
  | v :: rest => Ok (fold_left maximum rest v)
  end.

(** [np.min(a)]: [ValueError] on an empty array. *)
Definition min (a : array) : outcome F :=
  match a with
  | [] => Raise ValueError
  | v :: rest => Ok (fold_left minimum rest v)
  end.

(** [a[i]] for a non-negative index: [IndexError] out of range. *)
Definition getitem {A} (a : list A) (i : nat) : outcome A :=
  match nth_error a i with
  | Some v => Ok v
  | None => Raise IndexError
  end.

(** [a[mask]] where [mask] was computed from an array of the same length. *)
Fixpoint compress {A} (mask : list bool) (a : list A) : list A :=
  match mask, a with
  | b :: mask', v :: a' =>
      if b then v :: compress mask' a' else compress mask' a'
  | _, _ => []
  end.

(** [a[mask]] in general: [IndexError] when the lengths differ. *)
Definition getitem_mask {A} (a : list A) (mask : list bool) : outcome (list A) :=
  if Nat.eqb (length mask) (length a) then Ok (compress mask a)
  else Raise IndexError.

(** [a[mask] = c] with a scalar [c]. *)
Fixpoint setitem_mask_scalar (a : array) (mask : list bool) (c : F) : array :=
  match a, mask with
  | v :: a', b :: mask' =>
      (if b then c else v) :: setitem_mask_scalar a' mask' c
  | _, _ => a
  end.

(** [a[mask] = vals] with an array [vals] holding one value per selected
    position, in order. *)
Fixpoint setitem_mask (a : array) (mask : list bool) (vals : array) : array :=
  match a, mask with
  | v :: a', b :: mask' =>
      if b then
        match vals with
        | w :: vals' => w :: setitem_mask a' mask' vals'
        | [] => v :: setitem_mask a' mask' []
        end
      else v :: setitem_mask a' mask' vals
  | _, _ => a
  end.

(** Elementwise sum of two arrays, the shorter one padded with zeros. *)
Fixpoint add_padded (a b : array) : array :=
  match a, b with
  | [], _ => b
  | _, [] => a
  | v :: a', w :: b' => (v + w) :: add_padded a' b'
  end.

(** Full linear convolution of [a] and [b], of length
    [length a + length b - 1]. *)
Fixpoint convolve_full (a b : array) : array :=
  match a with
  | [] => []
  | [v] => map (fun w => v * w) b
  | v :: a' => add_padded (map (fun w => v * w) b) (lit 0.0 :: convolve_full a' b)
  end.

(** SciPy's [_centered]: the central [n] samples of [a]. *)
Definition centered (a : array) (n : nat) : array :=
  firstn n (skipn ((length a - n) / 2) a).

(** [scipy.signal.oaconvolve(a, b, mode="same")]: the full linear
    convolution, cropped to the central [length a] samples. *)
Definition oaconvolve_same (a b : array) : array :=
  match b with
  | [] => []
  | _ => centered (convolve_full a b) (length a)
  end.

(** Insertion sort by [<=] (used on NaN-free data only). *)
Fixpoint insert_sorted (v : F) (a : array) : array :=
  match a with
  | [] => [v]
  | w :: a' => if v <=? w then v :: a else w :: insert_sorted v a'
  end.

Definition sort (a : array) : array := fold_right insert_sorted [] a.

(** NumPy's [_lerp], as used by the default ("linear") quantile method. *)
Definition lerp (a b t : F) : F :=
  if t >=? lit 0.5 then b - (b - a) * (lit 1.0 - t) else a + (b - a) * t.

(** [np.quantile(a, qn/qd)] with the default linear interpolation, for a
    quantile [qn/qd] whose products with array lengths are exact in binary64
    (the code uses 1/4 and 3/4).  The virtual index [(n-1)*qn/qd] is split
    into its floor and its fractional part in integer arithmetic.  An empty
    sample raises; a NaN anywhere in the sample makes the result NaN. *)
Definition quantile (a : array) (qn qd : nat) : outcome F :=
  match a with
  | [] => Raise IndexError
  | _ =>
      if existsb fisnan a then Ok (lit 0.0 / lit 0.0)
      else
        let n := length a in
        let s := sort a in
        let k := ((n - 1) * qn)%nat in
        let lo := (k / qd)%nat in
        let hi := Nat.min (lo + 1) (n - 1) in
        let gamma := of_int (Z.of_nat (k mod qd)) / of_int (Z.of_nat qd) in
        Ok (lerp (nth lo s (lit 0.0)) (nth hi s (lit 0.0)) gamma)
  end.

(** [np.argmax(a)]: the index of the first maximum, a NaN counting as
    maximal; [ValueError] on an empty array.  [best] is the running maximum,
    found at index [best_i]; [i] is the index of the head of [a]. *)
Fixpoint argmax_from (best : F) (best_i i : nat) (a : array) : nat :=
  match a with
  | [] => best_i
  | v :: a' =>
      if fisnan best then best_i
      else if v <=? best then argmax_from best best_i (S i) a'
      else argmax_from v i (S i) a'
  end.

Definition argmax (a : array) : outcome nat :=
  match a with
  | [] => Raise ValueError
  | v :: a' => Ok (argmax_from v 0 1 a')
  end.

(** [np.linspace(start, stop, num)] with the end point included: the
    samples [i * step + start] with [step = (stop - start) / (num - 1)]
    (computed as [i / (num - 1) * (stop - start)] when the step rounds to
    zero), the last one set to [stop]. *)
Definition linspace (start stop : F) (num : nat) : array :=
  match num with
  | O => []
  | S O => [of_int 0 * (stop - start) + start]
  | S div =>
      let delta := stop - start in
      let step := delta / of_int (Z.of_nat div) in
      let any_step_zero := (step <=? of_int 0) && (step >=? of_int 0) in
      map (fun i =>
             if Nat.eqb i div then stop
             else if any_step_zero
                  then of_int (Z.of_nat i) / of_int (Z.of_nat div) * delta + start
                  else of_int (Z.of_nat i) * step + start)
          (seq 0 num)
  end.

End Generic.

Section Transcendental.
Context {F : Type} `{Arith F} `{Elementary F}.
Local Open Scope np_scope.

(** [np.geomspace(start, stop, num)]: [num] samples of a geometric
    progression whose first and last samples are [start] and [stop]. *)
Definition geomspace (start stop : F) (num : nat) : array (F := F) :=
  match num with
  | O => []
  | S O => [start]
  | S (S _) =>
      map (fun i =>
             if Nat.eqb i 0 then start
             else if Nat.eqb i (num - 1) then stop
             else start *
                  (stop / start) ** (of_int (Z.of_nat i) / of_int (Z.of_nat (num - 1))))
          (seq 0 num)
  end.

End Transcendental.
End numpy.

(** Elementwise combination of two arrays of the same length. *)
Fixpoint zip_with {A B C} (f : A -> B -> C) (a : list A) (b : list B) : list C :=
  match a, b with
  | v :: a', w :: b' => f v w :: zip_with f a' b'
  | _, _ => []
  end.

(* ================================================================= *)
(** * scatfit/pulsemodels.py *)

Module pulsemodels.
Import numpy.
Section Models.
Context {F : Type} `{Arith F} `{Elementary F}.
Local Open Scope np_scope.
Local Open Scope outcome_scope.

Local Abbreviation array := (list F).

(** [gaussian_normed(x, fluence, center, sigma)] *)
Definition gaussian_normed (x : array) (fluence center sigma : F) : array :=
  map (fun xi =>
         fluence / (sigma * fsqrt (lit 2.0 * fpi))
         * fexp (lit (-0.5) * ((xi - center) / sigma) ** of_int 2))
      x.

(** [scattered_gaussian_pulse(x, fluence, center, sigma, taus, dc)] *)
Definition scattered_gaussian_pulse
    (x : array) (fluence center sigma taus dc : F) : array :=
  let invsigma := lit 1.0 / sigma in
  let K := taus * invsigma in
  let invK := lit 1.0 / K in
  let y := map (fun xi => (xi - center) * invsigma) x in
  if invK >=? lit 10.0 then
    map (fun g => dc + g) (gaussian_normed x fluence center sigma)
  else
    let argexp := map (fun yi => lit 0.5 * invK ** of_int 2 - yi * invK) y in
    (* prevent numerical overflows *)
    let mask := map (fun a => a >=? lit 300.0) argexp in
    let argexp := setitem_mask_scalar argexp mask (lit 0.0) in
    let exgaussian :=
      zip_with
        (fun a yi =>
           lit 0.5 * invK * invsigma * fexp a
           * ferfc (- (yi - invK) / fsqrt (lit 2.0)))
        argexp y in
    map (fun e => dc + fluence * e) exgaussian.

(** [gaussian_scattered_afb_instrumental(x, fluence, center, sigma, taus,
    taui, taud, dc)] *)
Definition gaussian_scattered_afb_instrumental
    (x : array) (fluence center sigma taus taui taud dc : F) : array :=
  let A :=
    map (fun g => taus ** of_int 2 * g / ((taus - taui) * (taus - taud)))
        (scattered_gaussian_pulse x fluence center sigma taus (lit 0.0)) in
  let B :=
    map (fun g => taui ** of_int 2 * g / ((taus - taui) * (taui - taud)))
        (scattered_gaussian_pulse x fluence center sigma taui (lit 0.0)) in
  let C :=
    map (fun g => taud ** of_int 2 * g / ((taus - taud) * (taui - taud)))
        (scattered_gaussian_pulse x fluence center sigma taud (lit 0.0)) in
  zip_with (fun ab c => ab + c)
           (zip_with (fun a b => dc + a - b) A B) C.

(** [boxcar(x, width)] *)
Definition boxcar (x : array) (width : F) : array :=
  let res := zeros (length x) in
  let mask := map (fun xi => fabs xi <=? lit 0.5 * width) x in
  setitem_mask_scalar res mask (lit 1.0).

(** [pbf_isotropic(x, taus)] *)
Definition pbf_isotropic (x : array) (taus : F) : array :=
  let res := zeros (length x) in
  let invtaus := lit 1.0 / taus in
  let mask := map (fun xi => xi >=? lit 0.0) x in
  setitem_mask res mask
    (map (fun xi => invtaus * fexp (- xi * invtaus)) (compress mask x)).

(** [scattered_profile(x, fluence, center, sigma, taus, dc)] *)
Definition scattered_profile
    (x : array) (fluence center sigma taus dc : F) : array :=
  let A := gaussian_normed x fluence center sigma in
  let B := pbf_isotropic x taus in
  map (fun c => dc + c / sum B) (oaconvolve_same A B).

(** [gaussian_scattered_dfb_instrumental(x, fluence, center, sigma, taus,
    taud, dc)] *)
Definition gaussian_scattered_dfb_instrumental
    (x : array) (fluence center sigma taus taud dc : F) : array :=
  let A := scattered_profile x fluence center sigma taus (lit 0.0) in
  let B := boxcar x taud in
  map (fun c => dc + c / sum B) (oaconvolve_same A B).

(** [gaussian_fwhm(sigma)] *)
Definition gaussian_fwhm (sigma : F) : F :=
  lit 2.0 * fsqrt (lit 2.0 * flog (lit 2.0)) * sigma.

(** [gaussian_fwtm(sigma)] *)
Definition gaussian_fwtm (sigma : F) : F :=
  lit 2.0 * fsqrt (lit 2.0 * flog (lit 10.0)) * sigma.

(** [equivalent_width(x, amp)] *)
Definition equivalent_width (x amp : array) : outcome F :=
  let mask := map (fun a => a >=? of_int 0) amp in
  x0 <- getitem x 0 ;;
  x1 <- getitem x 1 ;;
  let fluxsum := sum (compress mask amp) * fabs (x0 - x1) in
  m <- max amp ;;
  Ok (fluxsum / m).

(** [full_width_post(x, amp, level)] *)
Definition full_width_post (x amp : array) (level : F) : outcome F :=
  m <- max amp ;;
  let mask := map (fun a => a >=? level * m) amp in
  xm <- getitem_mask x mask ;;
  (* treat special case when pulse is only one sample wide *)
  if Nat.ltb 1 (length xm) then
    hi <- max xm ;;
    lo <- min xm ;;
    Ok (fabs (hi - lo))
  else
    x0 <- getitem x 0 ;;
    x1 <- getitem x 1 ;;
    Ok (fabs (x0 - x1)).

(** [np.sum(profiles, axis=0)] for a matrix with [ncols] columns. *)
Definition sum_axis0 (ncols : nat) (rows : list array) : array :=
  fold_left (zip_with fadd) rows (zeros ncols).

(** Lines 419-437 of [bandintegrated_model]: the per-frequency profiles,
    summed over the frequency grid. *)
Definition summed_profiles
    (x : array) (fluence center sigma taus f_lo f_hi : F) (nfreq : nat)
  : array :=
  let band_cfreq := lit 0.5 * (f_lo + f_hi) in
  (* use finer steps towards the low-frequency band edge *)
  let cfreqs := geomspace f_lo f_hi nfreq in
  let taus_s := map (fun f => taus * (f / band_cfreq) ** lit (-4.0)) cfreqs in
  let fluence_s :=
    map (fun f => fluence * (f / band_cfreq) ** lit (-1.5)) cfreqs in
  let profiles :=
    zip_with
      (fun fl ts => scattered_gaussian_pulse x fl center sigma ts (lit 0.0))
      fluence_s taus_s in
  (* sum, weighted by fluence above *)
  sum_axis0 (length x) profiles.

(** [bandintegrated_model(x, fluence, center, sigma, taus, dc, f_lo, f_hi,
    nfreq)] *)
Definition bandintegrated_model
    (x : array) (fluence center sigma taus dc f_lo f_hi : F) (nfreq : nat)
  : outcome array :=
  let res := summed_profiles x fluence center sigma taus f_lo f_hi nfreq in
  (* normalise to match input fluence *)
  x0 <- getitem x 0 ;;
  x1 <- getitem x 1 ;;
  let tot_fluence := sum res * fabs (x0 - x1) in
  Ok (map (fun r => dc + (fluence / tot_fluence) * r) res).

End Models.
End pulsemodels.

(* ================================================================= *)
(** * scatfit/apps/fit_frb.py *)

Module fit_frb.
Import numpy.

Section Pipeline.
Context {F : Type} `{Arith F} `{Elementary F}.
Local Open Scope string_scope.
Local Open Scope list_scope.
Local Open Scope np_scope.

Local Abbreviation array := (list F).

(** ** The lmfit interface, as far as the code uses it *)

(** An lmfit parameter with its hints. *)
Record LmfitParameter : Type := mkParameter {
  name : string;
  value : option F;
  pmin : option F;
  pmax : option F;
  vary : bool;
  expr : option string
}.

(** The fields of an lmfit [ModelResult] that the code reads. *)
Record ModelResult : Type := mkModelResult {
  success : bool;
  params : list LmfitParameter;
  best_values : string -> F;
  stderr : string -> F;
  init_fit : array;
  best_fit : array
}.

Record EmceeKws : Type := mkEmceeKws {
  steps : Z;
  burn : Z;
  thin : Z;
  is_weighted : bool;
  progress : bool
}.

(** The signature of the model handed to [lmfit.Model]:
    [(x, fluence, center, sigma, taus, taud, dc)]. *)
Definition model_function : Type :=
  array -> F -> F -> F -> F -> F -> F -> array.

(** The observable effects of a run: the calls made to the fitter. *)
Inductive event : Type :=
| FitCall (method : string) (data x : array) (fitparams : list LmfitParameter).

(** Computations that log events and may raise. *)
Definition M (A : Type) : Type := (list event * outcome A)%type.

Definition mret {A} (a : A) : M A := ([], Ok a).

Definition mbind {A B} (m : M A) (f : A -> M B) : M B :=
  match m with
  | (t, Ok a) => let (t', r) := f a in (t ++ t', r)
  | (t, Raise e) => (t, Raise e)
  end.

Definition lift {A} (o : outcome A) : M A := ([], o).

Definition emit (e : event) : M unit := ([e], Ok tt).

Definition raise {A} (e : exn) : M A := ([], Raise e).

Declare Scope M_scope.
Delimit Scope M_scope with M.
Notation "x <- m ;; k" := (mbind m (fun x => k))
  (at level 61, m at next level, right associativity) : M_scope.
Notation "' p <- m ;; k" := (mbind m (fun p => k))
  (at level 61, p pattern, m at next level, right associativity) : M_scope.
Notation "m ;; k" := (mbind m (fun _ => k))
  (at level 61, right associativity) : M_scope.
Local Open Scope M_scope.

(** [for v in l: acc = body(acc, v)] *)
Fixpoint for_each {A S} (l : list A) (body : S -> A -> M S) (s : S) : M S :=
  match l with
  | [] => mret s
  | v :: l' => s' <- body s v ;; for_each l' body s'
  end.

(** ** External collaborators *)

(** [lmfit.Model(model).fit(data=, x=, params=, method=, fit_kws=)] *)
Variable lmfit_fit :
  model_function -> array -> array -> list LmfitParameter -> string ->
  option EmceeKws -> outcome ModelResult.

(** [scatfit.dm.get_dm_smearing(f_lo, f_hi, dm)] *)
Variable get_dm_smearing : F -> F -> F -> F.

(** [your.candidate.Candidate], as far as the loop reads it;
    [dedispersed_T] is [cand.dedispersed.T], one row per sub-band. *)
Record Candidate : Type := mkCandidate {
  chan_freqs : array;
  dedispersed_T : list array;
  dm : F
}.

(** ** The result table *)

(** A row of the table as the loop appends it. *)
Record SubBandRecord : Type := mkSubBandRecord {
  band : nat;
  cfreq : F;
  fluence : F;
  err_fluence : F;
  sigma : F;
  err_sigma : F;
  taus : F;
  err_taus : F;
  taud : F;
  fluxsum : F;
  weq : F
}.

(** A row of the returned table: the four width columns are added after
    the loop. *)
Record ResultRow : Type := mkResultRow {
  fitted : SubBandRecord;
  fwhm : F;
  err_fwhm : F;
  fwtm : F;
  err_fwtm : F
}.

(** ** [fit_profile_model(fit_range, profile, dm_smear)] *)

Definition param_hints (dm_smear : F) : list LmfitParameter :=
  [ mkParameter "fluence" (Some (lit 5.0)) (Some (lit 0.1)) None true None;
    mkParameter "center" (Some (lit 0.0)) (Some (lit (-20.0))) (Some (lit 20.0))
                true None;
    mkParameter "sigma" (Some (lit 1.0)) (Some (lit 0.1)) (Some (lit 20.0))
                true None;
    mkParameter "taus" (Some (lit 0.5)) (Some (lit 0.01)) (Some (lit 20.0))
                true None;
    mkParameter "taud" (Some dm_smear) None None false None;
    mkParameter "dc" (Some (lit 0.0)) (Some (lit (-0.3))) (Some (lit 0.3))
                true None ].

(** Lines 107-110: the parameters of the fit, with the two derived widths. *)
Definition make_fitparams (dm_smear : F) : list LmfitParameter :=
  param_hints dm_smear ++
  [ mkParameter "fwhm" None None None false (Some "2.3548200*sigma");
    mkParameter "fwtm" None None None false (Some "4.2919320*sigma") ].

(** Lines 124-125: the parameters handed to the sampler. *)
Definition make_emcee_params (fitresult_ml : ModelResult)
  : list LmfitParameter :=
  params fitresult_ml ++
  [ mkParameter "__lnsigma" (Some (flog (lit 0.1)))
                (Some (flog (lit 0.001))) (Some (flog (lit 2.0)))
                true None ].

(** The printed fit reports and the corner plot of the posterior do not
    enter the returned value and are left out. *)
Definition fit_profile_model (fit_range profile : array) (dm_smear : F)
  : M ModelResult :=
  let model := pulsemodels.gaussian_scattered_dfb_instrumental in
  let fitparams := make_fitparams dm_smear in
  emit (FitCall "leastsq" profile fit_range fitparams) ;;
  fitresult_ml <-
    lift (lmfit_fit model profile fit_range fitparams "leastsq" None) ;;
  if negb (success fitresult_ml) then
    raise (RuntimeError "Fit did not converge.")
  else
    let emcee_kws := mkEmceeKws 6000 700 20 false true in
    let emcee_params := make_emcee_params fitresult_ml in
    emit (FitCall "emcee" profile fit_range emcee_params) ;;
    fitresult_emcee <-
      lift (lmfit_fit model profile fit_range emcee_params "emcee"
                      (Some emcee_kws)) ;;
    mret fitresult_emcee.

(** ** [fit_profile(cand, plot_range, fscrunch_factor)], the loop body *)

(** Lines 180-183: select only the central +- 200 ms around the burst. *)
Definition window (plot_range sub_profile : array) : outcome (array * array) :=
  let mask := map (fun t => fabs t <=? lit 200.0) plot_range in
  let fit_range := compress mask plot_range in
  obind (getitem_mask sub_profile mask) (fun sub_profile =>
  Ok (fit_range, sub_profile)).

(** Lines 185-187: remove baseline and normalise. *)
Definition normalise (sub_profile : array) : outcome array :=
  let mu := mean sub_profile in
  let sub_profile := map (fun v => v - mu) sub_profile in
  obind (max sub_profile) (fun peak =>
  Ok (map (fun v => v / peak) sub_profile)).

(** Lines 189-192: baseline statistics outside the central +- 20 ms. *)
Definition baseline_std (fit_range sub_profile : array) : outcome F :=
  let mask := map (fun t => fabs t >? lit 20.0) fit_range in
  obind (getitem_mask sub_profile mask) (fun off_pulse =>
  obind (quantile off_pulse 1 4) (fun q25 =>
  obind (quantile off_pulse 3 4) (fun q75 =>
  Ok (lit 0.7413 * fabs (q75 - q25))))).

(** Line 193: the signal-to-noise ratio. *)
Definition profile_snr (fit_range sub_profile : array) : outcome F :=
  obind (baseline_std fit_range sub_profile) (fun std =>
  obind (max sub_profile) (fun peak =>
  Ok (peak / std))).

(** Lines 215-220: profile statistics of the best fit. *)
Definition profile_statistics (fit_range : array) (fitresult : ModelResult)
  : outcome (F * F) :=
  let bf := best_fit fitresult in
  let positive := compress (map (fun v => v >=? of_int 0) bf) bf in
  obind (getitem fit_range 1) (fun t1 =>
  obind (getitem fit_range 0) (fun t0 =>
  let fluxsum := sum positive * fabs (t1 - t0) in
  obind (max bf) (fun peak =>
  Ok (fluxsum, fluxsum / peak)))).

(** Line 201: the centre frequency of sub-band [iband]. *)
Definition sub_band_cfreq (f0 : F) (iband : nat) (fscrunch_factor : Z)
    (chan_bw : F) : F :=
  f0 + (lit 0.5 + of_int (Z.of_nat iband)) * of_int fscrunch_factor * chan_bw.

(** Lines 202-205: the dispersive smearing across the sub-band. *)
Definition sub_band_smearing (cand : Candidate) (cfreq chan_bw : F) : F :=
  let f_lo := cfreq - lit 0.5 * fabs chan_bw in
  let f_hi := cfreq + lit 0.5 * fabs chan_bw in
  get_dm_smearing (f_lo * lit 1e-3) (f_hi * lit 1e-3) (dm cand).

(** Lines 222-237: the row appended for a fitted sub-band. *)
Definition sub_band_row (iband : nat) (cfreq : F) (fitresult : ModelResult)
    (fluxsum weq : F) : SubBandRecord :=
  mkSubBandRecord iband cfreq
    (best_values fitresult "fluence") (stderr fitresult "fluence")
    (best_values fitresult "sigma") (stderr fitresult "sigma")
    (best_values fitresult "taus") (stderr fitresult "taus")
    (best_values fitresult "taud")
    fluxsum weq.

(** Lines 175-239: one iteration of the loop over sub-bands; [df] is the
    table built so far.  The printed messages and the matplotlib figure of
    each fitted sub-band (lines 241-277) are left out. *)
Definition loop_body
    (cand : Candidate) (plot_range : array) (fscrunch_factor : Z)
    (freqs : array) (chan_bw : F)
    (df : list SubBandRecord) (iband : nat) : M (list SubBandRecord) :=
  sub_profile <- lift (getitem (dedispersed_T cand) iband) ;;
  '(fit_range, sub_profile) <- lift (window plot_range sub_profile) ;;
  sub_profile <- lift (normalise sub_profile) ;;
  snr <- lift (profile_snr fit_range sub_profile) ;;
  if negb (snr >=? lit 3.7) then
    (* Profile S/N too low *)
    mret df
  else
    f0 <- lift (getitem freqs 0) ;;
    let cfreq := sub_band_cfreq f0 iband fscrunch_factor chan_bw in
    let dm_smear := sub_band_smearing cand cfreq chan_bw in
    fitresult <- fit_profile_model fit_range sub_profile dm_smear ;;
    '(fluxsum, weq) <- lift (profile_statistics fit_range fitresult) ;;
    let temp := sub_band_row iband cfreq fitresult fluxsum weq in
    mret (df ++ [temp]).

(** Lines 279-283: compute fwhm and fwtm. *)
Definition add_widths (row : SubBandRecord) : ResultRow :=
  mkResultRow row
    (pulsemodels.gaussian_fwhm (sigma row))
    (pulsemodels.gaussian_fwhm (err_sigma row))
    (pulsemodels.gaussian_fwtm (sigma row))
    (pulsemodels.gaussian_fwtm (err_sigma row)).

(** [fit_profile(cand, plot_range, fscrunch_factor)] *)
Definition fit_profile
    (cand : Candidate) (plot_range : array) (fscrunch_factor : Z)
  : M (list ResultRow) :=
  let freqs := chan_freqs cand in
  f1 <- lift (getitem freqs 1) ;;
  f0 <- lift (getitem freqs 0) ;;
  let chan_bw := f1 - f0 in
  df <- for_each (seq 0 (length (dedispersed_T cand)))
                 (loop_body cand plot_range fscrunch_factor freqs chan_bw)
                 [] ;;
  mret (map add_widths df).

(** ** [main()], the time axis handed to [fit_profile] *)

(** Lines 366-371 of [main]: the time axis in ms of the band-integrated
    [profile], sampled every [tsamp] seconds ([cand.tsamp]), shifted by the
    bin of the burst. *)
Definition burst_time_axis (tsamp : F) (tscrunch_factor : Z) (profile : array)
  : outcome array :=
  let fact := of_int 1000 * tsamp * of_int tscrunch_factor in
  let n := length profile in
  let plot_range := linspace (of_int 0) (fact * of_int (Z.of_nat n)) n in
  (* centre on the burst *)
  obind (argmax profile) (fun bin_burst =>
  Ok (map (fun t => t - fact * of_int (Z.of_nat bin_burst)) plot_range)).

End Pipeline.
End fit_frb.

(* ================================================================= *)
(** * Specification-level definitions *)

(** The linear convolution of two sampled signals at lag [k], in the words
    of the specification: the sum over [j <= k] of [a_j * b_(k-j)]. *)
Definition linear_convolution (a b : list R) (k : nat) : R :=
  sum_f_R0 (fun j => nth j a 0 * nth (k - j) b 0)%R k.

(** The one-sided exponential pulse-broadening function of the
    specification. *)
Definition one_sided_exponential (taus t : R) : R :=
  if Rle_dec 0 t then (1 / taus * exp (- t / taus))%R else 0%R.

(** Whether the sample at [xi] lies inside a boxcar of width [W]. *)
Definition inside (W xi : R) : bool := Rleb (Rabs xi) (0.5 * W).

(** The number of samples of [x] inside a boxcar of width [W]. *)
Definition samples_inside (x : list R) (W : R) : nat :=
  List.length (filter (inside W) x).

(** The [i]-th term [a^i / i!] of the exponential series, by its
    recurrence. *)
Fixpoint exp_term (a : R) (i : nat) : R :=
  match i with
  | O => 1%R
  | S j => (exp_term a j * a / INR (S j))%R
  end.

(** A binary64 zero of either sign. *)
Definition zeroish (v : float) : Prop := v = 0%float \/ v = (-0)%float.

(** A binary64 infinity or NaN. *)
Definition nonfinite (v : float) : Prop :=
  v = infinity \/ v = neg_infinity \/ v = nan.

(** The method named in a call to the fitter. *)
Definition call_method {F : Type} (e : fit_frb.event (F := F)) : string :=
  match e with
  | fit_frb.FitCall method _ _ _ => method
  end.

(* ================================================================= *)
(** * Inputs for concrete runs of the loop in binary64 *)

Module example.
Import fit_frb.
Local Open Scope float_scope.

(** A C library for the runs below: the logarithm is tabulated (correctly
    rounded) at the four arguments the pipeline itself evaluates; the other
    functions are called by the fitter only, never by the pipeline. *)
Definition libm : Libm := {|
  libm_exp := fun _ => nan;
  libm_log := fun v =>
    if v =? 2 then 0x1.62e42fefa39efp-1
    else if v =? 10 then 0x1.26bb1bbb55516p+1
    else if v =? 0x1.999999999999ap-4 then -0x1.26bb1bbb55515p+1
    else if v =? 0x1.0624dd2f1a9fcp-10 then -0x1.ba18a998fffa0p+2
    else nan;
  libm_erfc := fun _ => nan;
  libm_pow := fun _ _ => nan
|}.

Definition elementary : Elementary float := Elementary_binary64 libm.

Definition hint_value (ps : list (LmfitParameter (F := float))) (n : string)
  : float :=
  match find (fun p => String.eqb (name p) n) ps with
  | Some p => match value p with Some v => v | None => nan end
  | None => nan
  end.

(** A fitter that returns the initial values as best values and the data as
    best fit, and reports convergence as told. *)
Definition fitter (converges : bool)
    (model : model_function (F := float)) (data x : list float)
    (ps : list (LmfitParameter (F := float))) (method : string)
    (kws : option EmceeKws) : outcome (ModelResult (F := float)) :=
  Ok (mkModelResult converges ps (hint_value ps) (fun _ => 0.5) data data).

Definition smearing (f_lo f_hi dm : float) : float := 0.25.

Definition time_axis : list float :=
  [-100; -50; -30; -25; 0; 1; 25; 30; 300].

Definition strong_band : list float :=
  [0.125; -0.125; 0.25; 0; 5; 1; 0.125; -0.25; 77].

Definition weak_band : list float :=
  [1; -1; 1.5; -1.25; 2; -0.5; 1; -1; 0].

Definition zero_band : list float := repeat 0 9.

Definition nan_band : list float :=
  [1; -1; 1.5; nan; 2; -0.5; 1; -1; 0].

(** Four sub-bands: a weak one, an all-zero one, a strong one and one with
    a NaN sample. *)
Definition candidate : Candidate :=
  mkCandidate [1400; 1399] [weak_band; zero_band; strong_band; nan_band] 100.

End example.

(* ================================================================= *)
(** * The embedding evaluated on small binary64 inputs *)

Section Evaluation.
Import numpy pulsemodels fit_frb.
Local Open Scope float_scope.

Example boxcar_binary64 : boxcar [-1; 0; 1] 1.5 = [0; 1; 0].
Proof. vm_compute. reflexivity. Qed.

Example quantile_binary64 :
  quantile [3; 1; 2; 5; 4] 1 4 = Ok 2 /\
  quantile [3; 1; 2; 5; 4; 7] 3 4 = Ok 4.75 /\
  quantile [3; nan; 2] 1 4 = Ok nan.
Proof. repeat split; vm_compute; reflexivity. Qed.

Example max_binary64 :
  max [1; nan; 2] = Ok nan /\ max [1; 3; 2] = Ok 3 /\
  max (F := float) [] = Raise ValueError.
Proof. repeat split; vm_compute; reflexivity. Qed.

Example oaconvolve_same_binary64 :
  oaconvolve_same [1; 2; 3; 4] [1; 1; 1; 0] = [3; 6; 9; 7] /\
  oaconvolve_same [1; 2; 3] [0; 1; 0.5] = [1; 2.5; 4].
Proof. split; vm_compute; reflexivity. Qed.

Example window_binary64 :
  window example.time_axis example.zero_band
  = Ok ([-100; -50; -30; -25; 0; 1; 25; 30], repeat 0 8).
Proof. vm_compute. reflexivity. Qed.

Example normalise_binary64 :
  normalise [1; 3; 2] = Ok [-1; 1; 0] /\
  normalise [0; 0; 0] = Ok [nan; nan; nan].
Proof. split; vm_compute; reflexivity. Qed.

Example gaussian_fwhm_binary64 :
  gaussian_fwhm (H0 := example.elementary) 1 = 0x1.2d6abe44afc43p+1.
Proof. vm_compute. reflexivity. Qed.

End Evaluation.

(* ================================================================= *)
(** * Facts about the array primitives, for every number system *)

Section ArrayFacts.
Context {F : Type} `{Arith F}.
Import numpy.

Lemma zip_with_map {A B C D} (f : B -> C -> D) (g : A -> B) (h : A -> C)
    (l : list A) :
  zip_with f (map g l) (map h l) = map (fun v => f (g v) (h v)) l.
Proof. induction l as [| v l IH]; simpl; [reflexivity | now rewrite IH]. Qed.

Lemma setitem_mask_scalar_map {A} (f : A -> F) (p : A -> bool) (c : F)
    (l : list A) :
  setitem_mask_scalar (map f l) (map p l) c =
  map (fun v => if p v then c else f v) l.
Proof. induction l as [| v l IH]; simpl; [reflexivity | now rewrite IH]. Qed.

Lemma setitem_mask_scalar_zeros (p : F -> bool) (c : F) (l : list F) :
  setitem_mask_scalar (zeros (length l)) (map p l) c =
  map (fun v => if p v then c else lit 0.0) l.
Proof.
  unfold zeros.
  induction l as [| v l IH]; simpl; [reflexivity | now rewrite IH].
Qed.

Lemma setitem_mask_compress (p : F -> bool) (g : F -> F) (l : list F) :
  setitem_mask (zeros (length l)) (map p l) (map g (compress (map p l) l)) =
  map (fun v => if p v then g v else lit 0.0) l.
Proof.
  unfold zeros.
  induction l as [| v l IH]; simpl; [reflexivity | ].
  destruct (p v); simpl; now rewrite IH.
Qed.

Lemma compress_filter {A} (p : A -> bool) (l : list A) :
  compress (map p l) l = filter p l.
Proof.
  induction l as [| v l IH]; simpl; [reflexivity | ].
  now destruct (p v); rewrite IH.
Qed.

Lemma compress_repeat {A} (v : A) (mask : list bool) (n : nat) :
  length mask = n ->
  compress mask (repeat v n) = repeat v (length (filter (fun b => b) mask)).
Proof.
  revert n; induction mask as [| b mask IH]; intros [| n] Hlen; simpl in *;
    try reflexivity; try discriminate.
  destruct b; simpl; now rewrite IH by lia.
Qed.

End ArrayFacts.

(** The pulse models, element by element, for every number system. *)
Section ModelFacts.
Context {F : Type} `{Arith F} `{Elementary F}.
Import numpy pulsemodels.
Local Open Scope np_scope.

Lemma gaussian_normed_length (x : list F) (fluence center sigma : F) :
  length (gaussian_normed x fluence center sigma) = length x.
Proof. unfold gaussian_normed. apply length_map. Qed.

Lemma scattered_gaussian_pulse_elementwise
    (x : list F) (fluence center sigma taus dc : F) :
  let invsigma := lit 1.0 / sigma in
  let invK := lit 1.0 / (taus * invsigma) in
  scattered_gaussian_pulse x fluence center sigma taus dc =
  if invK >=? lit 10.0 then
    map (fun g => dc + g) (gaussian_normed x fluence center sigma)
  else
    map (fun xi =>
           let yi := (xi - center) * invsigma in
           let a := lit 0.5 * invK ** of_int 2 - yi * invK in
           let a' := if a >=? lit 300.0 then lit 0.0 else a in
           dc + fluence * (lit 0.5 * invK * invsigma * fexp a'
                           * ferfc (- (yi - invK) / fsqrt (lit 2.0))))
        x.
Proof.
  intros invsigma invK. unfold scattered_gaussian_pulse.
  fold invsigma. fold invK.
  destruct (invK >=? lit 10.0); [reflexivity | ].
  rewrite (map_map (fun xi => (xi - center) * invsigma)
                   (fun yi => lit 0.5 * invK ** of_int 2 - yi * invK)).
  rewrite (map_map _ (fun a => a >=? lit 300.0)).
  rewrite (setitem_mask_scalar_map
             (fun xi => lit 0.5 * invK ** of_int 2
                        - (xi - center) * invsigma * invK)
             (fun xi => (lit 0.5 * invK ** of_int 2
                         - (xi - center) * invsigma * invK) >=? lit 300.0)).
  rewrite zip_with_map, map_map.
  reflexivity.
Qed.

Lemma scattered_gaussian_pulse_length
    (x : list F) (fluence center sigma taus dc : F) :
  length (scattered_gaussian_pulse x fluence center sigma taus dc) = length x.
Proof.
  rewrite scattered_gaussian_pulse_elementwise.
  destruct (fle _ _); rewrite !length_map;
    [apply gaussian_normed_length | reflexivity].
Qed.

Lemma boxcar_elementwise (x : list F) (width : F) :
  boxcar x width =
  map (fun xi => if fabs xi <=? lit 0.5 * width then lit 1.0 else lit 0.0) x.
Proof. unfold boxcar. apply setitem_mask_scalar_zeros. Qed.

Lemma pbf_isotropic_elementwise (x : list F) (taus : F) :
  pbf_isotropic x taus =
  map (fun xi => if xi >=? lit 0.0
                 then lit 1.0 / taus * fexp (- xi * (lit 1.0 / taus))
                 else lit 0.0) x.
Proof.
  unfold pbf_isotropic.
  apply (setitem_mask_compress (fun xi => xi >=? lit 0.0)
           (fun xi => lit 1.0 / taus * fexp (- xi * (lit 1.0 / taus)))).
Qed.

End ModelFacts.

(* ================================================================= *)
(** * The real-number instance *)

Section RealFacts.
Import numpy pulsemodels.
Local Open Scope R_scope.

Lemma Rleb_true (a b : R) : Rleb a b = true <-> a <= b.
Proof. unfold Rleb. destruct (Rle_dec a b); split; intros; easy. Qed.

Lemma Rleb_false (a b : R) : Rleb a b = false <-> b < a.
Proof.
  unfold Rleb. destruct (Rle_dec a b); split; intros; try easy; lra.
Qed.

Lemma Rltb_true (a b : R) : Rltb a b = true <-> a < b.
Proof. unfold Rltb. destruct (Rlt_dec a b); split; intros; easy. Qed.

Lemma Int_part_IZR (n : Z) : Int_part (IZR n) = n.
Proof. symmetry. apply Int_part_spec. lra. Qed.

Lemma Rpow_np_IZR (x : R) (n : Z) : Rpow_np x (IZR n) = powerRZ x n.
Proof.
  unfold Rpow_np. rewrite Int_part_IZR.
  destruct (Req_dec_T (IZR n) (IZR n)) as [_ | Hne];
    [reflexivity | now elim Hne].
Qed.

Lemma Rpow_np_2 (x : R) : Rpow_np x 2 = x ^ 2.
Proof. rewrite Rpow_np_IZR. reflexivity. Qed.

(** [np.sum] over the reals. *)
Lemma sum_fold_left (l : list R) (acc : R) :
  fold_left Rplus l acc = acc + fold_left Rplus l 0.
Proof.
  revert acc; induction l as [| v l IH]; intro acc; simpl; [lra | ].
  rewrite (IH (acc + v)), (IH (0 + v)). lra.
Qed.

Lemma sum_nil : sum (F := R) [] = 0.
Proof. unfold sum; cbn. lra. Qed.

Lemma sum_cons (v : R) (l : list R) : sum (v :: l) = v + sum l.
Proof.
  unfold sum; cbn.
  rewrite sum_fold_left, (sum_fold_left l (0 / 10)). lra.
Qed.

Lemma sum_map_scale (k : R) (l : list R) :
  sum (map (fun r => k * r) l) = k * sum l.
Proof.
  induction l as [| v l IH]; simpl.
  - rewrite sum_nil. lra.
  - rewrite !sum_cons, IH. lra.
Qed.

Lemma maximum_Rmax (a b : R) : maximum a b = Rmax a b.
Proof.
  unfold maximum; cbn. rewrite orb_false_r.
  unfold Rleb, Rmax.
  destruct (Rle_dec b a), (Rle_dec a b); try reflexivity; lra.
Qed.

End RealFacts.

(** Decide the comparisons of a closed real expression. *)
Ltac real_decide :=
  repeat (unfold Rleb, Rltb, Rabs in *;
          match goal with
          | |- context [Rle_dec ?a ?b] => destruct (Rle_dec a b); try lra
          | |- context [Rlt_dec ?a ?b] => destruct (Rlt_dec a b); try lra
          | |- context [Rcase_abs ?a] => destruct (Rcase_abs a); try lra
          end).

Section PulseModelTheorems.
Import numpy pulsemodels.
Local Open Scope R_scope.

Lemma gaussian_normed_real (x : list R) (fluence center sigma : R) :
  gaussian_normed x fluence center sigma =
  map (fun xi => fluence / (sigma * sqrt (2 * PI))
                 * exp (- 0.5 * ((xi - center) / sigma) ^ 2)) x.
Proof.
  unfold gaussian_normed; cbn.
  apply map_ext; intro xi.
  rewrite Rpow_np_2.
  replace (20 / 10) with 2 by lra.
  replace (-5 / 10) with (- 0.5) by lra.
  reflexivity.
Qed.

(** C1.  For sigma > 0 and taus > 0 the analytic scattered Gaussian is
    piecewise: with invsigma = 1/sigma, K = taus*invsigma, invK = 1/K and
    y = (x - center)*invsigma, it is [dc] plus the normed Gaussian when
    invK >= 10, and otherwise
    dc + fluence*0.5*invK*invsigma*exp(argexp')*erfc(-(y - invK)/sqrt 2),
    where argexp' is 0.5*invK^2 - y*invK with every element >= 300
    replaced by 0. *)
Theorem scattered_gaussian_pulse_piecewise
    (x : list R) (fluence center sigma taus dc : R) :
  0 < sigma -> 0 < taus ->
  let invsigma := 1 / sigma in
  let K := taus * invsigma in
  let invK := 1 / K in
  let y := fun xi => (xi - center) * invsigma in
  let argexp := fun xi => 0.5 * invK ^ 2 - y xi * invK in
  let argexp' := fun xi => if Rle_dec 300 (argexp xi) then 0 else argexp xi in
  scattered_gaussian_pulse x fluence center sigma taus dc =
  if Rle_dec 10 invK
  then map (fun g => dc + g) (gaussian_normed x fluence center sigma)
  else map (fun xi => dc + fluence * 0.5 * invK * invsigma * exp (argexp' xi)
                      * erfc (- (y xi - invK) / sqrt 2)) x.
Proof.
  intros _ _ invsigma K invK y argexp argexp'.
  rewrite scattered_gaussian_pulse_elementwise.
  cbn -[gaussian_normed].
  replace (10 / 10) with 1 by lra.
  replace (100 / 10) with 10 by lra.
  fold invsigma. fold K. fold invK.
  unfold Rleb at 1.
  destruct (Rle_dec 10 invK) as [Hbig | Hsmall]; [reflexivity | ].
  apply map_ext; intro xi.
  rewrite Rpow_np_2.
  replace (5 / 10 * invK ^ 2 - (xi - center) * invsigma * invK)
    with (argexp xi) by (unfold argexp, y; lra).
  replace (3000 / 10) with 300 by lra.
  replace (20 / 10) with 2 by lra.
  replace ((xi - center) * invsigma) with (y xi) by reflexivity.
  unfold argexp', Rleb.
  destruct (Rle_dec 300 (argexp xi)).
  - replace (0 / 10) with 0 by lra. lra.
  - lra.
Qed.

(** C1 on both branches: taus = 1/20 (invK = 20) and taus = 1 (invK = 1). *)
Lemma scattered_gaussian_pulse_piecewise_witness :
  scattered_gaussian_pulse [0; 1] 5 0 1 (1 / 20) (1 / 10) =
  map (fun g => 1 / 10 + g) (gaussian_normed [0; 1] 5 0 1) /\
  scattered_gaussian_pulse [0; 1] 5 0 1 1 (1 / 10) =
  map (fun xi =>
         1 / 10
         + 5 * 0.5 * (1 / (1 * (1 / 1))) * (1 / 1)
           * exp (if Rle_dec 300 (0.5 * (1 / (1 * (1 / 1))) ^ 2
                                  - (xi - 0) * (1 / 1) * (1 / (1 * (1 / 1))))
                  then 0
                  else 0.5 * (1 / (1 * (1 / 1))) ^ 2
                       - (xi - 0) * (1 / 1) * (1 / (1 * (1 / 1))))
           * erfc (- ((xi - 0) * (1 / 1) - 1 / (1 * (1 / 1))) / sqrt 2))
      [0; 1].
Proof.
  split.
  - pose proof (scattered_gaussian_pulse_piecewise
                  [0; 1] 5 0 1 (1 / 20) (1 / 10)) as Hp.
    cbv zeta in Hp. rewrite Hp by lra.
    destruct (Rle_dec 10 (1 / (1 / 20 * (1 / 1)))) as [_ | Hn];
      [reflexivity | exfalso; apply Hn; lra].
  - pose proof (scattered_gaussian_pulse_piecewise
                  [0; 1] 5 0 1 1 (1 / 10)) as Hp.
    cbv zeta in Hp. rewrite Hp by lra.
    destruct (Rle_dec 10 (1 / (1 * (1 / 1)))) as [Hbig | _];
      [exfalso; lra | reflexivity].
Defined.

End PulseModelTheorems.

Section IndexFacts.

Lemma map_nth_seq {A B} (f : A -> B) (l : list A) (d : A) :
  map f l = map (fun i => f (nth i l d)) (seq 0 (length l)).
Proof.
  induction l as [| v l IH]; simpl; [reflexivity | ].
  f_equal. rewrite <- seq_shift, map_map. exact IH.
Qed.

Lemma zip_with_nth_seq {A B C} (f : A -> B -> C) (a : list A) (b : list B)
    (da : A) (db : B) :
  length a = length b ->
  zip_with f a b =
  map (fun i => f (nth i a da) (nth i b db)) (seq 0 (length a)).
Proof.
  revert b; induction a as [| v a IH]; intros [| w b] Hlen; simpl in *;
    try reflexivity; try discriminate.
  f_equal. rewrite <- seq_shift, map_map. apply IH. lia.
Qed.

End IndexFacts.

Section AfbTheorem.
Context {F : Type} `{Arith F} `{Elementary F}.
Import numpy pulsemodels.
Local Open Scope np_scope.

(** The analogue-instrumental model, sample by sample. *)
Lemma gaussian_scattered_afb_instrumental_elementwise
    (x : list F) (fluence center sigma taus taui taud dc : F) :
  let G := fun tau i =>
    nth i (scattered_gaussian_pulse x fluence center sigma tau (lit 0.0))
          (lit 0.0) in
  let A := fun i => taus ** of_int 2 * G taus i / ((taus - taui) * (taus - taud)) in
  let B := fun i => taui ** of_int 2 * G taui i / ((taus - taui) * (taui - taud)) in
  let C := fun i => taud ** of_int 2 * G taud i / ((taus - taud) * (taui - taud)) in
  gaussian_scattered_afb_instrumental x fluence center sigma taus taui taud dc
  = map (fun i => dc + A i - B i + C i) (seq 0 (length x)).
Proof.
  intros G A B C. unfold gaussian_scattered_afb_instrumental.
  set (Gs := scattered_gaussian_pulse x fluence center sigma taus (lit 0.0)).
  set (Gi := scattered_gaussian_pulse x fluence center sigma taui (lit 0.0)).
  set (Gd := scattered_gaussian_pulse x fluence center sigma taud (lit 0.0)).
  assert (Hs : length Gs = length x) by apply scattered_gaussian_pulse_length.
  assert (Hi : length Gi = length x) by apply scattered_gaussian_pulse_length.
  assert (Hd : length Gd = length x) by apply scattered_gaussian_pulse_length.
  rewrite (map_nth_seq _ Gs (lit 0.0)), (map_nth_seq _ Gi (lit 0.0)),
          (map_nth_seq _ Gd (lit 0.0)), Hs, Hi, Hd.
  rewrite !zip_with_map. reflexivity.
Qed.

End AfbTheorem.

Section ConvolutionFacts.
Import numpy pulsemodels.
Local Open Scope R_scope.

Lemma lit_zero_real : lit (F := R) 0.0 = 0.
Proof. cbn. lra. Qed.

Lemma nth_add_padded (a b : list R) (k : nat) :
  nth k (add_padded a b) 0 = nth k a 0 + nth k b 0.
Proof.
  revert b k; induction a as [| v a IH]; intros [| w b] [| k]; simpl;
    try lra; try reflexivity; apply IH.
Qed.

Lemma nth_map_scale (v : R) (b : list R) (k : nat) :
  nth k (map (fun w => v * w) b) 0 = v * nth k b 0.
Proof.
  replace 0 with (v * 0) at 1 by lra.
  apply (map_nth (fun w => v * w)).
Qed.

Lemma linear_convolution_nil (b : list R) (k : nat) :
  linear_convolution [] b k = 0.
Proof.
  unfold linear_convolution. apply sum_eq_R0.
  intros j _. destruct j; simpl; lra.
Qed.

Lemma linear_convolution_cons (v : R) (a b : list R) (k : nat) :
  linear_convolution (v :: a) b k =
  v * nth k b 0 + match k with
                  | O => 0
                  | S k' => linear_convolution a b k'
                  end.
Proof.
  unfold linear_convolution. destruct k as [| k'].
  - simpl. lra.
  - rewrite decomp_sum by lia. simpl. reflexivity.
Qed.

Lemma nth_convolve_full (a b : list R) (k : nat) :
  nth k (convolve_full a b) 0 = linear_convolution a b k.
Proof.
  revert k; induction a as [| v a IH]; intro k.
  - rewrite linear_convolution_nil. destruct k; reflexivity.
  - rewrite linear_convolution_cons.
    destruct a as [| w a].
    + cbn [convolve_full]. change fmul with Rmult.
      rewrite nth_map_scale.
      destruct k; rewrite ?linear_convolution_nil; lra.
    + change (convolve_full (v :: w :: a) b)
        with (add_padded (map (fun u => v * u) b)
                         (lit 0.0 :: convolve_full (w :: a) b)).
      rewrite nth_add_padded, nth_map_scale, lit_zero_real.
      destruct k as [| k']; simpl nth; [lra | ].
      now rewrite IH.
Qed.

Lemma add_padded_length (a b : list R) :
  length (add_padded a b) = Nat.max (length a) (length b).
Proof.
  revert b; induction a as [| v a IH]; intros [| w b]; simpl;
    try reflexivity.
  now rewrite IH.
Qed.

Lemma convolve_full_length (a b : list R) :
  a <> [] -> b <> [] ->
  length (convolve_full a b) = (length a + length b - 1)%nat.
Proof.
  intros Ha Hb. induction a as [| v a IH]; [contradiction | ].
  destruct a as [| w a].
  - cbn [convolve_full]. rewrite length_map. simpl. lia.
  - change (convolve_full (v :: w :: a) b)
      with (add_padded (map (fun u => v * u) b)
                       (lit 0.0 :: convolve_full (w :: a) b)).
    rewrite add_padded_length, length_map.
    cbn [length]. rewrite IH by discriminate.
    destruct b; [contradiction | ]. cbn [length]. lia.
Qed.

Lemma firstn_skipn_nth_seq {A} (l : list A) (s n : nat) (d : A) :
  (s + n <= length l)%nat ->
  firstn n (skipn s l) = map (fun k => nth (k + s) l d) (seq 0 n).
Proof.
  revert l n; induction s as [| s IH]; intros l n Hlen.
  - rewrite skipn_O. revert l Hlen; induction n as [| n IHn]; intros l Hlen.
    + reflexivity.
    + destruct l as [| v l]; [simpl in Hlen; lia | ].
      cbn [firstn seq map]. f_equal.
      rewrite <- seq_shift, map_map. simpl in Hlen.
      rewrite IHn by lia. apply map_ext; intro k.
      now rewrite !Nat.add_0_r.
  - destruct l as [| v l]; [simpl in Hlen; lia | ].
    simpl in Hlen. cbn [skipn]. rewrite IH by lia.
    apply map_ext; intro k. now rewrite Nat.add_succ_r.
Qed.

(** [oaconvolve(a, b, mode="same")] for equally long inputs, sample by
    sample: the full linear convolution read from lag [(n-1)/2] on. *)
Lemma oaconvolve_same_nth_seq (a b : list R) :
  length a = length b ->
  oaconvolve_same a b =
  map (fun k => linear_convolution a b (k + (length a - 1) / 2))
      (seq 0 (length a)).
Proof.
  intro Hlen. unfold oaconvolve_same.
  destruct b as [| w b].
  - destruct a; [reflexivity | discriminate].
  - destruct a as [| v a]; [discriminate | ].
    unfold centered.
    rewrite convolve_full_length by discriminate.
    replace ((length (v :: a) + length (w :: b) - 1 - length (v :: a)) / 2)%nat
      with ((length (v :: a) - 1) / 2)%nat
      by (rewrite <- Hlen; f_equal; lia).
    rewrite (firstn_skipn_nth_seq _ _ _ 0).
    + apply map_ext; intro k. apply nth_convolve_full.
    + rewrite convolve_full_length by discriminate. rewrite <- Hlen.
      pose proof (Nat.Div0.div_le_upper_bound (length (v :: a) - 1) 2
                    (length (v :: a) - 1)) as Hdiv.
      cbn [length] in *. lia.
Qed.

Lemma pbf_isotropic_real (x : list R) (taus : R) :
  pbf_isotropic x taus = map (one_sided_exponential taus) x.
Proof.
  rewrite pbf_isotropic_elementwise. apply map_ext; intro xi.
  cbn. unfold one_sided_exponential, Rleb.
  replace (0 / 10) with 0 by lra.
  destruct (Rle_dec 0 xi); [ | reflexivity].
  replace (10 / 10) with 1 by lra.
  f_equal. f_equal. unfold Rdiv. ring.
Qed.

(** C6.  For sigma > 0 and taus > 0 the convolution-form scattered profile
    is [dc] plus the same-length, centered linear convolution of the normed
    Gaussian with the one-sided exponential broadening function
    ((1/taus)*exp(-x/taus) for x >= 0, else 0), divided by the discrete sum
    of the broadening-function samples. *)
Theorem scattered_profile_is_centered_convolution
    (x : list R) (fluence center sigma taus dc : R) :
  0 < sigma -> 0 < taus ->
  let A := gaussian_normed x fluence center sigma in
  let B := map (one_sided_exponential taus) x in
  let n := length x in
  pbf_isotropic x taus = B /\
  scattered_profile x fluence center sigma taus dc =
  map (fun k => dc + linear_convolution A B (k + (n - 1) / 2) / sum B)
      (seq 0 n).
Proof.
  intros _ _ A B n. split; [apply pbf_isotropic_real | ].
  unfold scattered_profile. rewrite pbf_isotropic_real. fold A. fold B.
  rewrite oaconvolve_same_nth_seq
    by (unfold A, B; now rewrite gaussian_normed_length, length_map).
  rewrite map_map. unfold A at 2 3. rewrite gaussian_normed_length.
  reflexivity.
Qed.

Lemma scattered_profile_is_centered_convolution_witness :
  pbf_isotropic [-1; 0; 1] 2 = map (one_sided_exponential 2) [-1; 0; 1] /\
  scattered_profile [-1; 0; 1] 5 0 1 2 (1 / 10) =
  map (fun k => 1 / 10
                + linear_convolution (gaussian_normed [-1; 0; 1] 5 0 1)
                    (map (one_sided_exponential 2) [-1; 0; 1]) (k + 1)
                  / sum (map (one_sided_exponential 2) [-1; 0; 1]))
      [0; 1; 2]%nat.
Proof.
  apply (scattered_profile_is_centered_convolution [-1; 0; 1] 5 0 1 2 (1 / 10));
    lra.
Defined.

End ConvolutionFacts.

Section WidthAndBandTheorems.
Import numpy pulsemodels.
Local Open Scope R_scope.

Lemma boxcar_real (x : list R) (W : R) :
  boxcar x W = map (fun xi => if inside W xi then 1 else 0) x.
Proof.
  rewrite boxcar_elementwise. apply map_ext; intro xi. cbn.
  unfold inside. replace (5 / 10 * W) with (0.5 * W) by lra.
  destruct (Rleb _ _); lra.
Qed.

Lemma sum_indicator (p : R -> bool) (x : list R) :
  sum (map (fun xi => if p xi then 1 else 0) x) = INR (length (filter p x)).
Proof.
  induction x as [| xi x IH]; cbn [map filter].
  - rewrite sum_nil. reflexivity.
  - rewrite sum_cons, IH. destruct (p xi).
    + cbn [length]. rewrite S_INR. lra.
    + lra.
Qed.

Lemma fold_maximum_ge_acc (l : list R) (acc : R) :
  acc <= fold_left maximum l acc.
Proof.
  revert acc; induction l as [| v l IH]; intro acc; simpl; [lra | ].
  eapply Rle_trans; [ | apply IH]. rewrite maximum_Rmax. apply Rmax_l.
Qed.

Lemma fold_maximum_ge_In (l : list R) (acc v : R) :
  In v l -> v <= fold_left maximum l acc.
Proof.
  revert acc; induction l as [| w l IH]; intros acc Hv; [contradiction | ].
  destruct Hv as [Hv | Hv]; simpl.
  - subst w. eapply Rle_trans; [ | apply fold_maximum_ge_acc].
    rewrite maximum_Rmax. apply Rmax_r.
  - now apply IH.
Qed.

Lemma fold_maximum_le (l : list R) (acc b : R) :
  acc <= b -> Forall (fun v => v <= b) l -> fold_left maximum l acc <= b.
Proof.
  intros Hacc Hl; revert acc Hacc.
  induction Hl as [| v l Hv _ IH]; intros acc Hacc; simpl; [exact Hacc | ].
  apply IH. rewrite maximum_Rmax. now apply Rmax_lub.
Qed.

Lemma max_indicator (p : R -> bool) (x : list R) :
  (1 <= length (filter p x))%nat ->
  max (map (fun xi => if p xi then 1 else 0) x) = Ok 1.
Proof.
  intro Hin.
  assert (Hex : exists xi, In xi x /\ p xi = true).
  { destruct (filter p x) as [| xi f] eqn:Hf; [simpl in Hin; lia | ].
    exists xi. apply filter_In. rewrite Hf. now left. }
  destruct Hex as [xi [Hxi Hp]].
  set (amp := map (fun xi => if p xi then 1 else 0) x).
  assert (Hone : In 1 amp).
  { unfold amp. apply in_map_iff. exists xi. now rewrite Hp. }
  assert (Hle : Forall (fun v => v <= 1) amp).
  { unfold amp. apply Forall_forall. intros v Hv.
    apply in_map_iff in Hv. destruct Hv as [u [<- _]]. destruct (p u); lra. }
  destruct amp as [| v rest]; [contradiction | ].
  unfold max. f_equal. apply Rle_antisym.
  - inversion Hle; subst. now apply fold_maximum_le.
  - destruct Hone as [-> | Hone].
    + apply fold_maximum_ge_acc.
    + now apply fold_maximum_ge_In.
Qed.

(** The non-negative samples of a boxcar are all its samples, and they sum
    to the number of samples inside. *)
Lemma boxcar_flux_sum (x : list R) (W : R) :
  sum (compress (map (fun a => Rleb 0 a) (boxcar x W)) (boxcar x W))
  = INR (samples_inside x W).
Proof.
  rewrite boxcar_real, compress_filter.
  rewrite (proj2 (filter_ext_in_iff _ (fun _ => true) _)).
  - rewrite filter_true. apply sum_indicator.
  - intros v Hv. apply in_map_iff in Hv. destruct Hv as [u [<- _]].
    apply Rleb_true. destruct (inside W u); lra.
Qed.

(** The peak of a boxcar that holds a sample is 1. *)
Lemma boxcar_peak (x : list R) (W : R) :
  (1 <= samples_inside x W)%nat -> max (boxcar x W) = Ok 1.
Proof. intro Hin. rewrite boxcar_real. now apply max_indicator. Qed.

(** C9, as the code has it.  For a time axis with at least two samples and a
    boxcar of width [W] that contains at least one sample, the equivalent
    width of [boxcar(x, W)] is the number of samples inside the boxcar times
    the sample spacing |x[0] - x[1]|. *)
Theorem equivalent_width_of_boxcar (x : list R) (W : R) (x0 x1 : R)
    (rest : list R) :
  x = x0 :: x1 :: rest ->
  (1 <= samples_inside x W)%nat ->
  equivalent_width x (boxcar x W) =
  Ok (INR (samples_inside x W) * Rabs (x0 - x1)).
Proof.
  intros -> Hin. unfold equivalent_width.
  change (of_int 0) with 0. change (fun a : R => fle 0 a) with (Rleb 0).
  rewrite boxcar_flux_sum, boxcar_peak by exact Hin.
  cbn [getitem nth_error obind].
  f_equal. change fmul with Rmult. change fdiv with Rdiv.
  change fabs with Rabs. change fsub with Rminus. field.
Qed.

Lemma samples_inside_example : samples_inside [-1; 0; 1] (3 / 2) = 1%nat.
Proof.
  unfold samples_inside. cbn [filter]. unfold inside.
  replace (Rleb (Rabs (-1)) (0.5 * (3 / 2))) with false
    by (symmetry; apply Rleb_false; unfold Rabs; real_decide).
  replace (Rleb (Rabs 0) (0.5 * (3 / 2))) with true
    by (symmetry; apply Rleb_true; unfold Rabs; real_decide).
  replace (Rleb (Rabs 1) (0.5 * (3 / 2))) with false
    by (symmetry; apply Rleb_false; unfold Rabs; real_decide).
  reflexivity.
Qed.

Lemma equivalent_width_of_boxcar_witness :
  equivalent_width [-1; 0; 1] (boxcar [-1; 0; 1] (3 / 2)) =
  Ok (INR (samples_inside [-1; 0; 1] (3 / 2)) * Rabs (-1 - 0)).
Proof.
  apply (equivalent_width_of_boxcar [-1; 0; 1] (3 / 2) (-1) 0 [1]).
  - reflexivity.
  - rewrite samples_inside_example. lia.
Defined.

(** C9, as stated, fails: on the uniformly spaced axis [-1; 0; 1] the boxcar
    of width 3/2 holds one sample, and its equivalent width is 1, in exact
    arithmetic as well as in binary64. *)
Lemma equivalent_width_of_boxcar_is_not_width :
  let x := [-1; 0; 1] in
  let W := 3 / 2 in
  (2 <= length x)%nat /\
  nth 1 x 0 - nth 0 x 0 = nth 2 x 0 - nth 1 x 0 /\
  (1 <= samples_inside x W)%nat /\
  equivalent_width x (boxcar x W) <> Ok W /\
  equivalent_width (F := float) [(-1)%float; 0%float; 1%float]
    (boxcar [(-1)%float; 0%float; 1%float] 1.5%float) = Ok 1%float.
Proof.
  cbv zeta. split; [simpl; lia | ]. split; [simpl; lra | ].
  split; [rewrite samples_inside_example; lia | ].
  split; [ | vm_compute; reflexivity].
  unfold equivalent_width.
  change (of_int 0) with 0. change (fun a : R => fle 0 a) with (Rleb 0).
  rewrite boxcar_flux_sum, boxcar_peak, samples_inside_example
    by (rewrite samples_inside_example; lia).
  cbn [getitem nth_error obind].
  intro Heq. injection Heq as Heq. revert Heq.
  change fmul with Rmult. change fdiv with Rdiv.
  change fabs with Rabs. change fsub with Rminus.
  replace (-1 - 0) with (-1) by lra. simpl INR. unfold Rabs. real_decide.
Qed.

End WidthAndBandTheorems.

Section BandTheorems.
Import numpy pulsemodels.
Local Open Scope R_scope.

(** C4.  On a time axis with at least two samples, when the discrete
    integral of the summed per-frequency profiles (their sum times the
    sample spacing |x[0] - x[1]|) is not zero, the band-integration model
    returns a profile whose samples, less the offset [dc], sum times the
    sample spacing to exactly the input fluence. *)
Theorem bandintegrated_model_integral
    (x : list R) (fluence center sigma taus dc f_lo f_hi : R) (nfreq : nat)
    (x0 x1 : R) (rest : list R) :
  x = x0 :: x1 :: rest ->
  sum (summed_profiles x fluence center sigma taus f_lo f_hi nfreq)
  * Rabs (x0 - x1) <> 0 ->
  exists res,
    bandintegrated_model x fluence center sigma taus dc f_lo f_hi nfreq
    = Ok res /\
    sum (map (fun r => r - dc) res) * Rabs (x0 - x1) = fluence.
Proof.
  intros -> Htot. unfold bandintegrated_model.
  set (S := summed_profiles _ fluence center sigma taus f_lo f_hi nfreq) in *.
  cbn [getitem nth_error obind].
  eexists; split; [reflexivity | ].
  rewrite map_map.
  rewrite (map_ext _ (fun r => fluence / (sum S * Rabs (x0 - x1)) * r))
    by (intro r; cbn; lra).
  rewrite sum_map_scale. field.
  split; intro Hzero; apply Htot; rewrite Hzero; ring.
Qed.

End BandTheorems.

Section SingleFrequency.
Import numpy pulsemodels.
Local Open Scope R_scope.

Lemma Rpow_np_minus4 (r : R) : Rpow_np r (lit (-4.0)) = / r ^ 4.
Proof.
  replace (lit (-4.0)) with (IZR (-4)) by (cbn; lra).
  rewrite Rpow_np_IZR. reflexivity.
Qed.

Lemma Rpow_np_minus3half (r : R) : Rpow_np r (lit (-1.5)) = Rpower r (-1.5).
Proof.
  replace (lit (-1.5)) with (-1.5) by (cbn; lra).
  unfold Rpow_np.
  assert (Hip : Int_part (-1.5) = (-2)%Z)
    by (symmetry; apply Int_part_spec; lra).
  rewrite Hip.
  destruct (Req_dec_T (-1.5) (-2)) as [Heq | _]; [lra | reflexivity].
Qed.

Lemma zip_with_zeros (p : list R) (n : nat) :
  length p = n -> zip_with fadd (zeros n) p = p.
Proof.
  intros <-. unfold zeros. induction p as [| v p IH]; [reflexivity | ].
  cbn [length repeat zip_with]. rewrite IH. f_equal. cbn. lra.
Qed.

Lemma summed_profiles_single
    (x : list R) (fluence center sigma taus f_lo f_hi : R) :
  let r := f_lo / (0.5 * (f_lo + f_hi)) in
  summed_profiles x fluence center sigma taus f_lo f_hi 1 =
  scattered_gaussian_pulse x (fluence * Rpower r (-1.5)) center sigma
                           (taus * / r ^ 4) 0.
Proof.
  intro r. unfold summed_profiles, sum_axis0.
  cbn [geomspace map zip_with fold_left].
  change fpow with Rpow_np.
  rewrite Rpow_np_minus4, Rpow_np_minus3half.
  rewrite zip_with_zeros by apply scattered_gaussian_pulse_length.
  rewrite lit_zero_real.
  change fmul with Rmult. change fdiv with Rdiv. change fadd with Rplus.
  replace (lit 0.5) with 0.5 by (cbn; lra).
  reflexivity.
Qed.

(** The analytic scattered Gaussian on its Gaussian branch. *)
Lemma scattered_gaussian_pulse_gaussian_branch
    (x : list R) (fluence center sigma taus dc : R) :
  0 < sigma -> 0 < taus -> 10 * taus <= sigma ->
  scattered_gaussian_pulse x fluence center sigma taus dc =
  map (fun xi => dc + fluence / (sigma * sqrt (2 * PI))
                      * exp (- 0.5 * ((xi - center) / sigma) ^ 2)) x.
Proof.
  intros Hs Ht Hbig.
  rewrite scattered_gaussian_pulse_elementwise.
  cbn -[gaussian_normed].
  replace (Rleb (100 / 10) (10 / 10 / (taus * (10 / 10 / sigma)))) with true.
  - rewrite gaussian_normed_real, map_map. reflexivity.
  - symmetry. apply Rleb_true.
    replace (10 / 10 / (taus * (10 / 10 / sigma))) with (sigma / taus)
      by (field; lra).
    apply Rle_trans with (10 * taus / taus).
    + right; field; lra.
    + apply Rmult_le_compat_r; [ | exact Hbig].
      left; now apply Rinv_0_lt_compat.
Qed.

(** C2, as the code has it.  With [nfreq = 1] the frequency grid holds the
    lower band edge [f_lo] only, so the band-integration model evaluates the
    analytic scattered Gaussian with the fluence and the scattering time
    scaled to [f_lo] (by r^-1.5 and r^-4, r = f_lo / band centre) and zero
    offset, rescales it to discrete integral [fluence] and adds [dc]. *)
Theorem bandintegrated_model_single_frequency
    (x : list R) (fluence center sigma taus dc f_lo f_hi : R)
    (x0 x1 : R) (rest : list R) :
  x = x0 :: x1 :: rest ->
  0 < f_lo -> f_lo < f_hi ->
  let r := f_lo / (0.5 * (f_lo + f_hi)) in
  let P := scattered_gaussian_pulse x (fluence * Rpower r (-1.5)) center
                                    sigma (taus * / r ^ 4) 0 in
  bandintegrated_model x fluence center sigma taus dc f_lo f_hi 1 =
  Ok (map (fun p => dc + fluence / (sum P * Rabs (x0 - x1)) * p) P).
Proof.
  intros -> _ _ r P. unfold bandintegrated_model.
  rewrite summed_profiles_single. fold r. fold P.
  reflexivity.
Qed.

Lemma bandintegrated_model_single_frequency_witness :
  bandintegrated_model [0; 1] 1 0 1 (1 / 1000) 0 1 3 1 =
  Ok (map (fun p =>
             0 + 1 / (sum (scattered_gaussian_pulse [0; 1]
                             (1 * Rpower (1 / (0.5 * (1 + 3))) (-1.5)) 0 1
                             (1 / 1000 * / (1 / (0.5 * (1 + 3))) ^ 4) 0)
                      * Rabs (0 - 1)) * p)
          (scattered_gaussian_pulse [0; 1]
             (1 * Rpower (1 / (0.5 * (1 + 3))) (-1.5)) 0 1
             (1 / 1000 * / (1 / (0.5 * (1 + 3))) ^ 4) 0)).
Proof.
  apply (bandintegrated_model_single_frequency
           [0; 1] 1 0 1 (1 / 1000) 0 1 3 0 1 []); [reflexivity | lra | lra].
Defined.

(** The band model on the axis [0; 1] with unit fluence and width, a
    scattering time of 1/1000 and the band from 1 to 3: both per-frequency
    profiles are on the Gaussian branch. *)
Lemma band_example_profile :
  let c := 1 * Rpower (1 / (0.5 * (1 + 3))) (-1.5) in
  scattered_gaussian_pulse [0; 1] c 0 1
    (1 / 1000 * / (1 / (0.5 * (1 + 3))) ^ 4) 0 =
  [0 + c / (1 * sqrt (2 * PI)) * exp (- 0.5 * ((0 - 0) / 1) ^ 2);
   0 + c / (1 * sqrt (2 * PI)) * exp (- 0.5 * ((1 - 0) / 1) ^ 2)].
Proof.
  intro c.
  rewrite scattered_gaussian_pulse_gaussian_branch; [reflexivity | lra | | ].
  - apply Rmult_lt_0_compat; [lra | ].
    apply Rinv_0_lt_compat, pow_lt. lra.
  - lra.
Qed.

Lemma sqrt_2PI_gt_2 : 2 < sqrt (2 * PI).
Proof.
  pose proof PI2_1 as Hpi.
  replace 2 with (sqrt (2 * 2)) at 1 by (apply sqrt_square; lra).
  apply sqrt_lt_1; lra.
Qed.

Lemma exp_minus_half_bounds : 0 < exp (- 0.5 * ((1 - 0) / 1) ^ 2) < 1.
Proof.
  split; [apply exp_pos | ].
  apply Rlt_le_trans with (exp 0); [ | rewrite exp_0; lra].
  apply exp_increasing. simpl pow. lra.
Qed.

(** C2, as stated, fails: for a band from 1 to 3 the one-frequency band
    model differs from the analytic scattered Gaussian with the same
    parameters already in its first sample (above 1/2 against below 1/2). *)
Lemma bandintegrated_model_single_frequency_differs :
  0 < 1 /\ 0 < 1 / 1000 /\ 1 < 3 /\
  bandintegrated_model [0; 1] 1 0 1 (1 / 1000) 0 1 3 1 <>
  Ok (scattered_gaussian_pulse [0; 1] 1 0 1 (1 / 1000) 0).
Proof.
  split; [lra | ]. split; [lra | ]. split; [lra | ].
  unfold bandintegrated_model.
  rewrite summed_profiles_single. cbv zeta. cbn [getitem nth_error obind].
  change fmul with Rmult. change fdiv with Rdiv. change fadd with Rplus.
  change fabs with Rabs. change fsub with Rminus.
  rewrite band_example_profile.
  rewrite (scattered_gaussian_pulse_gaussian_branch [0; 1] 1 0 1 (1 / 1000) 0)
    by lra.
  set (c := 1 * Rpower (1 / (0.5 * (1 + 3))) (-1.5)).
  assert (Hc : 0 < c).
  { unfold c. rewrite Rmult_1_l. unfold Rpower. apply exp_pos. }
  pose proof sqrt_2PI_gt_2 as Hq.
  pose proof exp_minus_half_bounds as [He0 He1].
  set (q := sqrt (2 * PI)) in *.
  set (e1 := exp (- 0.5 * ((1 - 0) / 1) ^ 2)) in *.
  assert (Hexp0 : exp (- 0.5 * ((0 - 0) / 1) ^ 2) = 1).
  { replace (- 0.5 * ((0 - 0) / 1) ^ 2) with 0 by (simpl pow; lra).
    apply exp_0. }
  cbn [map]. rewrite Hexp0, !sum_cons, sum_nil.
  intro Heq. injection Heq as Heq _.
  replace (Rabs (0 - 1)) with 1 in Heq
    by (unfold Rabs; destruct (Rcase_abs (0 - 1)); lra).
  assert (Hiq : 0 < / q) by (apply Rinv_0_lt_compat; lra).
  assert (Hiq2 : / q < / 2) by (apply Rinv_lt_contravar; lra).
  assert (Hrhs : 0 + 1 / (1 * q) * 1 < / 2).
  { replace (0 + 1 / (1 * q) * 1) with (/ q) by (field; lra). lra. }
  assert (Hlhs : / 2 <
    0 + 1 / ((0 + c / (1 * q) * 1 + (0 + c / (1 * q) * e1 + 0)) * 1)
        * (0 + c / (1 * q) * 1)).
  { replace (0 + 1 / ((0 + c / (1 * q) * 1 + (0 + c / (1 * q) * e1 + 0)) * 1)
                 * (0 + c / (1 * q) * 1))
      with (/ (1 + e1)) by (field; repeat split; nra).
    apply Rinv_lt_contravar; lra. }
  lra.
Qed.

End SingleFrequency.

Section LogBounds.
Local Open Scope R_scope.

Lemma exp_term_pow_fact (a : R) (i : nat) : exp_term a i = a ^ i / INR (fact i).
Proof.
  induction i as [| i IH].
  - simpl. lra.
  - cbn [exp_term]. rewrite IH, fact_simpl, mult_INR. simpl pow.
    field. split; [apply INR_fact_neq_0 | apply not_0_INR; discriminate].
Qed.

Lemma exp_term_nonneg (a : R) (i : nat) : 0 <= a -> 0 <= exp_term a i.
Proof.
  intro Ha. induction i as [| i IH]; cbn [exp_term]; [lra | ].
  apply Rmult_le_pos; [now apply Rmult_le_pos | ].
  left. apply Rinv_0_lt_compat, lt_0_INR. lia.
Qed.

Lemma exp_term_decreasing (a : R) : 0 <= a <= 1 -> Un_decreasing (exp_term a).
Proof.
  intros [Ha0 Ha1] i. cbn [exp_term].
  pose proof (exp_term_nonneg a i Ha0) as Hi.
  assert (Hn : 1 <= INR (S i)) by (rewrite S_INR; pose proof (pos_INR i); lra).
  unfold Rdiv. rewrite Rmult_assoc.
  rewrite <- (Rmult_1_r (exp_term a i)) at 2.
  apply Rmult_le_compat_l; [exact Hi | ].
  apply Rle_trans with (1 * / INR (S i)).
  - apply Rmult_le_compat_r; [ | exact Ha1].
    left. apply Rinv_0_lt_compat. lra.
  - rewrite Rmult_1_l, <- Rinv_1. apply Rinv_le_contravar; lra.
Qed.

Lemma exp_neg_series_bounds (a : R) (N : nat) :
  0 <= a <= 1 ->
  sum_f_R0 (tg_alt (exp_term a)) (S (2 * N)) <= exp (- a)
  <= sum_f_R0 (tg_alt (exp_term a)) (2 * N).
Proof.
  intro Ha. apply alternated_series_ineq.
  - now apply exp_term_decreasing.
  - intros eps Heps. destruct (cv_speed_pow_fact a eps Heps) as [n0 Hn0].
    exists n0. intros n Hn. rewrite exp_term_pow_fact. now apply Hn0.
  - unfold exp. destruct (exist_exp (- a)) as [l Hl]. simpl.
    intros eps Heps. destruct (Hl eps Heps) as [n0 Hn0].
    exists n0. intros n Hn.
    replace (sum_f_R0 (tg_alt (exp_term a)) n)
      with (sum_f_R0 (fun i => / INR (fact i) * (- a) ^ i) n);
      [now apply Hn0 | ].
    apply sum_eq. intros i _. unfold tg_alt.
    rewrite exp_term_pow_fact.
    replace (- a) with (-1 * a) by lra. rewrite Rpow_mult_distr.
    unfold Rdiv. ring.
Qed.

Lemma ln_lower (a y : R) : 0 < y -> / y <= exp (- a) -> a <= ln y.
Proof.
  intros Hy Hexp.
  rewrite <- (ln_exp a).
  assert (Hpos : 0 < exp a) by apply exp_pos.
  destruct (Rle_lt_dec (exp a) y) as [Hle | Hgt].
  - destruct Hle as [Hlt | Heq]; [left; now apply ln_increasing | right; now rewrite Heq].
  - exfalso. rewrite exp_Ropp in Hexp.
    assert (/ exp a < / y) by (apply Rinv_lt_contravar; [now apply Rmult_lt_0_compat | exact Hgt]).
    lra.
Qed.

Lemma ln_upper (a y : R) : 0 < y -> exp (- a) <= / y -> ln y <= a.
Proof.
  intros Hy Hexp.
  rewrite <- (ln_exp a).
  assert (Hpos : 0 < exp a) by apply exp_pos.
  destruct (Rle_lt_dec y (exp a)) as [Hle | Hgt].
  - destruct Hle as [Hlt | Heq]; [left; now apply ln_increasing | right; now rewrite Heq].
  - exfalso. rewrite exp_Ropp in Hexp.
    assert (/ y < / exp a) by (apply Rinv_lt_contravar; [now apply Rmult_lt_0_compat | exact Hgt]).
    lra.
Qed.

Lemma ln_2_bounds : 0.69314718 <= ln 2 <= 0.69314719.
Proof.
  split.
  - apply ln_lower; [lra | ].
    eapply Rle_trans; [ | apply (exp_neg_series_bounds 0.69314718 6); lra].
    unfold tg_alt. cbn [sum_f_R0 Nat.mul Nat.add exp_term pow INR]. 
    lra.
  - apply ln_upper; [lra | ].
    eapply Rle_trans; [apply (exp_neg_series_bounds 0.69314719 6); lra | ].
    unfold tg_alt. cbn [sum_f_R0 Nat.mul Nat.add exp_term pow INR]. 
    lra.
Qed.

Lemma ln_5_4_bounds : 0.22314355 <= ln (5 / 4) <= 0.22314356.
Proof.
  split.
  - apply ln_lower; [lra | ].
    eapply Rle_trans; [ | apply (exp_neg_series_bounds 0.22314355 4); lra].
    unfold tg_alt. cbn [sum_f_R0 Nat.mul Nat.add exp_term pow INR].
    lra.
  - apply ln_upper; [lra | ].
    eapply Rle_trans; [apply (exp_neg_series_bounds 0.22314356 4); lra | ].
    unfold tg_alt. cbn [sum_f_R0 Nat.mul Nat.add exp_term pow INR].
    lra.
Qed.

Lemma ln_10_bounds : 2.30258509 <= ln 10 <= 2.30258513.
Proof.
  replace 10 with (2 * (2 * (2 * (5 / 4)))) by lra.
  rewrite !ln_mult by lra.
  pose proof ln_2_bounds. pose proof ln_5_4_bounds. lra.
Qed.

Lemma sqrt_bounds (lo hi v : R) :
  0 <= lo -> lo * lo <= v -> v < hi * hi -> 0 <= hi -> lo <= sqrt v < hi.
Proof.
  intros Hlo Hl Hh Hhi. split.
  - rewrite <- (sqrt_square lo Hlo). apply sqrt_le_1_alt, Hl.
  - rewrite <- (sqrt_square hi Hhi). apply sqrt_lt_1_alt. split; [nra | exact Hh].
Qed.

Lemma fwhm_constant : 2.3548200 <= 2 * sqrt (2 * ln 2) < 2.3548201.
Proof.
  pose proof ln_2_bounds as [Hl Hu].
  destruct (sqrt_bounds 1.17741 1.17741005 (2 * ln 2)) as [H1 H2]; lra.
Qed.

Lemma fwtm_constant : 4.2919320 <= 2 * sqrt (2 * ln 10) < 4.2919321.
Proof.
  pose proof ln_10_bounds as [Hl Hu].
  destruct (sqrt_bounds 2.145966 2.14596605 (2 * ln 10)) as [H1 H2]; lra.
Qed.

End LogBounds.

(* ================================================================= *)
(** * The binary64 instance *)

Section Binary64Facts.
Import numpy.
Local Open Scope float_scope.

Lemma SFcompare_Lt_flip (x y : SpecFloat.spec_float) :
  SpecFloat.SFcompare x y = Some Lt -> SpecFloat.SFcompare y x = Some Gt.
Proof.
  destruct x as [sx | sx | | sx mx ex], y as [sy | sy | | sy my ey];
    simpl; try discriminate;
    try (destruct sx; discriminate || reflexivity);
    try (destruct sy; discriminate || reflexivity);
    try (destruct sx, sy; discriminate || reflexivity).
  assert (Hp : Pos.compare_cont Eq my mx = CompOpp (Pos.compare_cont Eq mx my))
    by (rewrite Pos.compare_cont_antisym; reflexivity).
  rewrite (Z.compare_antisym ex ey), Hp.
  destruct sx, sy; try discriminate; try reflexivity;
    destruct (ex ?= ey)%Z; simpl; try discriminate; try reflexivity;
    destruct (Pos.compare_cont Eq mx my); simpl;
    discriminate || reflexivity.
Qed.

(** A value strictly below [b] is not at or above [b]. *)
Lemma ltb_not_geb (a b : float) : (a <? b) = true -> (b <=? a) = false.
Proof.
  rewrite FloatAxioms.ltb_spec, FloatAxioms.leb_spec.
  unfold SpecFloat.SFltb, SpecFloat.SFleb.
  destruct (SpecFloat.SFcompare (Prim2SF a) (Prim2SF b)) as [[| |] |] eqn:Hc;
    try discriminate.
  intros _. now rewrite (SFcompare_Lt_flip _ _ Hc).
Qed.

(** Expose the IEEE-754 case analysis behind the operation in the goal. *)
Ltac float_cases :=
  match goal with
  | |- context [PrimFloat.add ?a ?b] =>
      rewrite <- (FloatAxioms.SF2Prim_Prim2SF (a + b)), FloatAxioms.add_spec
  | |- context [PrimFloat.sub ?a ?b] =>
      rewrite <- (FloatAxioms.SF2Prim_Prim2SF (a - b)), FloatAxioms.sub_spec
  | |- context [PrimFloat.mul ?a ?b] =>
      rewrite <- (FloatAxioms.SF2Prim_Prim2SF (a * b)), FloatAxioms.mul_spec
  | |- context [PrimFloat.div ?a ?b] =>
      rewrite <- (FloatAxioms.SF2Prim_Prim2SF (a / b)), FloatAxioms.div_spec
  end.

(** The same, with one operand a zero, an infinity or NaN and the other
    operand [v] split into its IEEE-754 classes. *)
Ltac special_cases v :=
  float_cases;
  change (Prim2SF 0) with (SpecFloat.S754_zero false);
  change (Prim2SF (-0)) with (SpecFloat.S754_zero true);
  change (Prim2SF infinity) with (SpecFloat.S754_infinity false);
  change (Prim2SF neg_infinity) with (SpecFloat.S754_infinity true);
  change (Prim2SF nan) with SpecFloat.S754_nan;
  destruct (Prim2SF v) as [[|] | [|] | | [|] ? ?]; simpl; auto.

Lemma zeroish_add (a b : float) : zeroish a -> zeroish b -> zeroish (a + b).
Proof. intros [-> | ->] [-> | ->]; vm_compute; auto. Qed.

Lemma zeroish_sub (a b : float) : zeroish a -> zeroish b -> zeroish (a - b).
Proof. intros [-> | ->] [-> | ->]; vm_compute; auto. Qed.

Lemma zeroish_sub_nan (a : float) : zeroish a -> a - nan = nan.
Proof. intros [-> | ->]; reflexivity. Qed.

Lemma zeroish_div_zeroish (a b : float) : zeroish a -> zeroish b -> a / b = nan.
Proof. intros [-> | ->] [-> | ->]; reflexivity. Qed.

Lemma zeroish_maximum (a b : float) :
  zeroish a -> zeroish b -> maximum a b = a.
Proof. intros [-> | ->] [-> | ->]; reflexivity. Qed.

(** A zero divided by anything is a zero or NaN. *)
Lemma zeroish_div (s y : float) :
  zeroish s -> zeroish (s / y) \/ s / y = nan.
Proof. unfold zeroish. intros [-> | ->]; special_cases y. Qed.

(** [t - t] is [+0] for a finite [t] and NaN otherwise. *)
Lemma sub_self (t : float) : t - t = 0 \/ t - t = nan.
Proof.
  float_cases.
  destruct (Prim2SF t) as [[|] | [|] | | s m e]; simpl; auto.
  rewrite Z.sub_diag. simpl. auto.
Qed.

Lemma mul_zeroish_l (z y : float) :
  zeroish z \/ z = nan -> zeroish (z * y) \/ z * y = nan.
Proof. unfold zeroish. intros [[-> | ->] | ->]; special_cases y. Qed.

Lemma mul_zeroish_r (y z : float) :
  zeroish z \/ z = nan -> zeroish (y * z) \/ y * z = nan.
Proof. unfold zeroish. intros [[-> | ->] | ->]; special_cases y. Qed.

(** Dividing by a zero or by NaN never gives a finite value. *)
Lemma div_by_zeroish (x d : float) :
  zeroish d \/ d = nan -> nonfinite (x / d).
Proof.
  unfold zeroish, nonfinite. intros [[-> | ->] | ->]; special_cases x.
Qed.

(** Sums and differences with an infinity or NaN are not finite. *)
Lemma nonfinite_add_l (a b : float) : nonfinite a -> nonfinite (a + b).
Proof. unfold nonfinite. intros [-> | [-> | ->]]; special_cases b. Qed.

Lemma nonfinite_add_r (a b : float) : nonfinite b -> nonfinite (a + b).
Proof. unfold nonfinite. intros [-> | [-> | ->]]; special_cases a. Qed.

Lemma nonfinite_sub_l (a b : float) : nonfinite a -> nonfinite (a - b).
Proof. unfold nonfinite. intros [-> | [-> | ->]]; special_cases b. Qed.

Lemma nonfinite_sub_r (a b : float) : nonfinite b -> nonfinite (a - b).
Proof. unfold nonfinite. intros [-> | [-> | ->]]; special_cases a. Qed.

Lemma fold_add_zeroish (l : list float) (acc : float) :
  zeroish acc -> Forall zeroish l -> zeroish (fold_left PrimFloat.add l acc).
Proof.
  intros Hacc Hl; revert acc Hacc.
  induction Hl as [| v l Hv _ IH]; intros acc Hacc; simpl; [exact Hacc | ].
  apply IH. now apply zeroish_add.
Qed.

Lemma sum_zeroish (l : list float) : Forall zeroish l -> zeroish (sum l).
Proof. intro Hl. unfold sum. apply fold_add_zeroish; [now left | exact Hl]. Qed.

Lemma fold_maximum_zeroish (l : list float) (acc : float) :
  zeroish acc -> Forall zeroish l -> fold_left maximum l acc = acc.
Proof.
  intros Hacc Hl; revert acc Hacc.
  induction Hl as [| v l Hv _ IH]; intros acc Hacc; simpl; [reflexivity | ].
  rewrite zeroish_maximum by assumption. now apply IH.
Qed.

Lemma map_constant {A B} (f : A -> B) (c : B) (l : list A) :
  Forall (fun v => f v = c) l -> map f l = repeat c (length l).
Proof.
  induction 1 as [| v l Hv _ IH]; simpl; [reflexivity | ].
  now rewrite Hv, IH.
Qed.

Lemma max_repeat_nan (k : nat) : max (repeat nan (S k)) = Ok nan.
Proof.
  cbn [repeat max]. f_equal.
  induction k as [| k IH]; simpl; [reflexivity | exact IH].
Qed.

(** Normalising a profile of zeros gives NaN at every sample. *)
Lemma normalise_zeroish (windowed : list float) :
  windowed <> [] -> Forall zeroish windowed ->
  fit_frb.normalise windowed = Ok (repeat nan (length windowed)).
Proof.
  intros Hne Hz. unfold fit_frb.normalise, mean.
  set (mu := fdiv (sum windowed) _).
  assert (Hmu : zeroish mu \/ mu = nan) by (apply zeroish_div, sum_zeroish, Hz).
  destruct Hmu as [Hmu | Hmu].
  - set (shifted := map (fun v => fsub v mu) windowed).
    assert (Hs : Forall zeroish shifted).
    { unfold shifted. apply Forall_map.
      eapply Forall_impl; [ | exact Hz]. intros v Hv. now apply zeroish_sub. }
    assert (Hlen : length shifted = length windowed)
      by (unfold shifted; apply length_map).
    destruct shifted as [| p rest] eqn:Hsh.
    + destruct windowed; [contradiction | discriminate].
    + unfold max. inversion Hs as [| ? ? Hp Hrest]; subst.
      rewrite (fold_maximum_zeroish rest p Hp Hrest). cbn [obind].
      rewrite <- Hlen. f_equal. apply map_constant.
      eapply Forall_impl; [ | exact Hs]. intros v Hv.
      now apply zeroish_div_zeroish.
  - rewrite Hmu.
    rewrite (map_constant (fun v => fsub v nan) nan windowed)
      by (eapply Forall_impl; [ | exact Hz]; intros v Hv;
          now apply zeroish_sub_nan).
    destruct windowed as [| v rest]; [contradiction | ].
    cbn [length]. rewrite max_repeat_nan. cbn [obind].
    f_equal. rewrite (map_constant _ nan); [now rewrite repeat_length | ].
    apply Forall_forall. intros u Hu. apply repeat_spec in Hu. now subst u.
Qed.

Lemma map_repeat {A B} (f : A -> B) (v : A) (k : nat) :
  map f (repeat v k) = repeat (f v) k.
Proof. induction k as [| k IH]; simpl; [reflexivity | now rewrite IH]. Qed.

Lemma SFcompare_refl (x : SpecFloat.spec_float) :
  x <> SpecFloat.S754_nan -> SpecFloat.SFcompare x x = Some Eq.
Proof.
  destruct x as [[|] | [|] | | [|] m e]; simpl; intro Hx;
    try reflexivity; try (now elim Hx);
    rewrite Z.compare_refl;
    change (Pos.compare_cont Eq m m) with (Pos.compare m m);
    now rewrite Pos.compare_refl.
Qed.

Lemma is_nan_true (a : float) : is_nan a = true -> a = nan.
Proof.
  unfold is_nan. rewrite FloatAxioms.eqb_spec. unfold SpecFloat.SFeqb.
  intro Hn. rewrite <- (FloatAxioms.SF2Prim_Prim2SF a).
  destruct (Prim2SF a) eqn:Ha; try reflexivity;
    rewrite SFcompare_refl in Hn by discriminate; discriminate.
Qed.

Lemma leb_nan_l (a : float) : (nan <=? a) = false.
Proof.
  rewrite FloatAxioms.leb_spec.
  change (Prim2SF nan) with SpecFloat.S754_nan. reflexivity.
Qed.

Lemma leb_nan_r (a : float) : (a <=? nan) = false.
Proof.
  rewrite FloatAxioms.leb_spec.
  change (Prim2SF nan) with SpecFloat.S754_nan.
  unfold SpecFloat.SFleb. now destruct (Prim2SF a).
Qed.

Lemma maximum_nan_l (b : float) : maximum nan b = nan.
Proof. unfold maximum. cbn. now rewrite orb_true_r. Qed.

Lemma maximum_nan_r (a : float) : maximum a nan = nan.
Proof.
  unfold maximum. change (fle nan a) with (nan <=? a). rewrite leb_nan_l.
  cbn [orb]. change (fisnan a) with (is_nan a).
  destruct (is_nan a) eqn:Ha; [now apply is_nan_true | reflexivity].
Qed.

Lemma fold_maximum_nan (l : list float) : fold_left maximum l nan = nan.
Proof.
  induction l as [| v l IH]; simpl; [reflexivity | ].
  now rewrite maximum_nan_l.
Qed.

Lemma fold_maximum_In_nan (l : list float) (acc : float) :
  In nan l -> fold_left maximum l acc = nan.
Proof.
  revert acc; induction l as [| v l IH]; intros acc Hin; [contradiction | ].
  destruct Hin as [-> | Hin]; simpl.
  - rewrite maximum_nan_r. apply fold_maximum_nan.
  - now apply IH.
Qed.

(** The maximum of a sample that holds a NaN is NaN. *)
Lemma max_In_nan (l : list float) : In nan l -> max l = Ok nan.
Proof.
  destruct l as [| v l]; [contradiction | ].
  intros [-> | Hin]; unfold max; f_equal.
  - apply fold_maximum_nan.
  - now apply fold_maximum_In_nan.
Qed.

Lemma nan_div (d : float) : nan / d = nan.
Proof.
  rewrite <- (FloatAxioms.SF2Prim_Prim2SF (nan / d)), FloatAxioms.div_spec.
  change (Prim2SF nan) with SpecFloat.S754_nan. reflexivity.
Qed.

(** A profile that holds a NaN has a NaN signal-to-noise ratio. *)
Lemma profile_snr_nan (fit_range profile : list float) (snr : float) :
  In nan profile ->
  fit_frb.profile_snr fit_range profile = Ok snr -> snr = nan.
Proof.
  intros Hin. unfold fit_frb.profile_snr.
  destruct (fit_frb.baseline_std fit_range profile) as [std | ];
    [ | discriminate].
  cbn [obind]. rewrite (max_In_nan _ Hin). cbn [obind].
  intro Heq. injection Heq as <-. apply nan_div.
Qed.

Lemma quantile_nans (j qn qd : nat) :
  quantile (F := float) (repeat nan (S j)) qn qd = Ok nan.
Proof. reflexivity. Qed.

Lemma count_true_pos {A} (p : A -> bool) (l : list A) :
  existsb p l = true -> exists j, length (filter (fun b => b) (map p l)) = S j.
Proof.
  induction l as [| v l IH]; simpl; [discriminate | ].
  destruct (p v); simpl.
  - intros _. now eexists.
  - exact IH.
Qed.

End Binary64Facts.

Section MaskFacts.
Import numpy.

Lemma compress_length {A} (mask : list bool) (l : list A) :
  length mask = length l ->
  length (compress mask l) = length (filter (fun b => b) mask).
Proof.
  revert l; induction mask as [| b mask IH]; intros [| v l] Hlen; simpl in *;
    try reflexivity; try discriminate.
  destruct b; simpl; now rewrite IH by lia.
Qed.

Lemma existsb_filter {A} (p q : A -> bool) (l : list A) :
  existsb (fun t => p t && q t) l = true ->
  existsb p l = true /\ existsb q (filter p l) = true.
Proof.
  induction l as [| v l IH]; simpl; [discriminate | ].
  destruct (p v) eqn:Hp; simpl.
  - destruct (q v); simpl; [now split | ].
    intro Hex. split; [reflexivity | now apply IH].
  - intro Hex. now apply IH.
Qed.

End MaskFacts.

(* ================================================================= *)
(** * The fitting loop *)

Section PipelineFacts.
Context {F : Type} `{Arith F} `{Elementary F}.
Import numpy fit_frb.

Variable lmfit_fit :
  model_function (F := F) -> list F -> list F ->
  list (LmfitParameter (F := F)) -> string -> option EmceeKws ->
  outcome (ModelResult (F := F)).
Variable get_dm_smearing : F -> F -> F -> F.

Lemma mbind_Ok_inv {A B} (m : M (F := F) A) (f : A -> M (F := F) B) (t : list event) (b : B) :
  mbind m f = (t, Ok b) ->
  exists t1 a t2, m = (t1, Ok a) /\ f a = (t2, Ok b) /\ t = t1 ++ t2.
Proof.
  destruct m as [t1 [a | e]]; simpl; [ | discriminate].
  destruct (f a) as [t2 r] eqn:Hf. intro Heq. injection Heq as <- ->.
  now exists t1, a, t2.
Qed.

Lemma mbind_lift_Ok {A B} (a : A) (f : A -> M (F := F) B) :
  mbind (lift (Ok a)) f = f a.
Proof. unfold mbind, lift. destruct (f a). reflexivity. Qed.

Lemma for_each_app {A S} (l1 l2 : list A) (body : S -> A -> M (F := F) S)
    (s : S) :
  for_each (l1 ++ l2) body s =
  mbind (for_each l1 body s) (for_each l2 body).
Proof.
  revert s; induction l1 as [| v l1 IH]; intro s; cbn [app for_each].
  - unfold mret. cbn [mbind]. now destruct (for_each l2 body s).
  - destruct (body s v) as [t [s' | e]]; cbn [mbind]; [ | reflexivity].
    rewrite IH.
    destruct (for_each l1 body s') as [t1 [s1 | e1]]; cbn [mbind].
    + destruct (for_each l2 body s1) as [t2 r2]. now rewrite app_assoc.
    + reflexivity.
Qed.

(** An exception in one iteration ends the loop. *)
Lemma for_each_raise {A S} (l1 l2 : list A) (v : A)
    (body : S -> A -> M (F := F) S)
    (s s1 : S) (t1 t2 : list event) (e : exn) :
  for_each l1 body s = (t1, Ok s1) ->
  body s1 v = (t2, Raise e) ->
  for_each (l1 ++ v :: l2) body s = (t1 ++ t2, Raise e).
Proof.
  intros H1 H2. rewrite for_each_app, H1. cbn [mbind for_each].
  rewrite H2. reflexivity.
Qed.

(** The least-squares stage of [fit_profile_model] when the fit does not
    converge. *)
Lemma fit_profile_model_not_converged
    (fit_range profile : list F) (dm_smear : F) (r : ModelResult) :
  lmfit_fit pulsemodels.gaussian_scattered_dfb_instrumental profile fit_range
            (make_fitparams dm_smear) "leastsq" None = Ok r ->
  success r = false ->
  fit_profile_model lmfit_fit fit_range profile dm_smear =
  ([FitCall "leastsq" profile fit_range (make_fitparams dm_smear)],
   Raise (RuntimeError "Fit did not converge.")).
Proof.
  intros Hfit Hfail. unfold fit_profile_model. rewrite Hfit.
  cbn. rewrite Hfail. reflexivity.
Qed.

(** The loop body up to the signal-to-noise gate. *)
Lemma loop_body_gate
    (cand : Candidate) (plot_range : list F) (fscrunch_factor : Z)
    (freqs : list F) (chan_bw : F) (df : list SubBandRecord) (iband : nat)
    (sub_profile fit_range windowed profile : list F) (snr : F) :
  nth_error (dedispersed_T cand) iband = Some sub_profile ->
  window plot_range sub_profile = Ok (fit_range, windowed) ->
  normalise windowed = Ok profile ->
  profile_snr fit_range profile = Ok snr ->
  loop_body lmfit_fit get_dm_smearing cand plot_range fscrunch_factor freqs
            chan_bw df iband =
  if negb (fle (lit 3.7) snr) then mret df
  else
    mbind (lift (getitem freqs 0)) (fun f0 =>
    let cfreq := sub_band_cfreq f0 iband fscrunch_factor chan_bw in
    let dm_smear := sub_band_smearing get_dm_smearing cand cfreq chan_bw in
    mbind (fit_profile_model lmfit_fit fit_range profile dm_smear)
      (fun fitresult =>
    mbind (lift (profile_statistics fit_range fitresult))
      (fun '(fluxsum, weq) =>
    mret (df ++ [sub_band_row iband cfreq fitresult fluxsum weq])))).
Proof.
  intros Hband Hwin Hnorm Hsnr. unfold loop_body, getitem at 1.
  rewrite Hband, mbind_lift_Ok, Hwin, mbind_lift_Ok, Hnorm, mbind_lift_Ok,
          Hsnr, mbind_lift_Ok.
  reflexivity.
Qed.

Lemma loop_body_skip
    (cand : Candidate) (plot_range : list F) (fscrunch_factor : Z)
    (freqs : list F) (chan_bw : F) (df : list SubBandRecord) (iband : nat)
    (sub_profile fit_range windowed profile : list F) (snr : F) :
  nth_error (dedispersed_T cand) iband = Some sub_profile ->
  window plot_range sub_profile = Ok (fit_range, windowed) ->
  normalise windowed = Ok profile ->
  profile_snr fit_range profile = Ok snr ->
  fle (lit 3.7) snr = false ->
  loop_body lmfit_fit get_dm_smearing cand plot_range fscrunch_factor freqs
            chan_bw df iband = ([], Ok df).
Proof.
  intros Hband Hwin Hnorm Hsnr Hlow.
  rewrite (loop_body_gate _ _ _ _ _ _ _ _ _ _ _ _ Hband Hwin Hnorm Hsnr).
  now rewrite Hlow.
Qed.

Lemma loop_body_fit
    (cand : Candidate) (plot_range : list F) (fscrunch_factor : Z)
    (freqs : list F) (chan_bw : F) (df : list SubBandRecord) (iband : nat)
    (sub_profile fit_range windowed profile : list F) (snr f0 : F)
    (trace : list event) (fitresult : ModelResult) (fluxsum weq : F) :
  nth_error (dedispersed_T cand) iband = Some sub_profile ->
  window plot_range sub_profile = Ok (fit_range, windowed) ->
  normalise windowed = Ok profile ->
  profile_snr fit_range profile = Ok snr ->
  fle (lit 3.7) snr = true ->
  nth_error freqs 0 = Some f0 ->
  let cfreq := sub_band_cfreq f0 iband fscrunch_factor chan_bw in
  fit_profile_model lmfit_fit fit_range profile
    (sub_band_smearing get_dm_smearing cand cfreq chan_bw)
  = (trace, Ok fitresult) ->
  profile_statistics fit_range fitresult = Ok (fluxsum, weq) ->
  loop_body lmfit_fit get_dm_smearing cand plot_range fscrunch_factor freqs
            chan_bw df iband =
  (trace, Ok (df ++ [sub_band_row iband cfreq fitresult fluxsum weq])).
Proof.
  intros Hband Hwin Hnorm Hsnr Hhigh Hf0 cfreq Hfit Hstat.
  rewrite (loop_body_gate _ _ _ _ _ _ _ _ _ _ _ _ Hband Hwin Hnorm Hsnr).
  rewrite Hhigh. cbn [negb]. unfold getitem. rewrite Hf0, mbind_lift_Ok.
  cbv zeta. fold cfreq. rewrite Hfit. cbn [mbind].
  rewrite Hstat. cbn. now rewrite app_nil_r.
Qed.

Lemma loop_body_not_converged
    (cand : Candidate) (plot_range : list F) (fscrunch_factor : Z)
    (freqs : list F) (chan_bw : F) (df : list SubBandRecord) (iband : nat)
    (sub_profile fit_range windowed profile : list F) (snr f0 : F)
    (r : ModelResult) :
  nth_error (dedispersed_T cand) iband = Some sub_profile ->
  window plot_range sub_profile = Ok (fit_range, windowed) ->
  normalise windowed = Ok profile ->
  profile_snr fit_range profile = Ok snr ->
  fle (lit 3.7) snr = true ->
  nth_error freqs 0 = Some f0 ->
  let cfreq := sub_band_cfreq f0 iband fscrunch_factor chan_bw in
  let fitparams :=
    make_fitparams (sub_band_smearing get_dm_smearing cand cfreq chan_bw) in
  lmfit_fit pulsemodels.gaussian_scattered_dfb_instrumental profile fit_range
            fitparams "leastsq" None = Ok r ->
  success r = false ->
  loop_body lmfit_fit get_dm_smearing cand plot_range fscrunch_factor freqs
            chan_bw df iband =
  ([FitCall "leastsq" profile fit_range fitparams],
   Raise (RuntimeError "Fit did not converge.")).
Proof.
  intros Hband Hwin Hnorm Hsnr Hhigh Hf0 cfreq fitparams Hfit Hfail.
  rewrite (loop_body_gate _ _ _ _ _ _ _ _ _ _ _ _ Hband Hwin Hnorm Hsnr).
  rewrite Hhigh. cbn [negb]. unfold getitem. rewrite Hf0, mbind_lift_Ok.
  cbv zeta. fold cfreq.
  rewrite (fit_profile_model_not_converged _ _ _ r Hfit Hfail).
  reflexivity.
Qed.

Lemma window_lengths (plot_range sub_profile fit_range windowed : list F) :
  window plot_range sub_profile = Ok (fit_range, windowed) ->
  length fit_range = length windowed.
Proof.
  unfold window, getitem_mask.
  destruct (Nat.eqb _ _) eqn:Hlen; [ | discriminate].
  apply Nat.eqb_eq in Hlen. cbn [obind]. intro Heq. injection Heq as <- <-.
  rewrite !compress_length; try reflexivity; try exact Hlen.
  now rewrite length_map.
Qed.

Lemma profile_snr_formula (fit_range profile : list F) (snr : F) :
  profile_snr fit_range profile = Ok snr ->
  let off_pulse :=
    compress (map (fun t => flt (lit 20.0) (fabs t)) fit_range) profile in
  exists q25 q75 peak,
    quantile off_pulse 1 4 = Ok q25 /\
    quantile off_pulse 3 4 = Ok q75 /\
    max profile = Ok peak /\
    snr = fdiv peak (fmul (lit 0.7413) (fabs (fsub q75 q25))).
Proof.
  intros Hsnr off_pulse.
  unfold profile_snr, baseline_std, getitem_mask in Hsnr.
  destruct (Nat.eqb _ _); [ | discriminate]. cbn [obind] in Hsnr.
  fold off_pulse in Hsnr.
  destruct (quantile off_pulse 1 4) as [q25 | ]; [ | discriminate].
  cbn [obind] in Hsnr.
  destruct (quantile off_pulse 3 4) as [q75 | ]; [ | discriminate].
  cbn [obind] in Hsnr.
  destruct (max profile) as [peak | ]; [ | discriminate].
  cbn [obind] in Hsnr. injection Hsnr as <-.
  now exists q25, q75, peak.
Qed.

(** The table returned by [fit_profile] is the loop's table with the width
    columns added. *)
Lemma fit_profile_Ok_inv (cand : Candidate) (plot_range : list F)
    (fscrunch_factor : Z) (trace : list event) (table : list ResultRow) :
  fit_profile lmfit_fit get_dm_smearing cand plot_range fscrunch_factor
  = (trace, Ok table) ->
  exists df, table = map add_widths df.
Proof.
  unfold fit_profile. intro Hrun.
  apply mbind_Ok_inv in Hrun. destruct Hrun as (t1 & f1 & t2 & _ & Hrun & _).
  apply mbind_Ok_inv in Hrun. destruct Hrun as (t3 & f0 & t4 & _ & Hrun & _).
  apply mbind_Ok_inv in Hrun. destruct Hrun as (t5 & df & t6 & _ & Hrun & _).
  exists df. unfold mret in Hrun. now inversion Hrun.
Qed.

End PipelineFacts.

Section GateTheorems.
Import numpy fit_frb.
Local Open Scope float_scope.

Variable E : Elementary float.
Variable lmfit_fit :
  model_function (F := float) -> list float -> list float ->
  list (LmfitParameter (F := float)) -> string -> option EmceeKws ->
  outcome (ModelResult (F := float)).
Variable get_dm_smearing : float -> float -> float -> float.

Lemma lit_3_7 : lit (F := float) 3.7 = 3.7.
Proof. vm_compute. reflexivity. Qed.

Lemma lit_20 : lit (F := float) 20.0 = 20.
Proof. vm_compute. reflexivity. Qed.

Lemma lit_200 : lit (F := float) 200.0 = 200.
Proof. vm_compute. reflexivity. Qed.

Lemma lit_0_7413 : lit (F := float) 0.7413 = 0.7413.
Proof. vm_compute. reflexivity. Qed.

(** C3.  For a sub-band whose windowed, normalised profile has the
    signal-to-noise ratio [snr]: [snr] is the profile maximum over
    0.7413*|Q75 - Q25| of the samples with |t| > 20 ms; when [snr < 3.7] the
    iteration appends no row, calls no fitter and raises nothing; when
    [snr >= 3.7] the iteration runs the fit and, when the fit and the
    statistics of its best-fit curve succeed, appends exactly one row. *)
Theorem snr_gate
    (cand : Candidate) (plot_range : list float) (fscrunch_factor : Z)
    (freqs : list float) (chan_bw : float) (df : list SubBandRecord)
    (iband : nat)
    (sub_profile fit_range windowed profile : list float) (snr : float) :
  nth_error (dedispersed_T cand) iband = Some sub_profile ->
  window plot_range sub_profile = Ok (fit_range, windowed) ->
  normalise windowed = Ok profile ->
  profile_snr fit_range profile = Ok snr ->
  let off_pulse := compress (map (fun t => 20 <? abs t) fit_range) profile in
  (exists q25 q75 peak,
      quantile off_pulse 1 4 = Ok q25 /\
      quantile off_pulse 3 4 = Ok q75 /\
      max profile = Ok peak /\
      snr = peak / (0.7413 * abs (q75 - q25))) /\
  ((snr <? 3.7) = true ->
   loop_body lmfit_fit get_dm_smearing cand plot_range fscrunch_factor freqs
             chan_bw df iband = ([], Ok df)) /\
  ((3.7 <=? snr) = true ->
   forall (f0 : float) (trace : list event) (fitresult : ModelResult)
          (fluxsum weq : float),
     nth_error freqs 0 = Some f0 ->
     let cfreq := sub_band_cfreq f0 iband fscrunch_factor chan_bw in
     fit_profile_model lmfit_fit fit_range profile
       (sub_band_smearing get_dm_smearing cand cfreq chan_bw)
     = (trace, Ok fitresult) ->
     profile_statistics fit_range fitresult = Ok (fluxsum, weq) ->
     loop_body lmfit_fit get_dm_smearing cand plot_range fscrunch_factor freqs
               chan_bw df iband =
     (trace, Ok (df ++ [sub_band_row iband cfreq fitresult fluxsum weq]))).
Proof.
  intros Hband Hwin Hnorm Hsnr off_pulse. split; [ | split].
  - pose proof (profile_snr_formula (F := float) fit_range profile snr Hsnr)
      as Hf.
    cbv zeta in Hf. rewrite lit_20, lit_0_7413 in Hf. exact Hf.
  - intro Hlow. apply ltb_not_geb in Hlow.
    eapply loop_body_skip; eauto; now rewrite lit_3_7.
  - intros Hhigh f0 trace fitresult fluxsum weq Hf0 cfreq Hfit Hstat.
    eapply loop_body_fit; eauto; now rewrite lit_3_7.
Qed.

(** C10.  A sub-band whose windowed profile is zero at every sample, on a
    window with at least one sample outside +-20 ms: normalisation (0/0)
    turns the profile into NaN at every sample, the signal-to-noise ratio is
    NaN, the test [snr >= 3.7] fails, and the iteration appends no row,
    calls no fitter and raises nothing.  More generally, whenever the
    normalised profile holds a NaN, the signal-to-noise ratio is NaN and the
    sub-band is skipped in the same way. *)
Theorem nan_band_is_skipped
    (cand : Candidate) (plot_range : list float) (fscrunch_factor : Z)
    (freqs : list float) (chan_bw : float) (df : list SubBandRecord)
    (iband : nat) (sub_profile fit_range windowed : list float) :
  nth_error (dedispersed_T cand) iband = Some sub_profile ->
  window plot_range sub_profile = Ok (fit_range, windowed) ->
  (Forall zeroish windowed ->
   existsb (fun t => 20 <? abs t) fit_range = true ->
   let profile := repeat nan (length windowed) in
   normalise windowed = Ok profile /\
   profile_snr fit_range profile = Ok nan /\
   (3.7 <=? nan) = false /\
   loop_body lmfit_fit get_dm_smearing cand plot_range fscrunch_factor freqs
             chan_bw df iband = ([], Ok df)) /\
  (forall (profile : list float) (snr : float),
      normalise windowed = Ok profile ->
      In nan profile ->
      profile_snr fit_range profile = Ok snr ->
      snr = nan /\
      (3.7 <=? snr) = false /\
      loop_body lmfit_fit get_dm_smearing cand plot_range fscrunch_factor
                freqs chan_bw df iband = ([], Ok df)).
Proof.
  intros Hband Hwin. split.
  - intros Hzero Hoff profile.
    pose proof (window_lengths _ _ _ _ Hwin) as Hlen.
    set (off := fun t : float => 20 <? abs t) in *.
    destruct (count_true_pos off fit_range Hoff) as [j Hj].
    assert (Hne : windowed <> []).
    { intros ->. destruct fit_range; [discriminate Hoff | discriminate Hlen]. }
    assert (Hnorm : normalise windowed = Ok profile)
      by now apply normalise_zeroish.
    assert (Hsnr : profile_snr fit_range profile = Ok nan).
    { unfold profile_snr, baseline_std, getitem_mask, profile. rewrite lit_20.
      change (map (fun t : float => flt 20 (fabs t)) fit_range)
        with (map off fit_range).
      rewrite length_map, repeat_length, Hlen, Nat.eqb_refl. cbn [obind].
      rewrite compress_repeat by (now rewrite length_map).
      rewrite Hj, !quantile_nans. cbn [obind].
      destruct (length windowed) as [| k] eqn:Hk;
        [now destruct windowed | ].
      rewrite max_repeat_nan. reflexivity. }
    split; [exact Hnorm | ]. split; [exact Hsnr | ]. split; [reflexivity | ].
    eapply loop_body_skip; eauto.
  - intros profile snr Hnorm Hnan Hsnr.
    pose proof (profile_snr_nan _ _ _ Hnan Hsnr) as ->.
    split; [reflexivity | ]. split; [reflexivity | ].
    eapply loop_body_skip; eauto.
Qed.

End GateTheorems.

Section DegenerateTimescales.
Import numpy pulsemodels.
Local Open Scope float_scope.

(** With two equal timescales every sample of the analogue-instrumental
    model is an infinity or NaN in binary64. *)
Lemma gaussian_scattered_afb_instrumental_degenerate
    (E : Elementary float) (x : list float)
    (fluence center sigma taus taui taud dc : float) :
  taus = taui \/ taus = taud \/ taui = taud ->
  Forall nonfinite
    (gaussian_scattered_afb_instrumental x fluence center sigma taus taui taud
                                         dc).
Proof.
  intro Hdeg. rewrite gaussian_scattered_afb_instrumental_elementwise.
  cbv zeta. apply Forall_forall. intros v Hv.
  apply in_map_iff in Hv. destruct Hv as [i [<- _]].
  change fadd with PrimFloat.add. change fsub with PrimFloat.sub.
  change fmul with PrimFloat.mul. change fdiv with PrimFloat.div.
  destruct Hdeg as [-> | [-> | ->]].
  - apply nonfinite_add_l, nonfinite_sub_l, nonfinite_add_r, div_by_zeroish.
    apply mul_zeroish_l. destruct (sub_self taui) as [-> | ->]; [left; now left | now right].
  - apply nonfinite_add_l, nonfinite_sub_l, nonfinite_add_r, div_by_zeroish.
    apply mul_zeroish_r. destruct (sub_self taud) as [-> | ->]; [left; now left | now right].
  - apply nonfinite_add_l, nonfinite_sub_r, div_by_zeroish.
    apply mul_zeroish_r. destruct (sub_self taud) as [-> | ->]; [left; now left | now right].
Qed.

(** C5.  The analogue-instrumental model is, sample by sample,
    dc + A - B + C with
    A = taus^2*G(taus)/((taus-taui)*(taus-taud)),
    B = taui^2*G(taui)/((taus-taui)*(taui-taud)),
    C = taud^2*G(taud)/((taus-taud)*(taui-taud)),
    G(tau) being the analytic scattered Gaussian with that timescale and
    zero offset; this holds in every number system and for all timescales.
    No test guards the quotients: in binary64, when any two of taus, taui,
    taud are equal, the division by zero makes every sample of the result an
    infinity or NaN. *)
Theorem gaussian_scattered_afb_instrumental_terms :
  (forall (F : Type) (AF : Arith F) (EF : Elementary F)
          (x : list F) (fluence center sigma taus taui taud dc : F),
      let G := fun tau i =>
        nth i (scattered_gaussian_pulse x fluence center sigma tau (lit 0.0))
              (lit 0.0) in
      let A := fun i =>
        (taus ** of_int 2 * G taus i / ((taus - taui) * (taus - taud)))%np in
      let B := fun i =>
        (taui ** of_int 2 * G taui i / ((taus - taui) * (taui - taud)))%np in
      let C := fun i =>
        (taud ** of_int 2 * G taud i / ((taus - taud) * (taui - taud)))%np in
      gaussian_scattered_afb_instrumental x fluence center sigma taus taui
                                          taud dc
      = map (fun i => (dc + A i - B i + C i)%np) (seq 0 (length x))) /\
  (forall (E : Elementary float) (x : list float)
          (fluence center sigma taus taui taud dc : float),
      taus = taui \/ taus = taud \/ taui = taud ->
      Forall nonfinite
        (gaussian_scattered_afb_instrumental x fluence center sigma taus taui
                                             taud dc)).
Proof.
  split.
  - intros. apply gaussian_scattered_afb_instrumental_elementwise.
  - apply gaussian_scattered_afb_instrumental_degenerate.
Qed.

End DegenerateTimescales.

Section RunTheorems.
Context {F : Type} `{Arith F} `{Elementary F}.
Import numpy fit_frb.

Variable lmfit_fit :
  model_function (F := F) -> list F -> list F ->
  list (LmfitParameter (F := F)) -> string -> option EmceeKws ->
  outcome (ModelResult (F := F)).
Variable get_dm_smearing : F -> F -> F -> F.

(** C7.  When the least-squares fit of a sub-band that passed the gate
    reports non-convergence, [fit_profile_model] raises [RuntimeError] after
    that single fitter call (no sampler call, no second least-squares call),
    and the whole run ends with that exception: the events of the run are
    those of the earlier sub-bands followed by the one least-squares call,
    and no table is returned. *)
Theorem nonconvergence_aborts_run
    (cand : Candidate) (plot_range : list F) (fscrunch_factor : Z)
    (f0 f1 : F) (rest : list F) (iband : nat)
    (events_before : list event) (df : list SubBandRecord)
    (sub_profile fit_range windowed profile : list F) (snr : F)
    (r : ModelResult) :
  chan_freqs cand = f0 :: f1 :: rest ->
  let chan_bw := fsub f1 f0 in
  let body :=
    loop_body lmfit_fit get_dm_smearing cand plot_range fscrunch_factor
              (chan_freqs cand) chan_bw in
  for_each (seq 0 iband) body [] = (events_before, Ok df) ->
  nth_error (dedispersed_T cand) iband = Some sub_profile ->
  window plot_range sub_profile = Ok (fit_range, windowed) ->
  normalise windowed = Ok profile ->
  profile_snr fit_range profile = Ok snr ->
  fle (lit 3.7) snr = true ->
  let cfreq := sub_band_cfreq f0 iband fscrunch_factor chan_bw in
  let dm_smear := sub_band_smearing get_dm_smearing cand cfreq chan_bw in
  let fitparams := make_fitparams dm_smear in
  lmfit_fit pulsemodels.gaussian_scattered_dfb_instrumental profile fit_range
            fitparams "leastsq" None = Ok r ->
  success r = false ->
  fit_profile_model lmfit_fit fit_range profile dm_smear =
    ([FitCall "leastsq" profile fit_range fitparams],
     Raise (RuntimeError "Fit did not converge.")) /\
  fit_profile lmfit_fit get_dm_smearing cand plot_range fscrunch_factor =
    (events_before ++ [FitCall "leastsq" profile fit_range fitparams],
     Raise (RuntimeError "Fit did not converge.")).
Proof.
  intros Hfreqs chan_bw body Hbefore Hband Hwin Hnorm Hsnr Hhigh
         cfreq dm_smear fitparams Hfit Hfail.
  split; [now apply (fit_profile_model_not_converged _ _ _ _ r) | ].
  assert (Hlt : (iband < length (dedispersed_T cand))%nat)
    by (apply nth_error_Some; now rewrite Hband).
  subst body. unfold fit_profile. rewrite Hfreqs in Hbefore |- *.
  cbn [getitem nth_error]. rewrite !mbind_lift_Ok. fold chan_bw.
  replace (length (dedispersed_T cand))
    with (iband + S (length (dedispersed_T cand) - S iband))%nat by lia.
  rewrite seq_app. cbn [seq Nat.add].
  rewrite (for_each_raise _ _ _ _ _ _ _ _ _ Hbefore
             (loop_body_not_converged lmfit_fit get_dm_smearing
                cand plot_range fscrunch_factor (f0 :: f1 :: rest) chan_bw df
                iband sub_profile fit_range windowed profile snr f0 r
                Hband Hwin Hnorm Hsnr Hhigh eq_refl Hfit Hfail)).
  reflexivity.
Qed.

End RunTheorems.

Section WidthTheorem.
Import numpy pulsemodels fit_frb.
Local Open Scope R_scope.

Lemma gaussian_fwhm_real (sigma : R) :
  gaussian_fwhm sigma = 2 * sqrt (2 * ln 2) * sigma.
Proof.
  unfold gaussian_fwhm; cbn. replace (20 / 10) with 2 by lra. reflexivity.
Qed.

Lemma gaussian_fwtm_real (sigma : R) :
  gaussian_fwtm sigma = 2 * sqrt (2 * ln 10) * sigma.
Proof.
  unfold gaussian_fwtm; cbn.
  replace (20 / 10) with 2 by lra. replace (100 / 10) with 10 by lra.
  reflexivity.
Qed.

(** C8.  Over the reals [gaussian_fwhm sigma] is 2*sqrt(2*ln 2)*sigma and
    [gaussian_fwtm sigma] is 2*sqrt(2*ln 10)*sigma; for sigma > 0 their
    ratios to sigma are these constants, whose decimal expansions start
    2.3548200 and 4.2919320.  In every number system, each row of the table
    returned by [fit_profile] has fwhm, err_fwhm, fwtm and err_fwtm equal to
    these functions of the row's sigma and err_sigma. *)
Theorem gaussian_widths :
  (forall sigma : R,
      gaussian_fwhm sigma = 2 * sqrt (2 * ln 2) * sigma /\
      gaussian_fwtm sigma = 2 * sqrt (2 * ln 10) * sigma) /\
  (forall sigma : R, 0 < sigma ->
      gaussian_fwhm sigma / sigma = 2 * sqrt (2 * ln 2) /\
      gaussian_fwtm sigma / sigma = 2 * sqrt (2 * ln 10)) /\
  2.3548200 <= 2 * sqrt (2 * ln 2) < 2.3548201 /\
  4.2919320 <= 2 * sqrt (2 * ln 10) < 4.2919321 /\
  (forall (F : Type) (AF : Arith F) (EF : Elementary F)
          (lmfit_fit :
             model_function (F := F) -> list F -> list F ->
             list (LmfitParameter (F := F)) -> string -> option EmceeKws ->
             outcome (ModelResult (F := F)))
          (get_dm_smearing : F -> F -> F -> F)
          (cand : Candidate) (plot_range : list F) (fscrunch_factor : Z)
          (trace : list event) (table : list ResultRow),
      fit_profile lmfit_fit get_dm_smearing cand plot_range fscrunch_factor
      = (trace, Ok table) ->
      forall row, In row table ->
        fwhm row = gaussian_fwhm (sigma (fitted row)) /\
        err_fwhm row = gaussian_fwhm (err_sigma (fitted row)) /\
        fwtm row = gaussian_fwtm (sigma (fitted row)) /\
        err_fwtm row = gaussian_fwtm (err_sigma (fitted row))).
Proof.
  split; [ | split; [ | split; [ | split]]].
  - intro sigma. split; [apply gaussian_fwhm_real | apply gaussian_fwtm_real].
  - intros sigma Hs. rewrite gaussian_fwhm_real, gaussian_fwtm_real.
    split; field; lra.
  - apply fwhm_constant.
  - apply fwtm_constant.
  - intros F AF EF lmfit_fit get_dm_smearing cand plot_range fscrunch_factor
           trace table Hrun row Hrow.
    apply fit_profile_Ok_inv in Hrun. destruct Hrun as [df ->].
    apply in_map_iff in Hrow. destruct Hrow as [rec [<- _]].
    repeat split.
Qed.

End WidthTheorem.

(* ================================================================= *)
(** * Concrete runs *)

Section ConcreteRuns.
Import numpy pulsemodels fit_frb.

Section RealRun.
Local Open Scope R_scope.

Lemma bandintegrated_model_integral_witness :
  exists res,
    bandintegrated_model [0; 1] 1 0 1 (1 / 1000) 0 1 3 1 = Ok res /\
    sum (map (fun r => r - 0) res) * Rabs (0 - 1) = 1.
Proof.
  apply (bandintegrated_model_integral
           [0; 1] 1 0 1 (1 / 1000) 0 1 3 1 0 1 []);
    [reflexivity | ].
  replace (Rabs (0 - 1)) with 1
    by (unfold Rabs; destruct (Rcase_abs (0 - 1)); lra).
  rewrite Rmult_1_r.
  rewrite summed_profiles_single. cbv zeta. rewrite band_example_profile.
  rewrite !sum_cons, sum_nil.
  assert (Hc : 0 < 1 * Rpower (1 / (0.5 * (1 + 3))) (-1.5))
    by (rewrite Rmult_1_l; unfold Rpower; apply exp_pos).
  pose proof sqrt_2PI_gt_2 as Hq.
  pose proof (exp_pos (-0.5 * ((0 - 0) / 1) ^ 2)) as He0.
  pose proof (exp_pos (-0.5 * ((1 - 0) / 1) ^ 2)) as He1.
  set (c := 1 * Rpower (1 / (0.5 * (1 + 3))) (-1.5)) in *.
  set (q := sqrt (2 * PI)) in *.
  assert (Hg : 0 < c / (1 * q)) by (apply Rdiv_lt_0_compat; lra).
  apply Rgt_not_eq.
  assert (H0 : 0 < c / (1 * q) * exp (-0.5 * ((0 - 0) / 1) ^ 2))
    by now apply Rmult_lt_0_compat.
  assert (H1 : 0 < c / (1 * q) * exp (-0.5 * ((1 - 0) / 1) ^ 2))
    by now apply Rmult_lt_0_compat.
  lra.
Defined.

End RealRun.

Local Open Scope float_scope.

Lemma snr_gate_witness :
  loop_body (H0 := example.elementary) (example.fitter true) example.smearing
            example.candidate example.time_axis 256 [1400; 1399] (-1) [] 0
  = ([], Ok []) /\
  exists trace row,
    loop_body (H0 := example.elementary) (example.fitter true)
              example.smearing example.candidate example.time_axis 256
              [1400; 1399] (-1) [] 2
    = (trace, Ok [row]) /\ band row = 2%nat.
Proof.
  split.
  - edestruct (snr_gate example.elementary (example.fitter true)
                 example.smearing example.candidate example.time_axis 256
                 [1400; 1399] (-1) [] 0) as (_ & Hlow & _);
      [ reflexivity | vm_compute; reflexivity | vm_compute; reflexivity
      | vm_compute; reflexivity | ].
    apply Hlow. vm_compute. reflexivity.
  - edestruct (snr_gate example.elementary (example.fitter true)
                 example.smearing example.candidate example.time_axis 256
                 [1400; 1399] (-1) [] 2) as (_ & _ & Hhigh);
      [ reflexivity | vm_compute; reflexivity | vm_compute; reflexivity
      | vm_compute; reflexivity | ].
    eexists. eexists. split.
    + apply Hhigh;
        [ vm_compute; reflexivity | reflexivity | vm_compute; reflexivity
        | vm_compute; reflexivity ].
    + reflexivity.
Defined.

Lemma nan_band_is_skipped_witness :
  loop_body (H0 := example.elementary) (example.fitter true) example.smearing
            example.candidate example.time_axis 256 [1400; 1399] (-1) [] 1
  = ([], Ok []) /\
  loop_body (H0 := example.elementary) (example.fitter true) example.smearing
            example.candidate example.time_axis 256 [1400; 1399] (-1) [] 3
  = ([], Ok []).
Proof.
  split.
  - edestruct (nan_band_is_skipped example.elementary (example.fitter true)
                 example.smearing example.candidate example.time_axis 256
                 [1400; 1399] (-1) [] 1) as [Hzero _];
      [ reflexivity | vm_compute; reflexivity | ].
    apply Hzero; [repeat constructor | vm_compute; reflexivity].
  - edestruct (nan_band_is_skipped example.elementary (example.fitter true)
                 example.smearing example.candidate example.time_axis 256
                 [1400; 1399] (-1) [] 3) as [_ Hnan];
      [ reflexivity | vm_compute; reflexivity | ].
    edestruct (Hnan (repeat nan 8) nan) as (_ & _ & Hskip);
      [ vm_compute; reflexivity | now left | vm_compute; reflexivity
      | exact Hskip ].
Defined.

Lemma gaussian_scattered_afb_instrumental_terms_witness :
  Forall nonfinite
    (gaussian_scattered_afb_instrumental (H0 := example.elementary)
       [0; 1] 5 0 1 1 1 2 0).
Proof.
  apply (proj2 gaussian_scattered_afb_instrumental_terms
           example.elementary [0; 1] 5 0 1 1 1 2 0).
  left. reflexivity.
Defined.

Lemma nonconvergence_aborts_run_witness :
  snd (fit_profile (H0 := example.elementary) (example.fitter false)
                   example.smearing example.candidate example.time_axis 256)
  = Raise (RuntimeError "Fit did not converge.").
Proof.
  edestruct (nonconvergence_aborts_run (H0 := example.elementary)
               (example.fitter false) example.smearing example.candidate
               example.time_axis 256 1400 1399 [] 2) as [_ Hrun];
    [ reflexivity | vm_compute; reflexivity | reflexivity
    | vm_compute; reflexivity | vm_compute; reflexivity
    | vm_compute; reflexivity | vm_compute; reflexivity
    | vm_compute; reflexivity | reflexivity | ].
  rewrite Hrun. reflexivity.
Defined.

Lemma gaussian_widths_witness :
  (gaussian_fwhm (F := R) 1 / 1 = 2 * sqrt (2 * ln 2))%R /\
  exists trace table,
    fit_profile (H0 := example.elementary) (example.fitter true)
                example.smearing example.candidate example.time_axis 256
    = (trace, Ok table) /\
    length table = 1%nat /\
    forall row, In row table ->
      fwhm row = gaussian_fwhm (H0 := example.elementary) (sigma (fitted row)).
Proof.
  destruct gaussian_widths as (_ & Hratio & _ & _ & Htable).
  split; [apply Hratio; lra | ].
  eexists. eexists. split; [vm_compute; reflexivity | ].
  split; [reflexivity | ].
  intros row Hrow.
  eapply proj1.
  eapply (Htable float _ example.elementary (example.fitter true)
            example.smearing example.candidate example.time_axis 256%Z);
    [vm_compute; reflexivity | exact Hrow].
Defined.

End ConcreteRuns.

(* ================================================================= *)
(** * Further facts about the array primitives *)

Section SampleFacts.
Context {F : Type} `{Arith F}.
Import numpy.
Local Open Scope np_scope.

(** [np.max] and [np.min] return one of the samples. *)
Lemma fold_maximum_In_cons (l : list F) (acc : F) :
  In (fold_left maximum l acc) (acc :: l).
Proof.
  revert acc; induction l as [| v l IH]; intro acc; simpl; [now left | ].
  destruct (IH (maximum acc v)) as [Heq | Hin]; [ | now right; right].
  rewrite <- Heq. unfold maximum.
  destruct (orb _ _); [now left | now right; left].
Qed.

Lemma fold_minimum_In_cons (l : list F) (acc : F) :
  In (fold_left minimum l acc) (acc :: l).
Proof.
  revert acc; induction l as [| v l IH]; intro acc; simpl; [now left | ].
  destruct (IH (minimum acc v)) as [Heq | Hin]; [ | now right; right].
  rewrite <- Heq. unfold minimum.
  destruct (orb _ _); [now left | now right; left].
Qed.

Lemma max_In (l : list F) (m : F) : max l = Ok m -> In m l.
Proof.
  destruct l as [| v l]; [discriminate | ].
  intro Heq. injection Heq as <-. apply fold_maximum_In_cons.
Qed.

Lemma min_In (l : list F) (m : F) : min l = Ok m -> In m l.
Proof.
  destruct l as [| v l]; [discriminate | ].
  intro Heq. injection Heq as <-. apply fold_minimum_In_cons.
Qed.

Lemma max_nonempty (l : list F) : l <> [] -> exists m, max l = Ok m.
Proof. destruct l; [contradiction | intros _; now eexists]. Qed.

Lemma min_nonempty (l : list F) : l <> [] -> exists m, min l = Ok m.
Proof. destruct l; [contradiction | intros _; now eexists]. Qed.

(** A mask that is false everywhere selects nothing. *)
Lemma compress_none {A} (p : F -> bool) (l : list F) (a : list A) :
  Forall (fun t => p t = false) l -> compress (map p l) a = [].
Proof.
  intro Hl. revert a; induction Hl as [| t l Ht _ IH]; intros [| v a]; simpl;
    try reflexivity. rewrite Ht. apply IH.
Qed.

Lemma zip_with_length {A B C} (f : A -> B -> C) (a : list A) (b : list B) :
  length (zip_with f a b) = Nat.min (length a) (length b).
Proof.
  revert b; induction a as [| v a IH]; intros [| w b]; simpl;
    try reflexivity. now rewrite IH.
Qed.

Lemma Forall_zip_with {A B C} (P : C -> Prop) (f : A -> B -> C)
    (a : list A) (b : list B) :
  (forall v w, P (f v w)) -> Forall P (zip_with f a b).
Proof.
  intro Hf. revert b; induction a as [| v a IH]; intros [| w b]; simpl;
    constructor; auto.
Qed.

Lemma sum_axis0_length (n : nat) (rows : list (list F)) :
  Forall (fun r => length r = n) rows ->
  length (pulsemodels.sum_axis0 n rows) = n.
Proof.
  unfold pulsemodels.sum_axis0. intro Hrows.
  assert (Hacc : length (zeros n) = n) by apply repeat_length.
  revert Hacc. generalize (zeros n) as acc.
  induction Hrows as [| r rows Hr _ IH]; intros acc Hacc; simpl;
    [exact Hacc | ].
  apply IH. rewrite zip_with_length, Hacc, Hr. apply Nat.min_id.
Qed.

Lemma Forall_firstn {A} (P : A -> Prop) (n : nat) (l : list A) :
  Forall P l -> Forall P (firstn n l).
Proof.
  intro Hl. revert n; induction Hl as [| v l Hv _ IH]; intros [| n]; simpl;
    constructor; auto.
Qed.

Lemma Forall_skipn {A} (P : A -> Prop) (n : nat) (l : list A) :
  Forall P l -> Forall P (skipn n l).
Proof.
  intro Hl. revert n; induction Hl as [| v l Hv Hl IH]; intros [| n]; simpl;
    auto.
Qed.

Lemma length_add_padded (a b : list F) :
  length (add_padded a b) = Nat.max (length a) (length b).
Proof.
  revert b; induction a as [| v a IH]; intros [| w b]; simpl;
    try reflexivity. now rewrite IH.
Qed.

Lemma length_convolve_full (a b : list F) :
  a <> [] -> b <> [] ->
  length (convolve_full a b) = (length a + length b - 1)%nat.
Proof.
  intros Ha Hb. induction a as [| v a IH]; [contradiction | ].
  destruct a as [| w a].
  - cbn [convolve_full]. rewrite length_map. simpl. lia.
  - change (convolve_full (v :: w :: a) b)
      with (add_padded (map (fun u => v * u) b)
                       (lit 0.0 :: convolve_full (w :: a) b)).
    rewrite length_add_padded, length_map.
    cbn [length]. rewrite IH by discriminate.
    destruct b; [contradiction | ]. cbn [length]. lia.
Qed.

(** [oaconvolve(a, b, mode="same")] is as long as [a]. *)
Lemma oaconvolve_same_length (a b : list F) :
  b <> [] -> length (oaconvolve_same a b) = length a.
Proof.
  intro Hb. unfold oaconvolve_same.
  destruct b as [| w b]; [contradiction | ].
  destruct a as [| v a]; [reflexivity | ].
  unfold centered. rewrite length_firstn, length_skipn.
  rewrite length_convolve_full by discriminate.
  set (la := length (v :: a)). set (lb := length (w :: b)).
  assert (1 <= lb)%nat by (unfold lb; simpl; lia).
  pose proof (Nat.Div0.div_le_upper_bound (la + lb - 1 - la) 2
                (la + lb - 1 - la)) as Hdiv.
  assert ((la + lb - 1 - la) / 2 <= la + lb - 1 - la)%nat by (apply Hdiv; lia).
  lia.
Qed.

(** [np.argmax] returns an index of the array. *)
Lemma argmax_from_bound (a : list F) (best : F) (best_i i : nat) :
  (best_i < i)%nat -> (argmax_from best best_i i a < i + length a)%nat.
Proof.
  revert best best_i i; induction a as [| v a IH]; intros best best_i i Hlt;
    cbn [argmax_from length]; [lia | ].
  destruct (fisnan best); [lia | ].
  destruct (fle v best).
  - specialize (IH best best_i (S i)). lia.
  - specialize (IH v i (S i)). lia.
Qed.

Lemma argmax_bound (a : list F) (b : nat) :
  argmax a = Ok b -> (b < length a)%nat.
Proof.
  destruct a as [| v a]; [discriminate | ].
  intro Heq. injection Heq as <-.
  pose proof (argmax_from_bound a v 0 1). cbn [length]. lia.
Qed.

Lemma nth_map_seq {A} (f : nat -> A) (n i : nat) (d : A) :
  (i < n)%nat -> nth i (map f (seq 0 n)) d = f i.
Proof.
  intro Hi.
  rewrite (nth_indep _ d (f 0%nat)) by (now rewrite length_map, length_seq).
  rewrite map_nth, seq_nth by exact Hi. reflexivity.
Qed.

End SampleFacts.

Section RealSampleFacts.
Import numpy.
Local Open Scope R_scope.

(** Over the reals [np.max] is the greatest sample. *)
Lemma max_greatest (l : list R) (m : R) :
  In m l -> Forall (fun v => v <= m) l -> max l = Ok m.
Proof.
  intros Hin Hle. destruct l as [| v rest]; [contradiction | ].
  unfold max. f_equal. apply Rle_antisym.
  - inversion Hle; subst. now apply fold_maximum_le.
  - destruct Hin as [-> | Hin].
    + apply fold_maximum_ge_acc.
    + now apply fold_maximum_ge_In.
Qed.

Lemma max_upper_bound (l : list R) (m : R) :
  max l = Ok m -> Forall (fun a => a <= m) l.
Proof.
  destruct l as [| v rest]; [discriminate | ].
  intro Heq. injection Heq as <-. constructor.
  - apply fold_maximum_ge_acc.
  - apply Forall_forall. intros a Ha. now apply fold_maximum_ge_In.
Qed.

Lemma fold_maximum_scale (k : R) (l : list R) (acc : R) :
  0 <= k ->
  fold_left maximum (map (fun a => k * a) l) (k * acc)
  = k * fold_left maximum l acc.
Proof.
  intro Hk. revert acc; induction l as [| v l IH]; intro acc; simpl;
    [reflexivity | ].
  rewrite <- IH. f_equal. rewrite !maximum_Rmax. now apply RmaxRmult.
Qed.

Lemma max_scale (k : R) (l : list R) (m : R) :
  0 <= k -> max l = Ok m -> max (map (fun a => k * a) l) = Ok (k * m).
Proof.
  intros Hk Hmax. destruct l as [| v rest]; [discriminate | ].
  injection Hmax as <-. cbn [map max]. f_equal.
  now apply fold_maximum_scale.
Qed.

Lemma sum_nonneg (l : list R) : Forall (fun v => 0 <= v) l -> 0 <= sum l.
Proof.
  induction 1 as [| v l Hv _ IH]; [rewrite sum_nil; lra | ].
  rewrite sum_cons. lra.
Qed.

Lemma sum_nonneg_ge_In (l : list R) (v : R) :
  Forall (fun a => 0 <= a) l -> In v l -> v <= sum l.
Proof.
  induction 1 as [| a l Ha Hl IH]; intro Hin; [contradiction | ].
  rewrite sum_cons. pose proof (sum_nonneg l Hl) as Hs.
  destruct Hin as [-> | Hin]; [lra | ].
  specialize (IH Hin). lra.
Qed.

Lemma sum_le_length_bound (l : list R) (b : R) :
  Forall (fun a => a <= b) l -> sum l <= INR (length l) * b.
Proof.
  induction 1 as [| a l Ha _ IH].
  - rewrite sum_nil. simpl. lra.
  - rewrite sum_cons. cbn [length]. rewrite S_INR. lra.
Qed.

Lemma sum_map_shift (c : R) (l : list R) :
  sum (map (fun v => v - c) l) = sum l - INR (length l) * c.
Proof.
  induction l as [| v l IH].
  - cbn [map length]. rewrite sum_nil. simpl. lra.
  - cbn [map length]. rewrite !sum_cons, IH, S_INR. lra.
Qed.

Lemma sum_nonpos_zero (l : list R) :
  Forall (fun v => v <= 0) l -> sum l = 0 -> Forall (fun v => v = 0) l.
Proof.
  induction 1 as [| v l Hv Hl IH]; intro Hsum; [constructor | ].
  rewrite sum_cons in Hsum.
  assert (Hs : sum l <= 0).
  { clear - Hl. induction Hl as [| w l Hw _ IH];
      [rewrite sum_nil; lra | rewrite sum_cons; lra]. }
  constructor; [lra | apply IH; lra].
Qed.

Lemma mean_real (l : list R) : mean l = sum l / INR (length l).
Proof. unfold mean. cbn. now rewrite <- INR_IZR_INZ. Qed.

Lemma exp_le_iff (u v : R) : exp u <= exp v <-> u <= v.
Proof.
  split; intro Hle.
  - destruct (Rle_lt_dec u v) as [Huv | Hvu]; [exact Huv | ].
    apply exp_increasing in Hvu. lra.
  - destruct Hle as [Hlt | ->];
      [left; now apply exp_increasing | right; reflexivity].
Qed.

Lemma exp_neg_ln (a : R) : 0 < a -> exp (- ln a) = / a.
Proof. intro Ha. now rewrite exp_Ropp, exp_ln. Qed.

Lemma ln_gt_1_pos (a : R) : 1 < a -> 0 < ln a.
Proof. intro Ha. rewrite <- ln_1. apply ln_increasing; lra. Qed.

Lemma abs_le_sqrt_iff (d r s : R) :
  0 <= r -> 0 < s -> (Rabs d <= sqrt r * s <-> (d / s) ^ 2 <= r).
Proof.
  intros Hr Hs.
  pose proof (sqrt_pos r) as Hq. pose proof (sqrt_sqrt r Hr) as Hqq.
  set (q := sqrt r) in *.
  replace ((d / s) ^ 2) with (d * d / (s * s)) by (field; lra).
  assert (Hss : 0 < s * s) by nra.
  split; intro Hle.
  - apply Rmult_le_reg_r with (s * s); [exact Hss | ].
    replace (d * d / (s * s) * (s * s)) with (d * d) by (field; lra).
    rewrite <- Hqq.
    unfold Rabs in Hle. destruct (Rcase_abs d); nra.
  - assert (Hdd : d * d <= q * q * (s * s)).
    { rewrite Hqq.
      replace (d * d) with (d * d / (s * s) * (s * s)) by (field; lra).
      apply Rmult_le_compat_r; lra. }
    assert (Hqs : 0 <= q * s) by nra.
    apply Rnot_lt_le. intro Hgt.
    assert (Hsq : q * s * (q * s) < Rabs d * Rabs d) by nra.
    assert (Habs : Rabs d * Rabs d = d * d)
      by (unfold Rabs; destruct (Rcase_abs d); ring).
    nra.
Qed.

End RealSampleFacts.

(* ================================================================= *)
(** * The Gaussian and its widths *)

Section GaussianShape.
Import numpy pulsemodels.
Local Open Scope R_scope.

(** The Gaussian exponent at a distance of [sqrt (2 * ln a) * sigma] from
    the centre, on either side. *)
Lemma gaussian_exponent_at_level (a sigma s : R) :
  0 < sigma -> 0 < ln a -> s = 1 \/ s = -1 ->
  - 0.5 * ((s * (2 * sqrt (2 * ln a) * sigma / 2)) / sigma) ^ 2 = - ln a.
Proof.
  intros Hs Ha Hsign.
  replace ((s * (2 * sqrt (2 * ln a) * sigma / 2)) / sigma)
    with (s * sqrt (2 * ln a)) by (field; lra).
  rewrite Rpow_mult_distr. simpl pow. rewrite !Rmult_1_r.
  rewrite sqrt_sqrt by lra.
  destruct Hsign as [-> | ->]; lra.
Qed.

(** X1.  For sigma > 0 the normed Gaussian takes its peak value
    fluence/(sigma*sqrt(2 pi)) at the centre, half of it at a distance of
    gaussian_fwhm(sigma)/2 on either side, and a tenth of it at a distance of
    gaussian_fwtm(sigma)/2 on either side. *)
Theorem gaussian_normed_at_fwhm_fwtm (fluence center sigma : R) :
  0 < sigma ->
  let peak := fluence / (sigma * sqrt (2 * PI)) in
  let w50 := gaussian_fwhm sigma in
  let w10 := gaussian_fwtm sigma in
  gaussian_normed
    [center; center - w50 / 2; center + w50 / 2;
     center - w10 / 2; center + w10 / 2] fluence center sigma
  = [peak; peak / 2; peak / 2; peak / 10; peak / 10].
Proof.
  intros Hs peak w50 w10. subst w50 w10.
  rewrite gaussian_normed_real, gaussian_fwhm_real, gaussian_fwtm_real.
  cbn [map]. fold peak.
  pose proof (ln_gt_1_pos 2 ltac:(lra)) as H2.
  pose proof (ln_gt_1_pos 10 ltac:(lra)) as H10.
  replace (center - center) with 0 by lra.
  replace (center - 2 * sqrt (2 * ln 2) * sigma / 2 - center)
    with (-1 * (2 * sqrt (2 * ln 2) * sigma / 2)) by lra.
  replace (center + 2 * sqrt (2 * ln 2) * sigma / 2 - center)
    with (1 * (2 * sqrt (2 * ln 2) * sigma / 2)) by lra.
  replace (center - 2 * sqrt (2 * ln 10) * sigma / 2 - center)
    with (-1 * (2 * sqrt (2 * ln 10) * sigma / 2)) by lra.
  replace (center + 2 * sqrt (2 * ln 10) * sigma / 2 - center)
    with (1 * (2 * sqrt (2 * ln 10) * sigma / 2)) by lra.
  rewrite !gaussian_exponent_at_level by (auto; lra).
  rewrite !exp_neg_ln by lra.
  replace (- 0.5 * (0 / sigma) ^ 2) with 0 by (simpl pow; field; lra).
  rewrite exp_0.
  repeat f_equal; lra.
Qed.

Lemma gaussian_normed_at_fwhm_fwtm_witness :
  gaussian_normed
    [0; 0 - gaussian_fwhm 1 / 2; 0 + gaussian_fwhm 1 / 2;
     0 - gaussian_fwtm 1 / 2; 0 + gaussian_fwtm 1 / 2] 5 0 1
  = [5 / (1 * sqrt (2 * PI)); 5 / (1 * sqrt (2 * PI)) / 2;
     5 / (1 * sqrt (2 * PI)) / 2; 5 / (1 * sqrt (2 * PI)) / 10;
     5 / (1 * sqrt (2 * PI)) / 10].
Proof. apply (gaussian_normed_at_fwhm_fwtm 5 0 1). lra. Defined.

Lemma gaussian_peak_pos (fluence sigma : R) :
  0 < fluence -> 0 < sigma -> 0 < fluence / (sigma * sqrt (2 * PI)).
Proof.
  intros Hf Hs. apply Rdiv_lt_0_compat; [exact Hf | ].
  apply Rmult_lt_0_compat; [exact Hs | ].
  pose proof sqrt_2PI_gt_2. lra.
Qed.

(** A sample of the normed Gaussian is at or above the fraction [1/a] of the
    peak exactly when it lies within [sqrt (2 ln a) * sigma] of the centre. *)
Lemma gaussian_level_iff (fluence center sigma a t : R) :
  0 < fluence -> 0 < sigma -> 1 < a ->
  let peak := fluence / (sigma * sqrt (2 * PI)) in
  (1 / a * peak <= peak * exp (- 0.5 * ((t - center) / sigma) ^ 2)
   <-> Rabs (t - center) <= sqrt (2 * ln a) * sigma).
Proof.
  intros Hf Hs Ha peak.
  pose proof (gaussian_peak_pos fluence sigma Hf Hs) as Hpeak.
  fold peak in Hpeak.
  pose proof (ln_gt_1_pos a Ha) as Hln.
  rewrite abs_le_sqrt_iff by lra.
  set (u := ((t - center) / sigma) ^ 2).
  replace (1 / a) with (exp (- ln a))
    by (rewrite exp_Ropp, exp_ln by lra; field; lra).
  split; intro Hle.
  - assert (He : exp (- ln a) <= exp (- 0.5 * u)).
    { apply Rmult_le_reg_r with peak; [exact Hpeak | ]. lra. }
    apply (proj1 (exp_le_iff _ _)) in He. lra.
  - assert (He : exp (- ln a) <= exp (- 0.5 * u)) by (apply exp_le_iff; lra).
    rewrite (Rmult_comm peak). now apply Rmult_le_compat_r; [lra | ].
Qed.

(** The greatest sample of a normed Gaussian sampled at its centre. *)
Lemma gaussian_normed_peak (x : list R) (fluence center sigma : R) :
  0 < fluence -> 0 < sigma -> In center x ->
  max (gaussian_normed x fluence center sigma)
  = Ok (fluence / (sigma * sqrt (2 * PI))).
Proof.
  intros Hf Hs Hc. rewrite gaussian_normed_real.
  pose proof (gaussian_peak_pos fluence sigma Hf Hs) as Hpeak.
  set (peak := fluence / (sigma * sqrt (2 * PI))) in *.
  apply max_greatest.
  - apply in_map_iff. exists center. split; [ | exact Hc].
    replace (- 0.5 * ((center - center) / sigma) ^ 2) with 0
      by (simpl pow; field; lra).
    rewrite exp_0. lra.
  - apply Forall_forall. intros v Hv. apply in_map_iff in Hv.
    destruct Hv as [t [<- _]].
    rewrite <- (Rmult_1_r peak) at 2.
    apply Rmult_le_compat_l; [lra | ].
    rewrite <- exp_0. apply exp_le_iff.
    assert (0 <= ((t - center) / sigma) ^ 2) by (apply pow2_ge_0). lra.
Qed.

End GaussianShape.

(* ================================================================= *)
(** * [full_width_post] *)

Section WidthPostFacts.
Context {F : Type} `{Arith F} `{Elementary F}.
Import numpy pulsemodels.
Local Open Scope np_scope.

(** The two ways [full_width_post] ends on equally long inputs with at least
    two samples: the sample spacing when at most one sample is at or above
    the level, else the distance between two samples at or above it. *)
Lemma full_width_post_cases (x amp : list F) (level m x0 x1 : F)
    (rest : list F) :
  x = x0 :: x1 :: rest -> length amp = length x -> max amp = Ok m ->
  let sel := compress (map (fun a => a >=? level * m) amp) x in
  ((length sel <= 1)%nat /\
   full_width_post x amp level = Ok (fabs (x0 - x1))) \/
  ((2 <= length sel)%nat /\
   exists hi lo, In hi sel /\ In lo sel /\
     full_width_post x amp level = Ok (fabs (hi - lo))).
Proof.
  intros Hx Hlen Hmax sel. unfold full_width_post.
  rewrite Hmax. cbn [obind]. unfold getitem_mask.
  rewrite length_map, Hlen, Nat.eqb_refl. cbn [obind]. fold sel.
  destruct (Nat.ltb 1 (length sel)) eqn:Hsel.
  - apply Nat.ltb_lt in Hsel. right. split; [lia | ].
    assert (Hne : sel <> [])
      by (destruct sel; [simpl in Hsel; lia | discriminate]).
    destruct (max_nonempty sel Hne) as [hi Hhi].
    destruct (min_nonempty sel Hne) as [lo Hlo].
    exists hi, lo. rewrite Hhi, Hlo. cbn [obind].
    split; [now apply max_In | ]. split; [now apply min_In | reflexivity].
  - apply Nat.ltb_ge in Hsel. left. split; [exact Hsel | ].
    subst x. reflexivity.
Qed.

(** X2.  [full_width_post] raises [ValueError] on an empty amplitude array,
    [IndexError] when the time axis and a non-empty amplitude array differ
    in length, and [IndexError] on every input of one sample. *)
Theorem full_width_post_errors (x amp : list F) (level : F) :
  (amp = [] -> full_width_post x amp level = Raise ValueError) /\
  (amp <> [] -> length x <> length amp ->
   full_width_post x amp level = Raise IndexError) /\
  (forall t a, x = [t] -> amp = [a] ->
   full_width_post x amp level = Raise IndexError).
Proof.
  split; [ | split].
  - intros ->. reflexivity.
  - intros Hne Hlen. unfold full_width_post.
    destruct (max_nonempty amp Hne) as [m ->]. cbn [obind].
    unfold getitem_mask. rewrite length_map.
    destruct (Nat.eqb (length amp) (length x)) eqn:Heq; [ | reflexivity].
    apply Nat.eqb_eq in Heq. now elim Hlen.
  - intros t a -> ->. unfold full_width_post. cbn [max fold_left obind map].
    unfold getitem_mask. cbn [length Nat.eqb compress obind].
    destruct (a >=? level * a); reflexivity.
Qed.

End WidthPostFacts.

Section WidthPostTheorems.
Import numpy pulsemodels.
Local Open Scope R_scope.

(** The width of a sampled Gaussian measured at the fraction [1/a] of its
    peak. *)
Lemma full_width_post_gaussian_level
    (x : list R) (fluence center sigma a x0 x1 : R) (rest : list R) :
  x = x0 :: x1 :: rest -> 0 < fluence -> 0 < sigma -> In center x -> 1 < a ->
  let half := sqrt (2 * ln a) * sigma in
  let near := filter (fun t => Rleb (Rabs (t - center)) half) x in
  exists w,
    full_width_post x (gaussian_normed x fluence center sigma) (1 / a) = Ok w /\
    ((2 <= length near)%nat -> w <= 2 * half) /\
    ((length near <= 1)%nat -> w = Rabs (x0 - x1)).
Proof.
  intros Hx Hf Hs Hc Ha half near.
  pose proof (gaussian_normed_peak x fluence center sigma Hf Hs Hc) as Hmax.
  set (peak := fluence / (sigma * sqrt (2 * PI))) in *.
  pose proof (full_width_post_cases x (gaussian_normed x fluence center sigma)
                (1 / a) peak x0 x1 rest Hx
                (gaussian_normed_length x fluence center sigma) Hmax) as Hcases.
  cbv zeta in Hcases.
  assert (Hsel : compress
                   (map (fun v : R => fle (fmul (1 / a) peak) v)
                        (gaussian_normed x fluence center sigma)) x = near).
  { rewrite gaussian_normed_real, map_map, compress_filter.
    apply filter_ext. intro t. fold peak.
    change (fle ?u ?v) with (Rleb u v). change (fmul ?u ?v) with (u * v).
    pose proof (gaussian_level_iff fluence center sigma a t Hf Hs Ha) as Hiff.
    cbv zeta in Hiff. fold peak in Hiff. fold half in Hiff.
    destruct (Rleb (Rabs (t - center)) half) eqn:Hnear.
    - apply Rleb_true. apply Hiff. now apply Rleb_true.
    - apply Rleb_false. apply Rleb_false in Hnear.
      apply Rnot_le_lt. intro Hle. apply Hiff in Hle. lra. }
  rewrite Hsel in Hcases.
  destruct Hcases as [[Hfew Hw] | [Hmany (hi & lo & Hhi & Hlo & Hw)]].
  - exists (Rabs (x0 - x1)). split; [exact Hw | ]. split; [lia | reflexivity].
  - exists (Rabs (hi - lo)). split; [exact Hw | ]. split; [ | lia].
    intros _. unfold near in Hhi, Hlo.
    apply filter_In in Hhi, Hlo.
    destruct Hhi as [_ Hhi]. destruct Hlo as [_ Hlo].
    apply Rleb_true in Hhi, Hlo.
    unfold Rabs in *.
    destruct (Rcase_abs (hi - center)), (Rcase_abs (lo - center)),
             (Rcase_abs (hi - lo)); lra.
Qed.

(** X3.  On a time axis with at least two samples that holds the centre, and
    for fluence > 0 and sigma > 0, the width of the sampled normed Gaussian
    measured by [full_width_post] at level 1/2 (at level 1/10) is at most
    gaussian_fwhm(sigma) (gaussian_fwtm(sigma)) when two or more samples
    lie within half that width of the centre, and is the sample spacing
    |x[0] - x[1]| otherwise. *)
Theorem full_width_post_of_gaussian
    (x : list R) (fluence center sigma x0 x1 : R) (rest : list R) :
  x = x0 :: x1 :: rest -> 0 < fluence -> 0 < sigma -> In center x ->
  let amp := gaussian_normed x fluence center sigma in
  let near := fun width =>
    filter (fun t => Rleb (Rabs (t - center)) (width / 2)) x in
  (exists w50,
      full_width_post x amp (1 / 2) = Ok w50 /\
      ((2 <= length (near (gaussian_fwhm sigma)))%nat ->
       w50 <= gaussian_fwhm sigma) /\
      ((length (near (gaussian_fwhm sigma)) <= 1)%nat ->
       w50 = Rabs (x0 - x1))) /\
  (exists w10,
      full_width_post x amp (1 / 10) = Ok w10 /\
      ((2 <= length (near (gaussian_fwtm sigma)))%nat ->
       w10 <= gaussian_fwtm sigma) /\
      ((length (near (gaussian_fwtm sigma)) <= 1)%nat ->
       w10 = Rabs (x0 - x1))).
Proof.
  intros Hx Hf Hs Hc amp near. subst amp near. cbv beta.
  rewrite gaussian_fwhm_real, gaussian_fwtm_real.
  replace (2 * sqrt (2 * ln 2) * sigma / 2) with (sqrt (2 * ln 2) * sigma)
    by lra.
  replace (2 * sqrt (2 * ln 10) * sigma / 2) with (sqrt (2 * ln 10) * sigma)
    by lra.
  split.
  - destruct (full_width_post_gaussian_level x fluence center sigma 2 x0 x1
                rest Hx Hf Hs Hc) as (w & Hw & Hmany & Hfew); [lra | ].
    exists w. split; [exact Hw | ]. split; [ | exact Hfew].
    intro Hn. apply Hmany in Hn. lra.
  - destruct (full_width_post_gaussian_level x fluence center sigma 10 x0 x1
                rest Hx Hf Hs Hc) as (w & Hw & Hmany & Hfew); [lra | ].
    exists w. split; [exact Hw | ]. split; [ | exact Hfew].
    intro Hn. apply Hmany in Hn. lra.
Qed.

Lemma full_width_post_of_gaussian_witness :
  exists w50,
    full_width_post [-1; 0; 1] (gaussian_normed [-1; 0; 1] 5 0 1) (1 / 2)
    = Ok w50.
Proof.
  destruct (full_width_post_of_gaussian [-1; 0; 1] 5 0 1 (-1) 0 [1])
    as [(w50 & Hw & _) _];
    [reflexivity | lra | lra | simpl; auto | ].
  exists w50. exact Hw.
Defined.

(** X4.  On a time axis with at least two samples, for a boxcar of width [W]
    that holds at least one sample and a level in (0, 1]: the width of
    [boxcar(x, W)] measured by [full_width_post] never exceeds [W] when the
    boxcar holds two or more samples, and is the sample spacing
    |x[0] - x[1]| when it holds exactly one. *)
Theorem full_width_post_of_boxcar
    (x : list R) (W level x0 x1 : R) (rest : list R) :
  x = x0 :: x1 :: rest -> 0 < level <= 1 ->
  (1 <= samples_inside x W)%nat ->
  exists w,
    full_width_post x (boxcar x W) level = Ok w /\
    ((2 <= samples_inside x W)%nat -> w <= W) /\
    (samples_inside x W = 1%nat -> w = Rabs (x0 - x1)).
Proof.
  intros Hx Hlevel Hin.
  assert (Hlen : length (boxcar x W) = length x)
    by (rewrite boxcar_real; apply length_map).
  pose proof (full_width_post_cases x (boxcar x W) level 1 x0 x1 rest Hx Hlen
                (boxcar_peak x W Hin)) as Hcases.
  cbv zeta in Hcases.
  assert (Hsel : compress (map (fun v : R => fle (fmul level 1) v)
                               (boxcar x W)) x = filter (inside W) x).
  { rewrite boxcar_real, map_map, compress_filter.
    apply filter_ext. intro t.
    change (fle ?u ?v) with (Rleb u v). change (fmul ?u ?v) with (u * v).
    destruct (inside W t); [apply Rleb_true | apply Rleb_false]; lra. }
  rewrite Hsel in Hcases. fold (samples_inside x W) in Hcases.
  destruct Hcases as [[Hfew Hw] | [Hmany (hi & lo & Hhi & Hlo & Hw)]].
  - exists (Rabs (x0 - x1)). split; [exact Hw | ]. split; [lia | reflexivity].
  - exists (Rabs (hi - lo)). split; [exact Hw | ]. split; [ | lia].
    intros _. apply filter_In in Hhi, Hlo.
    destruct Hhi as [_ Hhi]. destruct Hlo as [_ Hlo].
    unfold inside in Hhi, Hlo. apply Rleb_true in Hhi, Hlo.
    unfold Rabs in *.
    destruct (Rcase_abs hi), (Rcase_abs lo), (Rcase_abs (hi - lo)); lra.
Qed.

Lemma full_width_post_of_boxcar_witness :
  exists w,
    full_width_post [-1; 0; 1] (boxcar [-1; 0; 1] (3 / 2)) (1 / 2) = Ok w /\
    w = Rabs (-1 - 0).
Proof.
  destruct (full_width_post_of_boxcar [-1; 0; 1] (3 / 2) (1 / 2) (-1) 0 [1])
    as (w & Hw & _ & Hone);
    [reflexivity | lra | rewrite samples_inside_example; lia | ].
  exists w. split; [exact Hw | ]. apply Hone, samples_inside_example.
Defined.

End WidthPostTheorems.

Section WidthPostLevels.
Import numpy pulsemodels.
Local Open Scope R_scope.

Lemma minimum_Rmin (a b : R) : minimum a b = Rmin a b.
Proof.
  unfold minimum; cbn. rewrite orb_false_r.
  unfold Rleb, Rmin.
  destruct (Rle_dec a b); reflexivity.
Qed.

Lemma fold_minimum_le_acc (l : list R) (acc : R) :
  fold_left minimum l acc <= acc.
Proof.
  revert acc; induction l as [| v l IH]; intro acc; simpl; [lra | ].
  eapply Rle_trans; [apply IH | ]. rewrite minimum_Rmin. apply Rmin_l.
Qed.

Lemma fold_minimum_le_In (l : list R) (acc v : R) :
  In v l -> fold_left minimum l acc <= v.
Proof.
  revert acc; induction l as [| w l IH]; intros acc Hv; [contradiction | ].
  destruct Hv as [Hv | Hv]; simpl.
  - subst w. eapply Rle_trans; [apply fold_minimum_le_acc | ].
    rewrite minimum_Rmin. apply Rmin_r.
  - now apply IH.
Qed.

Lemma min_lower_bound (l : list R) (m : R) :
  min l = Ok m -> Forall (fun a => m <= a) l.
Proof.
  destruct l as [| v rest]; [discriminate | ].
  intro Heq. injection Heq as <-. constructor.
  - apply fold_minimum_le_acc.
  - apply Forall_forall. intros a Ha. now apply fold_minimum_le_In.
Qed.

(** Over the reals, the width measured when two or more samples are at or
    above the level is the extent of those samples. *)
Lemma full_width_post_extent (x amp : list R) (level m x0 x1 : R)
    (rest : list R) :
  x = x0 :: x1 :: rest -> length amp = length x -> max amp = Ok m ->
  let sel := compress (map (fun a => Rleb (level * m) a) amp) x in
  (2 <= length sel)%nat ->
  exists hi lo,
    In hi sel /\ In lo sel /\
    Forall (fun t => lo <= t <= hi) sel /\
    full_width_post x amp level = Ok (hi - lo).
Proof.
  intros Hx Hlen Hmax sel Hsel. unfold full_width_post.
  rewrite Hmax. cbn [obind]. unfold getitem_mask.
  rewrite length_map, Hlen, Nat.eqb_refl. cbn [obind].
  change (fun a : R => fle (fmul level m) a)
    with (fun a : R => Rleb (level * m) a). fold sel.
  replace (Nat.ltb 1 (length sel)) with true
    by (symmetry; apply Nat.ltb_lt; lia).
  assert (Hne : sel <> [])
    by (destruct sel; [simpl in Hsel; lia | discriminate]).
  destruct (max_nonempty sel Hne) as [hi Hhi].
  destruct (min_nonempty sel Hne) as [lo Hlo].
  pose proof (max_upper_bound sel hi Hhi) as Hub.
  pose proof (min_lower_bound sel lo Hlo) as Hlb.
  exists hi, lo. rewrite Hhi, Hlo. cbn [obind].
  split; [now apply max_In | ]. split; [now apply min_In | ].
  rewrite Forall_forall in Hub, Hlb.
  split; [apply Forall_forall; intros t Ht; split; auto | ].
  f_equal. change (Rabs (hi - lo) = hi - lo).
  apply Rabs_right. apply max_In in Hhi. specialize (Hlb hi Hhi). lra.
Qed.

Lemma compress_incl {A} (p q : R -> bool) (amp : list R) (x : list A) :
  (forall a, p a = true -> q a = true) ->
  incl (compress (map p amp) x) (compress (map q amp) x).
Proof.
  intro Hpq. revert x; induction amp as [| a amp IH]; intros [| t x];
    cbn [map compress]; try (intros u Hu; contradiction).
  destruct (p a) eqn:Hp.
  - rewrite (Hpq a Hp). intros u [-> | Hu]; [now left | right; now apply IH].
  - destruct (q a); [intros u Hu; right; now apply IH | apply IH].
Qed.

(** X5.  Over the reals, for equally long inputs with a non-negative peak:
    when two or more samples are at or above the higher of two levels, the
    width measured by [full_width_post] at the lower level is at least the
    width measured at the higher level. *)
Theorem full_width_post_monotone (x amp : list R) (low high m x0 x1 : R)
    (rest : list R) :
  x = x0 :: x1 :: rest -> length amp = length x ->
  max amp = Ok m -> 0 <= m -> low <= high ->
  (2 <= length (compress (map (fun a => Rleb (high * m) a) amp) x))%nat ->
  exists w_low w_high,
    full_width_post x amp low = Ok w_low /\
    full_width_post x amp high = Ok w_high /\
    w_high <= w_low.
Proof.
  intros Hx Hlen Hmax Hm Hlevels Hsel.
  pose proof (compress_incl (fun a => Rleb (high * m) a)
                (fun a => Rleb (low * m) a) amp x) as Hincl.
  assert (Hsub : incl (compress (map (fun a => Rleb (high * m) a) amp) x)
                      (compress (map (fun a => Rleb (low * m) a) amp) x)).
  { apply Hincl. intros a Ha. apply Rleb_true. apply Rleb_true in Ha. nra. }
  assert (Hsel' :
    (2 <= length (compress (map (fun a => Rleb (low * m) a) amp) x))%nat).
  { clear - Hsel Hlevels Hm.
    revert x Hsel; induction amp as [| a amp IH]; intros [| t x];
      cbn [map compress length]; try lia.
    intro Hsel.
    destruct (Rleb (high * m) a) eqn:Hh.
    - replace (Rleb (low * m) a) with true
        by (symmetry; apply Rleb_true; apply Rleb_true in Hh; nra).
      cbn [length] in *.
      destruct (compress (map (fun a0 => Rleb (high * m) a0) amp) x)
        as [| u s] eqn:Hs; [simpl in Hsel; lia | ].
      pose proof (compress_incl (fun a => Rleb (high * m) a)
                    (fun a => Rleb (low * m) a) amp x) as Hincl.
      assert (Hin : In u (compress (map (fun a0 => Rleb (low * m) a0) amp) x)).
      { apply Hincl.
        - intros b Hb. apply Rleb_true. apply Rleb_true in Hb. nra.
        - rewrite Hs. now left. }
      destruct (compress (map (fun a0 => Rleb (low * m) a0) amp) x);
        [contradiction | simpl; lia].
    - specialize (IH x Hsel).
      destruct (Rleb (low * m) a); cbn [length]; lia. }
  destruct (full_width_post_extent x amp low m x0 x1 rest Hx Hlen Hmax Hsel')
    as (hi1 & lo1 & _ & _ & Hb1 & Hw1).
  destruct (full_width_post_extent x amp high m x0 x1 rest Hx Hlen Hmax Hsel)
    as (hi2 & lo2 & Hhi2 & Hlo2 & _ & Hw2).
  exists (hi1 - lo1), (hi2 - lo2). split; [exact Hw1 | ].
  split; [exact Hw2 | ].
  rewrite Forall_forall in Hb1.
  pose proof (Hb1 hi2 (Hsub hi2 Hhi2)). pose proof (Hb1 lo2 (Hsub lo2 Hlo2)).
  lra.
Qed.

Lemma full_width_post_monotone_witness :
  exists w_low w_high,
    full_width_post [0; 1; 2; 3; 4] [1; 2; 4; 3; 0] (1 / 4) = Ok w_low /\
    full_width_post [0; 1; 2; 3; 4] [1; 2; 4; 3; 0] (1 / 2) = Ok w_high /\
    w_high <= w_low.
Proof.
  apply (full_width_post_monotone [0; 1; 2; 3; 4] [1; 2; 4; 3; 0]
           (1 / 4) (1 / 2) 4 0 1 [2; 3; 4]);
    [reflexivity | reflexivity | | lra | lra | ].
  - apply max_greatest; [simpl; auto | ]. repeat constructor; lra.
  - cbn [map compress].
    replace (Rleb (1 / 2 * 4) 1) with false
      by (symmetry; apply Rleb_false; lra).
    replace (Rleb (1 / 2 * 4) 2) with true by (symmetry; apply Rleb_true; lra).
    replace (Rleb (1 / 2 * 4) 4) with true by (symmetry; apply Rleb_true; lra).
    destruct (Rleb (1 / 2 * 4) 3), (Rleb (1 / 2 * 4) 0); simpl; lia.
Defined.

End WidthPostLevels.

Section WidthPostBinary64.
Import numpy pulsemodels.
Local Open Scope float_scope.

Lemma full_width_post_errors_witness :
  full_width_post (F := float) [0; 1] [] 0.5 = Raise ValueError /\
  full_width_post [0; 1; 2] [1; 2] 0.5 = Raise IndexError /\
  full_width_post [0] [1] 0.5 = Raise IndexError.
Proof.
  split; [ | split].
  - apply (proj1 (full_width_post_errors [0; 1] [] 0.5)). reflexivity.
  - apply (proj1 (proj2 (full_width_post_errors [0; 1; 2] [1; 2] 0.5)));
      [discriminate | simpl; lia].
  - apply (proj2 (proj2 (full_width_post_errors [0] [1] 0.5)) 0 1);
      reflexivity.
Defined.

Lemma mul_nan_r (a : float) : a * nan = nan.
Proof.
  rewrite <- (FloatAxioms.SF2Prim_Prim2SF (a * nan)), FloatAxioms.mul_spec.
  change (Prim2SF nan) with SpecFloat.S754_nan.
  now destruct (Prim2SF a).
Qed.

(** X6.  In binary64, when the amplitude array holds a NaN (and is as long
    as the time axis, which has at least two samples), the maximum is NaN,
    no sample compares at or above the level, and [full_width_post] returns
    the sample spacing |x[0] - x[1]|, whatever the level. *)
Theorem full_width_post_nan (x amp : list float) (level x0 x1 : float)
    (rest : list float) :
  x = x0 :: x1 :: rest -> length amp = length x -> In nan amp ->
  full_width_post x amp level = Ok (abs (x0 - x1)).
Proof.
  intros Hx Hlen Hnan. unfold full_width_post.
  rewrite (max_In_nan amp Hnan). cbn [obind].
  change (fmul level nan) with (level * nan). rewrite mul_nan_r.
  unfold getitem_mask. rewrite length_map, Hlen, Nat.eqb_refl. cbn [obind].
  rewrite (compress_none (fun a => fle nan a))
    by (apply Forall_forall; intros a _; apply leb_nan_l).
  subst x. reflexivity.
Qed.

Lemma full_width_post_nan_witness :
  full_width_post [0; 1; 2; 3] [1; nan; 5; 1] 0.5 = Ok 1.
Proof.
  apply (full_width_post_nan [0; 1; 2; 3] [1; nan; 5; 1] 0.5 0 1 [2; 3]);
    [reflexivity | reflexivity | simpl; auto].
Defined.

End WidthPostBinary64.

(* ================================================================= *)
(** * [equivalent_width] *)

Section EquivalentWidthErrors.
Context {F : Type} `{Arith F} `{Elementary F}.
Import numpy pulsemodels.

(** X7.  [equivalent_width] raises [IndexError] on a time axis of fewer than
    two samples, whatever the amplitudes, and [ValueError] on an empty
    amplitude array when the time axis has two samples or more. *)
Theorem equivalent_width_errors (x amp : list F) :
  ((length x < 2)%nat -> equivalent_width x amp = Raise IndexError) /\
  ((2 <= length x)%nat -> amp = [] ->
   equivalent_width x amp = Raise ValueError).
Proof.
  split.
  - intro Hlen. destruct x as [| x0 [| x1 rest]];
      [reflexivity | reflexivity | simpl in Hlen; lia].
  - intros Hlen ->. destruct x as [| x0 [| x1 rest]];
      [simpl in Hlen; lia | simpl in Hlen; lia | reflexivity].
Qed.

End EquivalentWidthErrors.

Section EquivalentWidthTheorems.
Import numpy pulsemodels.
Local Open Scope R_scope.

Lemma equivalent_width_errors_witness :
  equivalent_width [0] [1; 2] = Raise IndexError /\
  equivalent_width (F := R) [0; 1] [] = Raise ValueError.
Proof.
  split.
  - apply (proj1 (equivalent_width_errors [0] [1; 2])). simpl. lia.
  - apply (proj2 (equivalent_width_errors [0; 1] []));
      [simpl; lia | reflexivity].
Defined.

(** X8.  For a time axis with samples x0, x1, ... and an amplitude array
    with a positive peak, [equivalent_width] returns a width between one
    sample spacing |x0 - x1| and the number of amplitude samples times that
    spacing. *)
Theorem equivalent_width_bounds (x amp : list R) (x0 x1 m : R)
    (rest : list R) :
  x = x0 :: x1 :: rest -> max amp = Ok m -> 0 < m ->
  exists weq,
    equivalent_width x amp = Ok weq /\
    Rabs (x0 - x1) <= weq <= INR (length amp) * Rabs (x0 - x1).
Proof.
  intros -> Hmax Hm. unfold equivalent_width.
  cbn [getitem nth_error obind]. rewrite Hmax. cbn [obind].
  eexists; split; [reflexivity | ].
  change (of_int 0) with 0. change (fun a : R => fle 0 a) with (Rleb 0).
  rewrite compress_filter.
  change fmul with Rmult. change fdiv with Rdiv.
  change fabs with Rabs. change fsub with Rminus.
  set (pos := filter (Rleb 0) amp).
  set (d := Rabs (x0 - x1)).
  assert (Hd : 0 <= d) by apply Rabs_pos.
  assert (Hlow : m <= sum pos).
  { apply sum_nonneg_ge_In.
    - apply Forall_forall. intros a Ha. apply filter_In in Ha.
      now apply Rleb_true.
    - apply filter_In. split; [now apply max_In | apply Rleb_true; lra]. }
  assert (Hhigh : sum pos <= INR (length amp) * m).
  { apply Rle_trans with (INR (length pos) * m).
    - apply sum_le_length_bound.
      apply Forall_forall. intros a Ha. apply filter_In in Ha.
      pose proof (max_upper_bound amp m Hmax) as Hub.
      rewrite Forall_forall in Hub. now apply Hub.
    - apply Rmult_le_compat_r; [lra | ].
      apply le_INR. apply filter_length_le. }
  split.
  - apply Rmult_le_reg_r with m; [exact Hm | ].
    replace (sum pos * d / m * m) with (sum pos * d) by (field; lra). nra.
  - apply Rmult_le_reg_r with m; [exact Hm | ].
    replace (sum pos * d / m * m) with (sum pos * d) by (field; lra). nra.
Qed.

Lemma max_example : max [1; 2; -1] = Ok 2.
Proof.
  apply max_greatest; [simpl; auto | ].
  repeat constructor; lra.
Qed.

Lemma equivalent_width_bounds_witness :
  exists weq,
    equivalent_width [0; 1; 2] [1; 2; -1] = Ok weq /\
    Rabs (0 - 1) <= weq <= INR 3 * Rabs (0 - 1).
Proof.
  apply (equivalent_width_bounds [0; 1; 2] [1; 2; -1] 0 1 2 [2]);
    [reflexivity | exact max_example | lra].
Defined.

Lemma compress_nonneg_scale (k : R) (l : list R) :
  0 < k ->
  compress (map (Rleb 0) (map (fun a => k * a) l)) (map (fun a => k * a) l)
  = map (fun a => k * a) (compress (map (Rleb 0) l) l).
Proof.
  intro Hk. induction l as [| a l IH]; [reflexivity | ].
  cbn [map compress].
  replace (Rleb 0 (k * a)) with (Rleb 0 a).
  - destruct (Rleb 0 a); cbn [map]; now rewrite IH.
  - destruct (Rleb 0 a) eqn:Ha; symmetry.
    + apply Rleb_true. apply Rleb_true in Ha. nra.
    + apply Rleb_false. apply Rleb_false in Ha. nra.
Qed.

(** X9.  Scaling the amplitudes by a factor k > 0 does not change the
    equivalent width (for an amplitude array with a non-zero peak). *)
Theorem equivalent_width_scale_invariant (x amp : list R) (k m : R) :
  0 < k -> max amp = Ok m -> m <> 0 ->
  equivalent_width x (map (fun a => k * a) amp) = equivalent_width x amp.
Proof.
  intros Hk Hmax Hm. unfold equivalent_width.
  destruct (getitem x 0) as [x0 | e]; [ | reflexivity].
  destruct (getitem x 1) as [x1 | e]; [ | reflexivity].
  cbn [obind]. rewrite Hmax, (max_scale k amp m) by (lra || exact Hmax).
  cbn [obind]. f_equal.
  change (of_int 0) with 0. change (fun a : R => fle 0 a) with (Rleb 0).
  rewrite compress_nonneg_scale by exact Hk.
  rewrite sum_map_scale.
  change fmul with Rmult. change fdiv with Rdiv.
  field. split; lra.
Qed.

Lemma equivalent_width_scale_invariant_witness :
  equivalent_width [0; 1; 2] (map (fun a => 3 * a) [1; 2; -1])
  = equivalent_width [0; 1; 2] [1; 2; -1].
Proof.
  apply (equivalent_width_scale_invariant [0; 1; 2] [1; 2; -1] 3 2);
    [lra | exact max_example | lra].
Defined.

End EquivalentWidthTheorems.

(* ================================================================= *)
(** * The instrumental models *)

Section AfbSymmetry.
Import numpy pulsemodels.
Local Open Scope R_scope.

(** The analogue-instrumental model over the reals, sample by sample. *)
Lemma gaussian_scattered_afb_instrumental_real
    (x : list R) (fluence center sigma taus taui taud dc : R) :
  let G := fun tau i =>
    nth i (scattered_gaussian_pulse x fluence center sigma tau 0) 0 in
  gaussian_scattered_afb_instrumental x fluence center sigma taus taui taud dc
  = map (fun i =>
           dc + taus ^ 2 * G taus i / ((taus - taui) * (taus - taud))
           - taui ^ 2 * G taui i / ((taus - taui) * (taui - taud))
           + taud ^ 2 * G taud i / ((taus - taud) * (taui - taud)))
        (seq 0 (length x)).
Proof.
  intro G. rewrite gaussian_scattered_afb_instrumental_elementwise.
  cbv zeta. apply map_ext; intro i.
  change (fpow ?a (of_int 2)) with (Rpow_np a 2).
  rewrite !Rpow_np_2, lit_zero_real. reflexivity.
Qed.

(** X10.  For pairwise different timescales the analogue-instrumental model
    does not depend on the order in which the three timescales are given:
    exchanging any two of taus, taui and taud leaves every sample
    unchanged. *)
Theorem gaussian_scattered_afb_instrumental_symmetric
    (x : list R) (fluence center sigma taus taui taud dc : R) :
  0 < sigma -> 0 < taus -> 0 < taui -> 0 < taud ->
  taus <> taui -> taus <> taud -> taui <> taud ->
  let model := gaussian_scattered_afb_instrumental x fluence center sigma in
  model taui taus taud dc = model taus taui taud dc /\
  model taus taud taui dc = model taus taui taud dc /\
  model taud taui taus dc = model taus taui taud dc.
Proof.
  intros _ _ _ _ Hsi Hsd Hid model. subst model. cbv beta.
  rewrite !gaussian_scattered_afb_instrumental_real. cbv zeta.
  repeat split; apply map_ext; intro i; field; repeat split; lra.
Qed.

Lemma gaussian_scattered_afb_instrumental_symmetric_witness :
  gaussian_scattered_afb_instrumental [0; 1] 5 0 1 2 3 1 0
  = gaussian_scattered_afb_instrumental [0; 1] 5 0 1 3 2 1 0.
Proof.
  refine (proj1 (gaussian_scattered_afb_instrumental_symmetric
                   [0; 1] 5 0 1 3 2 1 0 _ _ _ _ _ _ _)); lra.
Defined.

End AfbSymmetry.

Section ModelShapes.
Import numpy pulsemodels.
Local Open Scope R_scope.

(** X11.  For positive width and timescales every pulse model returns one
    sample per sample of the time axis. *)
Theorem models_keep_length
    (x : list R) (fluence center sigma taus taui taud dc : R) :
  0 < sigma -> 0 < taus -> 0 < taui -> 0 < taud ->
  length (gaussian_normed x fluence center sigma) = length x /\
  length (scattered_gaussian_pulse x fluence center sigma taus dc)
  = length x /\
  length (gaussian_scattered_afb_instrumental x fluence center sigma taus
                                              taui taud dc) = length x /\
  length (boxcar x taud) = length x /\
  length (pbf_isotropic x taus) = length x /\
  length (scattered_profile x fluence center sigma taus dc) = length x /\
  length (gaussian_scattered_dfb_instrumental x fluence center sigma taus
                                              taud dc) = length x.
Proof.
  intros _ _ _ _.
  assert (Hbox : length (boxcar x taud) = length x)
    by (rewrite boxcar_elementwise; apply length_map).
  assert (Hpbf : length (pbf_isotropic x taus) = length x)
    by (rewrite pbf_isotropic_elementwise; apply length_map).
  assert (Hsp : forall d,
             length (scattered_profile x fluence center sigma taus d)
             = length x).
  { intro d. unfold scattered_profile. rewrite length_map.
    destruct x as [| x0 x']; [reflexivity | ].
    rewrite oaconvolve_same_length; [apply gaussian_normed_length | ].
    intro Hnil. rewrite Hnil in Hpbf. discriminate Hpbf. }
  repeat split.
  - apply gaussian_normed_length.
  - apply scattered_gaussian_pulse_length.
  - rewrite gaussian_scattered_afb_instrumental_elementwise.
    cbv zeta. now rewrite length_map, length_seq.
  - exact Hbox.
  - exact Hpbf.
  - apply Hsp.
  - unfold gaussian_scattered_dfb_instrumental. rewrite length_map.
    destruct x as [| x0 x']; [reflexivity | ].
    rewrite oaconvolve_same_length; [apply Hsp | ].
    intro Hnil. rewrite Hnil in Hbox. discriminate Hbox.
Qed.

Lemma models_keep_length_witness :
  length (gaussian_scattered_dfb_instrumental [-1; 0; 1] 5 0 1 2 1 (1 / 10))
  = 3%nat.
Proof.
  refine (proj2 (proj2 (proj2 (proj2 (proj2 (proj2
            (models_keep_length [-1; 0; 1] 5 0 1 2 3 1 (1 / 10)
                                _ _ _ _))))))); lra.
Defined.

End ModelShapes.

Section BandShape.
Context {F : Type} `{Arith F} `{Elementary F}.
Import numpy pulsemodels.
Local Open Scope np_scope.

Lemma summed_profiles_length
    (x : list F) (fluence center sigma taus f_lo f_hi : F) (nfreq : nat) :
  length (summed_profiles x fluence center sigma taus f_lo f_hi nfreq)
  = length x.
Proof.
  unfold summed_profiles. apply sum_axis0_length.
  apply Forall_zip_with. intros fl ts.
  apply scattered_gaussian_pulse_length.
Qed.

(** X12.  For sigma > 0 and band edges above zero, the band-integration
    model raises [IndexError] on a time axis of fewer than two samples and
    otherwise returns a profile with one sample per sample of the time axis,
    whatever the number of frequencies. *)
Theorem bandintegrated_model_shape
    (x : list F) (fluence center sigma taus dc f_lo f_hi : F) (nfreq : nat) :
  (sigma >? lit 0.0) = true ->
  (f_lo >? lit 0.0) = true -> (f_hi >? lit 0.0) = true ->
  ((length x < 2)%nat ->
   bandintegrated_model x fluence center sigma taus dc f_lo f_hi nfreq
   = Raise IndexError) /\
  ((2 <= length x)%nat ->
   exists res,
     bandintegrated_model x fluence center sigma taus dc f_lo f_hi nfreq
     = Ok res /\ length res = length x).
Proof.
  intros _ _ _. unfold bandintegrated_model. split; intro Hlen.
  - destruct x as [| x0 [| x1 rest]];
      [reflexivity | reflexivity | simpl in Hlen; lia].
  - destruct x as [| x0 [| x1 rest]];
      [simpl in Hlen; lia | simpl in Hlen; lia | ].
    cbn [getitem nth_error obind]. eexists. split; [reflexivity | ].
    rewrite length_map. apply summed_profiles_length.
Qed.

End BandShape.

Section BandShapeRun.
Import numpy pulsemodels.
Local Open Scope float_scope.

Lemma bandintegrated_model_shape_witness :
  bandintegrated_model (H0 := example.elementary) [0] 5 0 1 1 0.5 1000 1400 4
  = Raise IndexError /\
  exists res,
    bandintegrated_model (H0 := example.elementary) [0; 1; 2] 5 0 1 1 0.5
                         1000 1400 4 = Ok res /\
    length res = 3%nat.
Proof.
  split.
  - refine (proj1 (bandintegrated_model_shape (H0 := example.elementary)
                     [0] 5 0 1 1 0.5 1000 1400 4 _ _ _) _);
      [vm_compute; reflexivity | vm_compute; reflexivity
      | vm_compute; reflexivity | simpl; lia].
  - refine (proj2 (bandintegrated_model_shape (H0 := example.elementary)
                     [0; 1; 2] 5 0 1 1 0.5 1000 1400 4 _ _ _) _);
      [vm_compute; reflexivity | vm_compute; reflexivity
      | vm_compute; reflexivity | simpl; lia].
Defined.

End BandShapeRun.

(* ================================================================= *)
(** * Kernels of zeros in binary64 *)

Section ZeroKernel.
Import numpy pulsemodels.
Local Open Scope float_scope.

Lemma lit_zero_float : lit (F := float) 0.0 = 0.
Proof. vm_compute. reflexivity. Qed.

Lemma lit_half_float : lit (F := float) 0.5 = 0.5.
Proof. vm_compute. reflexivity. Qed.

Lemma add_nan_r (a : float) : a + nan = nan.
Proof.
  rewrite <- (FloatAxioms.SF2Prim_Prim2SF (a + nan)), FloatAxioms.add_spec.
  change (Prim2SF nan) with SpecFloat.S754_nan.
  now destruct (Prim2SF a).
Qed.

Lemma add_nan_l (a : float) : nan + a = nan.
Proof.
  rewrite <- (FloatAxioms.SF2Prim_Prim2SF (nan + a)), FloatAxioms.add_spec.
  change (Prim2SF nan) with SpecFloat.S754_nan. reflexivity.
Qed.

Lemma nonfinite_mul_zero (q : float) : nonfinite q -> q * 0 = nan.
Proof. intros [-> | [-> | ->]]; reflexivity. Qed.

Lemma sum_zeros_float (n : nat) : sum (zeros (F := float) n) = 0.
Proof.
  unfold sum, zeros. rewrite lit_zero_float.
  induction n as [| n IH]; [reflexivity | exact IH].
Qed.

(** X13.  With an empty frequency grid (nfreq = 0) and a time axis of at
    least two samples the band-integration model sums no profile, divides
    the fluence by a zero total and returns NaN at every sample, in
    binary64 and for every C library. *)
Theorem bandintegrated_model_empty_grid
    (E : Elementary float) (x : list float)
    (fluence center sigma taus dc f_lo f_hi x0 x1 : float)
    (rest : list float) :
  x = x0 :: x1 :: rest ->
  (0 <? f_lo) = true -> (0 <? f_hi) = true ->
  bandintegrated_model x fluence center sigma taus dc f_lo f_hi 0
  = Ok (repeat nan (length x)).
Proof.
  intros Hx _ _. unfold bandintegrated_model, summed_profiles, sum_axis0.
  cbn [geomspace map zip_with fold_left].
  rewrite sum_zeros_float. subst x. cbn [getitem nth_error obind].
  f_equal. unfold zeros. rewrite lit_zero_float, map_repeat. f_equal.
  change (dc + fluence / (0 * abs (x0 - x1)) * 0 = nan).
  rewrite nonfinite_mul_zero; [apply add_nan_r | ].
  apply div_by_zeroish, mul_zeroish_l. left. now left.
Qed.

Lemma bandintegrated_model_empty_grid_witness :
  bandintegrated_model (H0 := example.elementary) [0; 1; 2] 5 0 1 1 0.5
                       1000 1400 0
  = Ok [nan; nan; nan].
Proof.
  apply (bandintegrated_model_empty_grid example.elementary [0; 1; 2]
           5 0 1 1 0.5 1000 1400 0 1 [2]); reflexivity.
Defined.

(** Sums and products that stay among the zeros and NaN. *)
Lemma add_zero_or_nan (a b : float) :
  zeroish a \/ a = nan -> zeroish b \/ b = nan ->
  zeroish (a + b) \/ a + b = nan.
Proof.
  intros [Ha | ->] [Hb | ->].
  - left. now apply zeroish_add.
  - right. apply add_nan_r.
  - right. apply add_nan_l.
  - right. apply add_nan_l.
Qed.

Lemma add_padded_zero_or_nan (a b : list float) :
  Forall (fun v => zeroish v \/ v = nan) a ->
  Forall (fun v => zeroish v \/ v = nan) b ->
  Forall (fun v => zeroish v \/ v = nan) (add_padded a b).
Proof.
  intro Ha. revert b; induction Ha as [| v a Hv Ha IH]; intros b Hb;
    [exact Hb | ].
  destruct Hb as [| w b Hw Hb]; [now constructor | ].
  cbn [add_padded]. constructor; [now apply add_zero_or_nan | now apply IH].
Qed.

(** Convolving with a kernel of zeros leaves zeros and NaN only. *)
Lemma convolve_full_zero_kernel (a : list float) (n : nat) :
  Forall (fun v => zeroish v \/ v = nan) (convolve_full a (repeat 0 n)).
Proof.
  assert (Hrow : forall v,
             Forall (fun u => zeroish u \/ u = nan)
                    (map (fun w => fmul v w) (repeat 0 n))).
  { intro v. rewrite map_repeat. apply Forall_forall. intros u Hu.
    apply repeat_spec in Hu. subst u.
    apply mul_zeroish_r. left. now left. }
  induction a as [| v a IH]; [constructor | ].
  destruct a as [| w a]; [apply Hrow | ].
  change (convolve_full (v :: w :: a) (repeat 0 n))
    with (add_padded (map (fun u => fmul v u) (repeat 0 n))
                     (lit 0.0 :: convolve_full (w :: a) (repeat 0 n))).
  apply add_padded_zero_or_nan; [apply Hrow | ].
  constructor; [ | exact IH]. rewrite lit_zero_float. left. now left.
Qed.

Lemma oaconvolve_same_zero_kernel (a : list float) (n : nat) :
  Forall (fun v => zeroish v \/ v = nan) (oaconvolve_same a (zeros n)).
Proof.
  unfold zeros. rewrite lit_zero_float. unfold oaconvolve_same.
  destruct (repeat 0 n) as [| w b] eqn:Hb; [constructor | ].
  rewrite <- Hb. unfold centered.
  apply Forall_firstn, Forall_skipn, convolve_full_zero_kernel.
Qed.

(** A same-length convolution with a kernel of zeros, divided by the sum of
    the kernel and offset by [dc], is NaN at every sample. *)
Lemma same_convolution_zero_kernel (a : list float) (n : nat) (dc : float) :
  length a = n ->
  map (fun c => fadd dc (fdiv c (sum (zeros n))))
      (oaconvolve_same a (zeros n))
  = repeat nan n.
Proof.
  intro Hlen. rewrite (map_constant _ nan).
  - destruct n as [| n]; [reflexivity | ].
    rewrite oaconvolve_same_length by discriminate. now rewrite Hlen.
  - eapply Forall_impl; [ | apply oaconvolve_same_zero_kernel].
    intros c Hc. rewrite sum_zeros_float.
    change (dc + c / 0 = nan).
    replace (c / 0) with nan; [apply add_nan_r | ].
    destruct Hc as [Hc | ->]; symmetry;
      [apply zeroish_div_zeroish; [exact Hc | now left] | apply nan_div].
Qed.

(** X14.  In binary64, when no sample of the time axis is at or after time
    zero, the broadening function is zero at every sample, its sum is zero
    and [scattered_profile] returns NaN at every sample. *)
Theorem scattered_profile_no_causal_sample
    (E : Elementary float) (x : list float)
    (fluence center sigma taus dc : float) :
  (0 <? sigma) = true -> (0 <? taus) = true ->
  Forall (fun xi => (0 <=? xi) = false) x ->
  scattered_profile x fluence center sigma taus dc = repeat nan (length x).
Proof.
  intros _ _ Hneg. unfold scattered_profile.
  assert (Hpbf : pbf_isotropic x taus = zeros (length x)).
  { rewrite pbf_isotropic_elementwise. unfold zeros.
    apply map_constant. eapply Forall_impl; [ | exact Hneg].
    intros xi Hxi. cbv beta in Hxi |- *. rewrite lit_zero_float.
    change (fle 0 xi) with (0 <=? xi). now rewrite Hxi. }
  rewrite Hpbf. apply same_convolution_zero_kernel, gaussian_normed_length.
Qed.

Lemma scattered_profile_no_causal_sample_witness :
  scattered_profile (H0 := example.elementary) [-3; -2; -1] 5 0 1 2 0.5
  = [nan; nan; nan].
Proof.
  apply (scattered_profile_no_causal_sample example.elementary [-3; -2; -1]
           5 0 1 2 0.5); [reflexivity | reflexivity | ].
  repeat constructor.
Defined.

(** X15.  In binary64, when no sample of the time axis lies within half the
    smearing time [taud] of zero, the boxcar is zero at every sample, its
    sum is zero and the digital-instrumental model returns NaN at every
    sample. *)
Theorem gaussian_scattered_dfb_instrumental_empty_boxcar
    (E : Elementary float) (x : list float)
    (fluence center sigma taus taud dc : float) :
  (0 <? sigma) = true -> (0 <? taus) = true ->
  Forall (fun xi => (abs xi <=? 0.5 * taud) = false) x ->
  gaussian_scattered_dfb_instrumental x fluence center sigma taus taud dc
  = repeat nan (length x).
Proof.
  intros _ _ Hout. unfold gaussian_scattered_dfb_instrumental.
  assert (Hbox : boxcar x taud = zeros (length x)).
  { rewrite boxcar_elementwise. unfold zeros.
    apply map_constant. eapply Forall_impl; [ | exact Hout].
    intros xi Hxi. cbv beta in Hxi |- *. rewrite lit_half_float.
    change (fle (fabs xi) (fmul 0.5 taud)) with (abs xi <=? 0.5 * taud).
    now rewrite Hxi. }
  rewrite Hbox. apply same_convolution_zero_kernel.
  destruct x as [| x0 x].
  - reflexivity.
  - unfold scattered_profile. rewrite length_map.
    rewrite oaconvolve_same_length; [apply gaussian_normed_length | ].
    rewrite pbf_isotropic_elementwise. discriminate.
Qed.

Lemma gaussian_scattered_dfb_instrumental_empty_boxcar_witness :
  gaussian_scattered_dfb_instrumental (H0 := example.elementary)
    [-1.5; -0.5; 0.5; 1.5] 5 0 1 2 0.5 0.25
  = [nan; nan; nan; nan].
Proof.
  apply (gaussian_scattered_dfb_instrumental_empty_boxcar example.elementary
           [-1.5; -0.5; 0.5; 1.5] 5 0 1 2 0.5 0.25);
    [reflexivity | reflexivity | ].
  repeat constructor.
Defined.

End ZeroKernel.

(* ================================================================= *)
(** * The broadening function and narrow boxcars over the reals *)

Section BroadeningFunction.
Import numpy pulsemodels.
Local Open Scope R_scope.

(** X16.  For taus > 0 the broadening function is causal and bounded: it is 0
    at every negative time and lies in (0, 1/taus] at every other time, with
    1/taus taken at time zero; so the sum of its samples, by which
    [scattered_profile] divides, is positive exactly when the time axis
    holds a sample at or after time zero, and zero otherwise. *)
Theorem pbf_isotropic_causal (x : list R) (taus : R) :
  0 < taus ->
  Forall2 (fun xi b =>
             (xi < 0 -> b = 0) /\
             (0 <= xi -> 0 < b <= 1 / taus) /\
             (xi = 0 -> b = 1 / taus))
          x (pbf_isotropic x taus) /\
  (Exists (fun xi => 0 <= xi) x -> 0 < sum (pbf_isotropic x taus)) /\
  (Forall (fun xi => xi < 0) x -> sum (pbf_isotropic x taus) = 0).
Proof.
  intro Ht. rewrite pbf_isotropic_real.
  assert (Hit : 0 < 1 / taus) by (apply Rdiv_lt_0_compat; lra).
  assert (Hval : forall xi,
             (xi < 0 -> one_sided_exponential taus xi = 0) /\
             (0 <= xi -> 0 < one_sided_exponential taus xi <= 1 / taus) /\
             (xi = 0 -> one_sided_exponential taus xi = 1 / taus)).
  { intro xi. unfold one_sided_exponential.
    destruct (Rle_dec 0 xi) as [Hpos | Hneg].
    - split; [intro; lra | ]. split.
      + intros _. pose proof (exp_pos (- xi / taus)) as He.
        assert (Hle : exp (- xi / taus) <= 1).
        { rewrite <- exp_0. apply exp_le_iff.
          assert (0 <= xi / taus) by (apply Rle_mult_inv_pos; lra).
          unfold Rdiv in *. lra. }
        split; [now apply Rmult_lt_0_compat | ].
        rewrite <- (Rmult_1_r (1 / taus)) at 2.
        apply Rmult_le_compat_l; lra.
      + intros ->. replace (- 0 / taus) with 0 by (field; lra).
        rewrite exp_0. lra.
    - split; [reflexivity | ]. split; intro; lra. }
  assert (Hnn : forall l, Forall (fun v => 0 <= v)
                                 (map (one_sided_exponential taus) l)).
  { intro l. apply Forall_map. apply Forall_forall. intros xi _.
    destruct (Hval xi) as (Hn & Hp & _).
    destruct (Rlt_le_dec xi 0) as [Hlt | Hge];
      [rewrite (Hn Hlt); lra | destruct (Hp Hge); lra]. }
  split; [ | split].
  - induction x as [| xi x IH]; cbn [map]; constructor; auto.
  - induction 1 as [xi x Hxi | xi x _ IH]; cbn [map]; rewrite sum_cons.
    + destruct (Hval xi) as (_ & Hp & _). destruct (Hp Hxi).
      pose proof (sum_nonneg _ (Hnn x)). lra.
    + pose proof (Hnn [xi]) as H1. inversion H1; subst. lra.
  - induction 1 as [| xi x Hxi _ IH]; cbn [map];
      [apply sum_nil | rewrite sum_cons, IH].
    destruct (Hval xi) as (Hn & _). rewrite (Hn Hxi). lra.
Qed.

Lemma pbf_isotropic_causal_witness :
  0 < sum (pbf_isotropic [-1; 0; 1] 2).
Proof.
  refine (proj1 (proj2 (pbf_isotropic_causal [-1; 0; 1] 2 _)) _); [lra | ].
  apply Exists_cons_tl, Exists_cons_hd. lra.
Defined.

End BroadeningFunction.

Section SingleSampleBoxcar.
Import numpy pulsemodels.
Local Open Scope R_scope.

(** The linear convolution with a kernel that is 1 at index [m] and 0
    elsewhere delays the signal by [m] samples. *)
Lemma linear_convolution_delta (a b : list R) (m : nat) :
  (forall i, nth i b 0 = if Nat.eqb i m then 1 else 0) ->
  forall k,
    linear_convolution a b k = if Nat.leb m k then nth (k - m) a 0 else 0.
Proof.
  intro Hb. induction a as [| v a IH]; intro k.
  - rewrite linear_convolution_nil.
    destruct (Nat.leb m k); [now destruct (k - m)%nat | reflexivity].
  - rewrite linear_convolution_cons, Hb.
    destruct (Nat.eqb k m) eqn:Hkm.
    + apply Nat.eqb_eq in Hkm. subst k.
      rewrite Nat.leb_refl, Nat.sub_diag. cbn [nth].
      destruct m as [| m']; [lra | ].
      rewrite IH. replace (Nat.leb (S m') m') with false
        by (symmetry; apply Nat.leb_gt; lia). lra.
    + apply Nat.eqb_neq in Hkm.
      destruct k as [| k'].
      * replace (Nat.leb m 0) with false
          by (symmetry; apply Nat.leb_gt; lia). lra.
      * rewrite IH.
        destruct (Nat.leb m k') eqn:Hle.
        -- apply Nat.leb_le in Hle.
           replace (Nat.leb m (S k')) with true
             by (symmetry; apply Nat.leb_le; lia).
           replace (S k' - m)%nat with (S (k' - m)) by lia.
           cbn [nth]. lra.
        -- apply Nat.leb_gt in Hle.
           replace (Nat.leb m (S k')) with false
             by (symmetry; apply Nat.leb_gt; lia). lra.
Qed.

Lemma nth_map_indicator (x : list R) (p : R -> bool) (i : nat) :
  nth i (map (fun xi => if p xi then 1 else 0) x) 0
  = if Nat.ltb i (length x) then (if p (nth i x 0) then 1 else 0) else 0.
Proof.
  revert i; induction x as [| xi x IH]; intros [| i]; cbn [map nth length];
    try reflexivity.
  rewrite IH. reflexivity.
Qed.

Lemma filter_one_index (x : list R) (p : R -> bool) (m : nat) :
  (m < length x)%nat ->
  (forall i, (i < length x)%nat -> p (nth i x 0) = Nat.eqb i m) ->
  length (filter p x) = 1%nat.
Proof.
  revert m; induction x as [| xi x IH]; intros m Hm Hp;
    [simpl in Hm; lia | ].
  cbn [filter]. pose proof (Hp 0%nat ltac:(simpl; lia)) as H0. cbn [nth] in H0.
  destruct m as [| m'].
  - rewrite H0. cbn [Nat.eqb length]. f_equal.
    rewrite (proj2 (filter_ext_in_iff p (fun _ => false) x)).
    + clear. induction x; [reflexivity | assumption].
    + intros v Hv. apply In_nth with (d := 0) in Hv.
      destruct Hv as [i [Hi <-]].
      exact (Hp (S i) ltac:(simpl; lia)).
  - rewrite H0. cbn [Nat.eqb]. apply (IH m'); [simpl in Hm; lia | ].
    intros i Hi. exact (Hp (S i) ltac:(simpl; lia)).
Qed.

(** X17.  Over the reals, for sigma > 0 and taus > 0: when exactly one sample
    of the time axis, the one at index m, lies within half the smearing time
    [taud] of zero, the digital-instrumental model is [dc] plus the
    scattered profile (with zero offset) moved by m - (n-1)/2 samples, n
    being the number of samples, with zeros moved in; it is [dc] plus the
    scattered profile itself exactly when m is the middle index (n-1)/2. *)
Theorem gaussian_scattered_dfb_instrumental_single_sample
    (x : list R) (fluence center sigma taus taud dc : R) (m : nat) :
  0 < sigma -> 0 < taus ->
  (m < length x)%nat ->
  (forall i, (i < length x)%nat -> inside taud (nth i x 0) = Nat.eqb i m) ->
  let n := length x in
  let c := ((n - 1) / 2)%nat in
  let sp := scattered_profile x fluence center sigma taus 0 in
  gaussian_scattered_dfb_instrumental x fluence center sigma taus taud dc
  = map (fun k => dc + (if Nat.leb m (k + c) then nth (k + c - m) sp 0 else 0))
        (seq 0 n) /\
  (m = c ->
   gaussian_scattered_dfb_instrumental x fluence center sigma taus taud dc
   = map (fun v => dc + v) sp).
Proof.
  intros _ _ Hm Hone n c sp.
  assert (Hxne : x <> []) by (destruct x; [simpl in Hm; lia | discriminate]).
  assert (Hsp : length sp = n).
  { unfold sp, scattered_profile. rewrite length_map.
    rewrite oaconvolve_same_length; [apply gaussian_normed_length | ].
    rewrite pbf_isotropic_real. destruct x; [contradiction | discriminate]. }
  assert (Hmain :
    gaussian_scattered_dfb_instrumental x fluence center sigma taus taud dc
    = map (fun k => dc + (if Nat.leb m (k + c) then nth (k + c - m) sp 0
                          else 0)) (seq 0 n)).
  { unfold gaussian_scattered_dfb_instrumental.
    replace (scattered_profile x fluence center sigma taus (lit 0.0)) with sp
      by (unfold sp; now rewrite lit_zero_real).
    rewrite boxcar_real.
    rewrite sum_indicator, (filter_one_index x (inside taud) m Hm Hone).
    rewrite oaconvolve_same_nth_seq by (now rewrite length_map).
    rewrite map_map, Hsp. fold c. apply map_ext. intro k.
    rewrite (linear_convolution_delta sp _ m).
    - cbn. lra.
    - intro i. rewrite nth_map_indicator.
      destruct (Nat.ltb i (length x)) eqn:Hi.
      + apply Nat.ltb_lt in Hi. rewrite (Hone i Hi). reflexivity.
      + apply Nat.ltb_ge in Hi.
        replace (Nat.eqb i m) with false
          by (symmetry; apply Nat.eqb_neq; lia). reflexivity. }
  split; [exact Hmain | ].
  intros ->. rewrite Hmain, (map_nth_seq (fun v => dc + v) sp 0), Hsp.
  apply map_ext. intro k.
  replace (Nat.leb c (k + c)) with true by (symmetry; apply Nat.leb_le; lia).
  now replace (k + c - c)%nat with k by lia.
Qed.

Lemma inside_example (i : nat) :
  (i < 3)%nat -> inside 1 (nth i [-1; 0; 1] 0) = Nat.eqb i 1.
Proof.
  intro Hi. unfold inside.
  destruct i as [| [| [| i]]]; [ | | | lia]; cbn [nth Nat.eqb].
  - apply Rleb_false. unfold Rabs. destruct (Rcase_abs (-1)); lra.
  - apply Rleb_true. unfold Rabs. destruct (Rcase_abs 0); lra.
  - apply Rleb_false. unfold Rabs. destruct (Rcase_abs 1); lra.
Qed.

Lemma gaussian_scattered_dfb_instrumental_single_sample_witness :
  gaussian_scattered_dfb_instrumental [-1; 0; 1] 5 0 1 2 1 (1 / 10)
  = map (fun v => 1 / 10 + v) (scattered_profile [-1; 0; 1] 5 0 1 2 0).
Proof.
  refine (proj2 (gaussian_scattered_dfb_instrumental_single_sample
                   [-1; 0; 1] 5 0 1 2 1 (1 / 10) 1 _ _ _ _) _);
    [lra | lra | simpl; lia | exact inside_example | reflexivity].
Defined.

End SingleSampleBoxcar.

Section FluenceAndOffset.
Import numpy pulsemodels.
Local Open Scope R_scope.

Lemma linear_convolution_scale (k : R) (a b : list R) (n : nat) :
  linear_convolution (map (fun v => k * v) a) b n
  = k * linear_convolution a b n.
Proof.
  unfold linear_convolution. rewrite scal_sum. apply sum_eq.
  intros j _. rewrite nth_map_scale. ring.
Qed.

Lemma oaconvolve_same_scale (k : R) (a b : list R) :
  length a = length b ->
  oaconvolve_same (map (fun v => k * v) a) b
  = map (fun v => k * v) (oaconvolve_same a b).
Proof.
  intro Hlen.
  rewrite !oaconvolve_same_nth_seq by (now rewrite ?length_map).
  rewrite length_map, map_map. apply map_ext. intro i.
  apply linear_convolution_scale.
Qed.

Lemma gaussian_normed_scale (x : list R) (fluence center sigma : R) :
  0 < sigma ->
  gaussian_normed x fluence center sigma
  = map (fun v => fluence * v) (gaussian_normed x 1 center sigma).
Proof.
  intro Hs. rewrite !gaussian_normed_real, map_map.
  apply map_ext. intro xi. field.
  pose proof sqrt_2PI_gt_2. split; lra.
Qed.

Lemma scattered_gaussian_pulse_affine
    (x : list R) (fluence center sigma taus dc : R) :
  0 < sigma ->
  scattered_gaussian_pulse x fluence center sigma taus dc
  = map (fun v => dc + fluence * v)
        (scattered_gaussian_pulse x 1 center sigma taus 0).
Proof.
  intro Hs. rewrite !scattered_gaussian_pulse_elementwise. cbv zeta.
  destruct (fle _ _).
  - rewrite (gaussian_normed_scale x fluence) by exact Hs.
    rewrite !map_map. apply map_ext. intro v. cbn. ring.
  - rewrite map_map. apply map_ext. intro xi. cbn. ring.
Qed.

Lemma scattered_profile_length
    (x : list R) (fluence center sigma taus dc : R) :
  length (scattered_profile x fluence center sigma taus dc) = length x.
Proof.
  unfold scattered_profile. rewrite length_map.
  destruct x as [| x0 x']; [reflexivity | ].
  rewrite oaconvolve_same_length; [apply gaussian_normed_length | ].
  rewrite pbf_isotropic_elementwise. discriminate.
Qed.

Lemma scattered_profile_affine
    (x : list R) (fluence center sigma taus dc : R) :
  0 < sigma ->
  scattered_profile x fluence center sigma taus dc
  = map (fun v => dc + fluence * v)
        (scattered_profile x 1 center sigma taus 0).
Proof.
  intro Hs. unfold scattered_profile.
  rewrite (gaussian_normed_scale x fluence) by exact Hs.
  rewrite oaconvolve_same_scale
    by (rewrite gaussian_normed_length, pbf_isotropic_real;
        now rewrite length_map).
  rewrite !map_map. apply map_ext. intro c. cbn. unfold Rdiv. ring.
Qed.

(** X18.  Over the reals, in each of the four profile models the fluence is
    a linear amplitude and [dc] an additive offset: every sample of
    model(x, fluence, ..., dc) is dc + fluence * s, with s the sample of the
    same model for unit fluence and zero offset. *)
Theorem models_affine_in_fluence_and_offset
    (x : list R) (fluence center sigma taus taui taud dc : R) :
  0 < sigma -> 0 < taus -> 0 < taui -> 0 < taud ->
  taus <> taui -> taus <> taud -> taui <> taud ->
  Exists (fun xi => 0 <= xi) x -> (1 <= samples_inside x taud)%nat ->
  scattered_gaussian_pulse x fluence center sigma taus dc
  = map (fun s => dc + fluence * s)
        (scattered_gaussian_pulse x 1 center sigma taus 0) /\
  gaussian_scattered_afb_instrumental x fluence center sigma taus taui taud dc
  = map (fun s => dc + fluence * s)
        (gaussian_scattered_afb_instrumental x 1 center sigma taus taui taud
                                             0) /\
  scattered_profile x fluence center sigma taus dc
  = map (fun s => dc + fluence * s)
        (scattered_profile x 1 center sigma taus 0) /\
  gaussian_scattered_dfb_instrumental x fluence center sigma taus taud dc
  = map (fun s => dc + fluence * s)
        (gaussian_scattered_dfb_instrumental x 1 center sigma taus taud 0).
Proof.
  intros Hs _ _ _ _ _ _ _ _.
  split; [now apply scattered_gaussian_pulse_affine | ].
  split; [ | split; [now apply scattered_profile_affine | ]].
  - rewrite !gaussian_scattered_afb_instrumental_real. cbv zeta.
    rewrite map_map. apply map_ext. intro i.
    rewrite !(scattered_gaussian_pulse_affine x fluence center sigma _ 0)
      by exact Hs.
    assert (Hnth : forall l,
               nth i (map (fun v => 0 + fluence * v) l) 0
               = fluence * nth i l 0).
    { intro l. rewrite <- nth_map_scale. f_equal.
      apply map_ext. intro v. ring. }
    rewrite !Hnth. unfold Rdiv. ring.
  - unfold gaussian_scattered_dfb_instrumental.
    rewrite !lit_zero_real.
    rewrite (scattered_profile_affine x fluence center sigma taus 0)
      by exact Hs.
    rewrite (map_ext (fun v => 0 + fluence * v) (fun v => fluence * v))
      by (intro v; ring).
    assert (Hlen : length (scattered_profile x 1 center sigma taus 0)
                   = length (boxcar x taud)).
    { rewrite boxcar_real, length_map. apply scattered_profile_length. }
    rewrite oaconvolve_same_scale by exact Hlen.
    rewrite !map_map. apply map_ext. intro c. cbn. unfold Rdiv. ring.
Qed.

Lemma models_affine_in_fluence_and_offset_witness :
  scattered_profile [-1; 0; 1] 5 0 1 2 (1 / 10)
  = map (fun s => 1 / 10 + 5 * s) (scattered_profile [-1; 0; 1] 1 0 1 2 0).
Proof.
  refine (proj1 (proj2 (proj2
            (models_affine_in_fluence_and_offset
               [-1; 0; 1] 5 0 1 2 3 (3 / 2) (1 / 10) _ _ _ _ _ _ _ _ _))));
    try lra.
  - apply Exists_cons_tl, Exists_cons_hd. lra.
  - rewrite samples_inside_example. lia.
Defined.

End FluenceAndOffset.

(* ================================================================= *)
(** * Invariants of the fitting loop *)

Section RunInvariants.
Context {F : Type} `{Arith F} `{Elementary F}.
Import numpy fit_frb.
Local Open Scope string_scope.
Local Open Scope list_scope.

Variable lmfit_fit :
  model_function (F := F) -> list F -> list F ->
  list (LmfitParameter (F := F)) -> string -> option EmceeKws ->
  outcome (ModelResult (F := F)).
Variable get_dm_smearing : F -> F -> F -> F.

(** A completed [fit_profile_model] made the least-squares call and then
    the sampler call, and returns what the sampler returned. *)
Lemma fit_profile_model_Ok_inv (fit_range profile : list F) (dm_smear : F)
    (t : list event) (r : ModelResult) :
  fit_profile_model lmfit_fit fit_range profile dm_smear = (t, Ok r) ->
  exists ml,
    lmfit_fit pulsemodels.gaussian_scattered_dfb_instrumental profile
              fit_range (make_fitparams dm_smear) "leastsq" None = Ok ml /\
    success ml = true /\
    lmfit_fit pulsemodels.gaussian_scattered_dfb_instrumental profile
              fit_range (make_emcee_params ml) "emcee"
              (Some (mkEmceeKws 6000 700 20 false true)) = Ok r /\
    t = [FitCall "leastsq" profile fit_range (make_fitparams dm_smear);
         FitCall "emcee" profile fit_range (make_emcee_params ml)].
Proof.
  unfold fit_profile_model.
  destruct (lmfit_fit _ profile fit_range (make_fitparams dm_smear)
                      "leastsq" None) as [ml | e] eqn:Hml;
    [ | cbn; discriminate].
  cbn. destruct (success ml) eqn:Hsucc; [ | cbn; discriminate].
  cbn.
  destruct (lmfit_fit _ profile fit_range (make_emcee_params ml) "emcee" _)
    as [r' | e] eqn:Hem; cbn; [ | discriminate].
  intro Heq. injection Heq as <- <-. now exists ml.
Qed.

(** A completed iteration of the loop either skipped the sub-band or
    appended one row for it after the two fitter calls. *)
Lemma loop_body_Ok_inv
    (cand : Candidate) (plot_range : list F) (fscrunch_factor : Z)
    (f0 : F) (tl : list F) (chan_bw : F) (df df' : list SubBandRecord)
    (iband : nat) (t : list event) :
  loop_body lmfit_fit get_dm_smearing cand plot_range fscrunch_factor
            (f0 :: tl) chan_bw df iband = (t, Ok df') ->
  (t = [] /\ df' = df) \/
  (exists row,
      df' = df ++ [row] /\ band row = iband /\
      cfreq row = sub_band_cfreq f0 iband fscrunch_factor chan_bw /\
      map call_method t = ["leastsq"; "emcee"]).
Proof.
  unfold loop_body. intro Hrun.
  apply mbind_Ok_inv in Hrun. destruct Hrun as (t1 & sp & t2 & H1 & Hrun & ->).
  apply mbind_Ok_inv in Hrun.
  destruct Hrun as (t3 & [fr w] & t4 & H3 & Hrun & ->).
  apply mbind_Ok_inv in Hrun. destruct Hrun as (t5 & p & t6 & H5 & Hrun & ->).
  apply mbind_Ok_inv in Hrun. destruct Hrun as (t7 & snr & t8 & H7 & Hrun & ->).
  unfold lift in H1, H3, H5, H7.
  injection H1 as <- _. injection H3 as <- _. injection H5 as <- _.
  injection H7 as <- _. cbn [app].
  destruct (negb (fle (lit 3.7) snr)).
  - left. unfold mret in Hrun. injection Hrun as <- <-. now split.
  - right. cbn [getitem nth_error] in Hrun. rewrite mbind_lift_Ok in Hrun.
    apply mbind_Ok_inv in Hrun.
    destruct Hrun as (t9 & r & t10 & Hfit & Hrun & ->).
    apply mbind_Ok_inv in Hrun.
    destruct Hrun as (t11 & [fluxsum weq] & t12 & Hstat & Hrun & ->).
    unfold lift in Hstat. injection Hstat as <- _.
    unfold mret in Hrun. injection Hrun as <- <-.
    apply fit_profile_model_Ok_inv in Hfit.
    destruct Hfit as (ml & _ & _ & _ & ->).
    eexists. split; [reflexivity | ]. repeat split.
Qed.

Lemma StronglySorted_snoc (l : list nat) (k : nat) :
  StronglySorted lt l -> Forall (fun b => (b < k)%nat) l ->
  StronglySorted lt (l ++ [k]).
Proof.
  induction 1 as [| b l Hl IH Hb]; intro Hlt; cbn [app].
  - constructor; constructor.
  - inversion Hlt; subst. constructor; [now apply IH | ].
    apply Forall_app. split; [exact Hb | now constructor].
Qed.

(** The state of the loop after the sub-bands below [k]: one pair of fitter
    calls per row, rows in increasing band order, each with the centre
    frequency of its band. *)
Lemma for_each_invariant
    (cand : Candidate) (plot_range : list F) (fscrunch_factor : Z)
    (f0 : F) (tl : list F) (chan_bw : F) (k : nat)
    (t : list event) (df : list SubBandRecord) :
  for_each (seq 0 k)
           (loop_body lmfit_fit get_dm_smearing cand plot_range
                      fscrunch_factor (f0 :: tl) chan_bw) [] = (t, Ok df) ->
  map call_method t = flat_map (fun _ => ["leastsq"; "emcee"]) df /\
  (length df <= k)%nat /\
  StronglySorted lt (map band df) /\
  Forall (fun row =>
            (band row < k)%nat /\
            cfreq row = sub_band_cfreq f0 (band row) fscrunch_factor chan_bw)
         df.
Proof.
  revert t df. induction k as [| k IH]; intros t df Hrun.
  - cbn in Hrun. injection Hrun as <- <-. repeat split; constructor.
  - rewrite seq_S, for_each_app in Hrun. cbn [Nat.add] in Hrun.
    apply mbind_Ok_inv in Hrun.
    destruct Hrun as (t1 & df1 & t2 & Hbefore & Hlast & ->).
    destruct (IH _ _ Hbefore) as (Hcalls & Hcount & Hsorted & Hrows).
    cbn [for_each] in Hlast. apply mbind_Ok_inv in Hlast.
    destruct Hlast as (t3 & df2 & t4 & Hbody & Hret & ->).
    unfold mret in Hret. injection Hret as <- <-. rewrite app_nil_r.
    assert (Hweaken : Forall (fun row =>
              (band row < S k)%nat /\
              cfreq row = sub_band_cfreq f0 (band row) fscrunch_factor chan_bw)
              df1).
    { eapply Forall_impl; [ | exact Hrows].
      intros row [Hb Hc]. split; [lia | exact Hc]. }
    apply loop_body_Ok_inv in Hbody.
    destruct Hbody as [[-> ->] | (row & -> & Hband & Hcfreq & Hcall)].
    + rewrite app_nil_r. repeat split; auto.
    + rewrite map_app, flat_map_app, Hcalls, Hcall. cbn [flat_map app].
      split; [reflexivity | ].
      split; [rewrite length_app; cbn [length]; lia | ]. split.
      * rewrite map_app. cbn [map]. rewrite Hband.
        apply StronglySorted_snoc; [exact Hsorted | ].
        apply Forall_map. eapply Forall_impl; [ | exact Hrows].
        now intros r [Hr _].
      * apply Forall_app. split; [exact Hweaken | ].
        constructor; [ | constructor]. rewrite Hband.
        split; [lia | exact Hcfreq].
Qed.

(** X19.  When [fit_profile] completes, the fitter was called exactly twice
    per row of the table, a least-squares call followed by a sampler call;
    the table has at most one row per sub-band, the rows are in strictly
    increasing order of sub-band index, every index is below the number of
    sub-bands, and every row carries the centre frequency
    freqs[0] + (0.5 + band)*fscrunch_factor*(freqs[1] - freqs[0]) of its
    sub-band. *)
Theorem fit_profile_table
    (cand : Candidate) (plot_range : list F) (fscrunch_factor : Z)
    (trace : list event) (table : list ResultRow) :
  fit_profile lmfit_fit get_dm_smearing cand plot_range fscrunch_factor
  = (trace, Ok table) ->
  exists f0 f1 rest,
    chan_freqs cand = f0 :: f1 :: rest /\
    map call_method trace = flat_map (fun _ => ["leastsq"; "emcee"]) table /\
    (length table <= length (dedispersed_T cand))%nat /\
    StronglySorted lt (map (fun row => band (fitted row)) table) /\
    Forall (fun row =>
              (band (fitted row) < length (dedispersed_T cand))%nat /\
              cfreq (fitted row)
              = sub_band_cfreq f0 (band (fitted row)) fscrunch_factor
                               (fsub f1 f0))
           table.
Proof.
  unfold fit_profile. intro Hrun.
  destruct (chan_freqs cand) as [| f0 [| f1 rest]];
    [discriminate Hrun | discriminate Hrun | ].
  exists f0, f1, rest. split; [reflexivity | ].
  cbn [getitem nth_error] in Hrun. rewrite !mbind_lift_Ok in Hrun.
  apply mbind_Ok_inv in Hrun.
  destruct Hrun as (t1 & df & t2 & Hloop & Hret & ->).
  unfold mret in Hret. injection Hret as <- <-. rewrite app_nil_r.
  apply for_each_invariant in Hloop.
  destruct Hloop as (Hcalls & Hcount & Hsorted & Hrows).
  split; [ | split; [ | split]].
  - rewrite Hcalls. clear. induction df as [| r df IH]; [reflexivity | ].
    cbn [flat_map map app]. now rewrite IH.
  - now rewrite length_map.
  - now rewrite map_map.
  - apply Forall_map. exact Hrows.
Qed.

(** X20.  [fit_profile] raises [IndexError] without calling the fitter when
    the candidate has fewer than two channel frequencies, and returns an
    empty table without calling the fitter when it has two or more channel
    frequencies and no sub-band. *)
Theorem fit_profile_degenerate_candidate
    (cand : Candidate) (plot_range : list F) (fscrunch_factor : Z) :
  ((length (chan_freqs cand) < 2)%nat ->
   fit_profile lmfit_fit get_dm_smearing cand plot_range fscrunch_factor
   = ([], Raise IndexError)) /\
  ((2 <= length (chan_freqs cand))%nat -> dedispersed_T cand = [] ->
   fit_profile lmfit_fit get_dm_smearing cand plot_range fscrunch_factor
   = ([], Ok [])).
Proof.
  unfold fit_profile. split.
  - intro Hlen. destruct (chan_freqs cand) as [| f0 [| f1 rest]];
      [reflexivity | reflexivity | simpl in Hlen; lia].
  - intros Hlen Hbands. destruct (chan_freqs cand) as [| f0 [| f1 rest]];
      [simpl in Hlen; lia | simpl in Hlen; lia | ].
    rewrite Hbands. reflexivity.
Qed.

(** X21.  A sub-band that cannot be windowed ends the run: when its number
    of samples differs from that of the time axis the run raises
    [IndexError], and when no sample of the time axis lies within 200 ms of
    the burst the run raises [ValueError]; in both cases the fitter is not
    called for that sub-band and no table is returned. *)
Theorem window_failure_aborts_run
    (cand : Candidate) (plot_range : list F) (fscrunch_factor : Z)
    (f0 f1 : F) (rest : list F) (iband : nat)
    (events_before : list event) (df : list SubBandRecord)
    (sub_profile : list F) :
  chan_freqs cand = f0 :: f1 :: rest ->
  for_each (seq 0 iband)
           (loop_body lmfit_fit get_dm_smearing cand plot_range
                      fscrunch_factor (chan_freqs cand) (fsub f1 f0)) []
  = (events_before, Ok df) ->
  nth_error (dedispersed_T cand) iband = Some sub_profile ->
  (length sub_profile <> length plot_range ->
   fit_profile lmfit_fit get_dm_smearing cand plot_range fscrunch_factor
   = (events_before, Raise IndexError)) /\
  (length sub_profile = length plot_range ->
   Forall (fun t => fle (fabs t) (lit 200.0) = false) plot_range ->
   fit_profile lmfit_fit get_dm_smearing cand plot_range fscrunch_factor
   = (events_before, Raise ValueError)).
Proof.
  intros Hfreqs Hbefore Hband.
  assert (Hlt : (iband < length (dedispersed_T cand))%nat)
    by (apply nth_error_Some; now rewrite Hband).
  assert (Hrun : forall e,
             loop_body lmfit_fit get_dm_smearing cand plot_range
                       fscrunch_factor (chan_freqs cand) (fsub f1 f0) df iband
             = ([], Raise e) ->
             fit_profile lmfit_fit get_dm_smearing cand plot_range
                         fscrunch_factor = (events_before, Raise e)).
  { intros e Hbody. unfold fit_profile. rewrite Hfreqs in Hbefore, Hbody |- *.
    cbn [getitem nth_error]. rewrite !mbind_lift_Ok.
    replace (length (dedispersed_T cand))
      with (iband + S (length (dedispersed_T cand) - S iband))%nat by lia.
    rewrite seq_app. cbn [seq Nat.add].
    rewrite (for_each_raise _ _ _ _ _ _ _ _ _ Hbefore Hbody).
    now rewrite app_nil_r. }
  split.
  - intro Hlen. apply Hrun. unfold loop_body, getitem at 1.
    rewrite Hband, mbind_lift_Ok. unfold window, getitem_mask.
    rewrite length_map.
    destruct (Nat.eqb (length plot_range) (length sub_profile)) eqn:Heq;
      [apply Nat.eqb_eq in Heq; now elim Hlen | reflexivity].
  - intros Hlen Hfar. apply Hrun. unfold loop_body, getitem at 1.
    rewrite Hband, mbind_lift_Ok. unfold window, getitem_mask.
    rewrite length_map, Hlen, Nat.eqb_refl. cbn [obind].
    rewrite !(compress_none (fun t => fle (fabs t) (lit 200.0)))
      by exact Hfar.
    reflexivity.
Qed.

(** X22.  Windowing succeeds exactly on equally long inputs; it keeps, in
    order and paired with their times, the samples whose time lies within
    200 ms of the burst, and nothing else. *)
Theorem window_keeps_pairs (plot_range sub_profile : list F) :
  (length plot_range <> length sub_profile ->
   window plot_range sub_profile = Raise IndexError) /\
  (length plot_range = length sub_profile ->
   exists fit_range windowed,
     window plot_range sub_profile = Ok (fit_range, windowed) /\
     combine fit_range windowed
     = filter (fun p => fle (fabs (fst p)) (lit 200.0))
              (combine plot_range sub_profile) /\
     length fit_range = length windowed /\
     Forall (fun t => fle (fabs t) (lit 200.0) = true) fit_range).
Proof.
  unfold window, getitem_mask. rewrite length_map. split; intro Hlen.
  - destruct (Nat.eqb _ _) eqn:Heq;
      [apply Nat.eqb_eq in Heq; now elim Hlen | reflexivity].
  - rewrite Hlen, Nat.eqb_refl. cbn [obind].
    eexists. eexists. split; [reflexivity | ].
    set (p := fun t => fle (fabs t) (lit 200.0)).
    split; [ | split].
    + revert sub_profile Hlen.
      induction plot_range as [| t ts IH]; intros [| v vs] Hlen;
        try discriminate; [reflexivity | ].
      cbn [map compress combine filter fst]. fold (p t).
      destruct (p t); cbn [combine]; rewrite IH by (simpl in Hlen; lia);
        reflexivity.
    + rewrite !compress_length by (rewrite length_map; congruence).
      reflexivity.
    + rewrite compress_filter. apply Forall_forall. intros t Ht.
      now apply filter_In in Ht.
Qed.

End RunInvariants.

Section GatedRows.
Context {F : Type} `{Arith F} `{Elementary F}.
Import numpy fit_frb.
Local Open Scope string_scope.
Local Open Scope list_scope.

Variable lmfit_fit :
  model_function (F := F) -> list F -> list F ->
  list (LmfitParameter (F := F)) -> string -> option EmceeKws ->
  outcome (ModelResult (F := F)).
Variable get_dm_smearing : F -> F -> F -> F.

(** A completed iteration went through the four stages before the gate, and
    appended a row exactly when the gate let the sub-band through. *)
Lemma loop_body_Ok_stages
    (cand : Candidate) (plot_range : list F) (fscrunch_factor : Z)
    (freqs : list F) (chan_bw : F) (df df' : list SubBandRecord)
    (iband : nat) (t : list event) :
  loop_body lmfit_fit get_dm_smearing cand plot_range fscrunch_factor
            freqs chan_bw df iband = (t, Ok df') ->
  exists sub_profile fit_range windowed profile snr,
    nth_error (dedispersed_T cand) iband = Some sub_profile /\
    window plot_range sub_profile = Ok (fit_range, windowed) /\
    normalise windowed = Ok profile /\
    profile_snr fit_range profile = Ok snr /\
    ((fle (lit 3.7) snr = false /\ df' = df) \/
     (fle (lit 3.7) snr = true /\
      exists row, df' = df ++ [row] /\ band row = iband)).
Proof.
  unfold loop_body. intro Hrun.
  apply mbind_Ok_inv in Hrun. destruct Hrun as (t1 & sp & t2 & H1 & Hrun & ->).
  apply mbind_Ok_inv in Hrun.
  destruct Hrun as (t3 & [fr w] & t4 & H3 & Hrun & ->).
  apply mbind_Ok_inv in Hrun. destruct Hrun as (t5 & p & t6 & H5 & Hrun & ->).
  apply mbind_Ok_inv in Hrun. destruct Hrun as (t7 & snr & t8 & H7 & Hrun & ->).
  unfold lift in H1, H3, H5, H7.
  injection H1 as _ H1. injection H3 as _ H3. injection H5 as _ H5.
  injection H7 as _ H7.
  exists sp, fr, w, p, snr.
  split.
  { unfold getitem in H1. destruct (nth_error (dedispersed_T cand) iband);
      [now injection H1 as -> | discriminate]. }
  split; [exact H3 | ]. split; [exact H5 | ]. split; [exact H7 | ].
  destruct (fle (lit 3.7) snr); cbn [negb] in Hrun.
  - right. split; [reflexivity | ].
    apply mbind_Ok_inv in Hrun. destruct Hrun as (t9 & f0 & t10 & _ & Hrun & _).
    apply mbind_Ok_inv in Hrun. destruct Hrun as (t11 & r & t12 & _ & Hrun & _).
    apply mbind_Ok_inv in Hrun.
    destruct Hrun as (t13 & [fluxsum weq] & t14 & _ & Hrun & _).
    unfold mret in Hrun. injection Hrun as _ <-.
    eexists. split; reflexivity.
  - left. unfold mret in Hrun. injection Hrun as _ <-. now split.
Qed.

(** The state of the loop after the sub-bands below [k]: the table holds a
    row for exactly those of them that passed the gate. *)
Lemma for_each_gated
    (cand : Candidate) (plot_range : list F) (fscrunch_factor : Z)
    (freqs : list F) (chan_bw : F) (k : nat)
    (t : list event) (df : list SubBandRecord) :
  for_each (seq 0 k)
           (loop_body lmfit_fit get_dm_smearing cand plot_range
                      fscrunch_factor freqs chan_bw) [] = (t, Ok df) ->
  Forall (fun b => (b < k)%nat) (map band df) /\
  forall iband, (iband < k)%nat ->
    exists sub_profile fit_range windowed profile snr,
      nth_error (dedispersed_T cand) iband = Some sub_profile /\
      window plot_range sub_profile = Ok (fit_range, windowed) /\
      normalise windowed = Ok profile /\
      profile_snr fit_range profile = Ok snr /\
      (In iband (map band df) <-> fle (lit 3.7) snr = true).
Proof.
  revert t df. induction k as [| k IH]; intros t df Hrun.
  - cbn in Hrun. injection Hrun as _ <-. split; [constructor | intros; lia].
  - rewrite seq_S, for_each_app in Hrun. cbn [Nat.add] in Hrun.
    apply mbind_Ok_inv in Hrun.
    destruct Hrun as (t1 & df1 & t2 & Hbefore & Hlast & _).
    destruct (IH _ _ Hbefore) as (Hbands & Hgated).
    cbn [for_each] in Hlast. apply mbind_Ok_inv in Hlast.
    destruct Hlast as (t3 & df2 & t4 & Hbody & Hret & _).
    unfold mret in Hret. injection Hret as _ <-.
    apply loop_body_Ok_stages in Hbody.
    destruct Hbody
      as (sp & fr & w & p & snr & Hsp & Hwin & Hnorm & Hsnr & Hgate).
    assert (Hfresh : ~ In k (map band df1)).
    { intro Hin. rewrite Forall_forall in Hbands.
      specialize (Hbands k Hin). lia. }
    assert (Hweaken : Forall (fun b => (b < S k)%nat) (map band df1)).
    { eapply Forall_impl; [ | exact Hbands]. intros b Hb. cbv beta in Hb. lia. }
    destruct Hgate as [[Hlow ->] | [Hhigh (row & -> & Hrow)]].
    + split; [exact Hweaken | ].
      intros iband Hi. destruct (Nat.eq_dec iband k) as [-> | Hne].
      * exists sp, fr, w, p, snr.
        split; [exact Hsp | ]. split; [exact Hwin | ].
        split; [exact Hnorm | ]. split; [exact Hsnr | ].
        split; [intro Hin; now elim Hfresh | intro Hhigh; congruence].
      * apply Hgated. lia.
    + split.
      * rewrite map_app. apply Forall_app. split; [exact Hweaken | ].
        cbn [map]. constructor; [rewrite Hrow; lia | constructor].
      * intros iband Hi. destruct (Nat.eq_dec iband k) as [-> | Hne].
        -- exists sp, fr, w, p, snr.
           split; [exact Hsp | ]. split; [exact Hwin | ].
           split; [exact Hnorm | ]. split; [exact Hsnr | ].
           split; [intros _; exact Hhigh | ].
           intros _. rewrite map_app. apply in_or_app. right.
           cbn [map]. left. exact Hrow.
        -- destruct (Hgated iband ltac:(lia))
             as (sp' & fr' & w' & p' & snr' & H1 & H2 & H3 & H4 & Hiff).
           exists sp', fr', w', p', snr'.
           split; [exact H1 | ]. split; [exact H2 | ].
           split; [exact H3 | ]. split; [exact H4 | ].
           split.
           ++ intro Hin. apply Hiff. rewrite map_app in Hin.
              apply in_app_or in Hin.
              destruct Hin as [Hin | Hin]; [exact Hin | ].
              cbn [map] in Hin. destruct Hin as [Hin | []]. lia.
           ++ intro Hg. rewrite map_app. apply in_or_app. left. now apply Hiff.
Qed.

(** X23.  When [fit_profile] completes, every sub-band was windowed and
    normalised and has a signal-to-noise ratio, and the table holds a row
    for a sub-band exactly when that ratio is at least 3.7. *)
Theorem fit_profile_rows_are_gated
    (cand : Candidate) (plot_range : list F) (fscrunch_factor : Z)
    (trace : list event) (table : list ResultRow) :
  fit_profile lmfit_fit get_dm_smearing cand plot_range fscrunch_factor
  = (trace, Ok table) ->
  forall iband, (iband < length (dedispersed_T cand))%nat ->
    exists sub_profile fit_range windowed profile snr,
      nth_error (dedispersed_T cand) iband = Some sub_profile /\
      window plot_range sub_profile = Ok (fit_range, windowed) /\
      normalise windowed = Ok profile /\
      profile_snr fit_range profile = Ok snr /\
      (In iband (map (fun row => band (fitted row)) table)
       <-> fle (lit 3.7) snr = true).
Proof.
  unfold fit_profile. intros Hrun iband Hi.
  apply mbind_Ok_inv in Hrun. destruct Hrun as (t1 & f1 & t2 & _ & Hrun & _).
  apply mbind_Ok_inv in Hrun. destruct Hrun as (t3 & f0 & t4 & _ & Hrun & _).
  apply mbind_Ok_inv in Hrun.
  destruct Hrun as (t5 & df & t6 & Hloop & Hret & _).
  unfold mret in Hret. injection Hret as _ <-.
  apply for_each_gated in Hloop. destruct Hloop as [_ Hgated].
  destruct (Hgated iband Hi)
    as (sp & fr & w & p & snr & H1 & H2 & H3 & H4 & Hiff).
  exists sp, fr, w, p, snr.
  split; [exact H1 | ]. split; [exact H2 | ].
  split; [exact H3 | ]. split; [exact H4 | ].
  rewrite map_map. exact Hiff.
Qed.

End GatedRows.


Section RunWitnesses.
Import numpy pulsemodels fit_frb.
Local Open Scope float_scope.

Lemma fit_profile_table_witness :
  exists trace table,
    fit_profile (H0 := example.elementary) (example.fitter true)
                example.smearing example.candidate example.time_axis 256
    = (trace, Ok table) /\
    map call_method trace = ["leastsq"; "emcee"]%string /\
    map (fun row => band (fitted row)) table = [2%nat].
Proof.
  eexists. eexists. split; [vm_compute; reflexivity | ].
  edestruct (fit_profile_table (H0 := example.elementary)
               (example.fitter true) example.smearing example.candidate
               example.time_axis 256) as (f0 & f1 & rest & _ & Hcalls & _);
    [vm_compute; reflexivity | ].
  split; [exact Hcalls | reflexivity].
Defined.

Lemma fit_profile_rows_are_gated_witness :
  exists trace table,
    fit_profile (H0 := example.elementary) (example.fitter true)
                example.smearing example.candidate example.time_axis 256
    = (trace, Ok table) /\
    forall iband, (iband < 4)%nat ->
      exists sub_profile fit_range windowed profile snr,
        nth_error (dedispersed_T example.candidate) iband = Some sub_profile /\
        window example.time_axis sub_profile = Ok (fit_range, windowed) /\
        normalise windowed = Ok profile /\
        profile_snr fit_range profile = Ok snr /\
        (In iband (map (fun row => band (fitted row)) table)
         <-> fle (lit 3.7) snr = true).
Proof.
  eexists. eexists. split; [vm_compute; reflexivity | ].
  intros iband Hi.
  eapply (fit_profile_rows_are_gated (H0 := example.elementary)
            (example.fitter true) example.smearing example.candidate
            example.time_axis 256);
    [vm_compute; reflexivity | exact Hi].
Defined.

Lemma fit_profile_degenerate_candidate_witness :
  fit_profile (H0 := example.elementary) (example.fitter true)
              example.smearing (mkCandidate [1400] [example.strong_band] 100)
              example.time_axis 256
  = ([], Raise IndexError) /\
  fit_profile (H0 := example.elementary) (example.fitter true)
              example.smearing (mkCandidate [1400; 1399] [] 100)
              example.time_axis 256
  = ([], Ok []).
Proof.
  split.
  - apply (proj1 (fit_profile_degenerate_candidate
                    (H0 := example.elementary) (example.fitter true)
                    example.smearing
                    (mkCandidate [1400] [example.strong_band] 100)
                    example.time_axis 256)).
    simpl. lia.
  - apply (proj2 (fit_profile_degenerate_candidate
                    (H0 := example.elementary) (example.fitter true)
                    example.smearing (mkCandidate [1400; 1399] [] 100)
                    example.time_axis 256));
      [simpl; lia | reflexivity].
Defined.

Lemma window_failure_aborts_run_witness :
  fit_profile (H0 := example.elementary) (example.fitter true)
              example.smearing (mkCandidate [1400; 1399] [[1; 2; 3]] 100)
              example.time_axis 256
  = ([], Raise IndexError) /\
  fit_profile (H0 := example.elementary) (example.fitter true)
              example.smearing (mkCandidate [1400; 1399] [[1; 2; 3]] 100)
              [300; 400; 500] 256
  = ([], Raise ValueError).
Proof.
  split.
  - apply (proj1 (window_failure_aborts_run (H0 := example.elementary)
                    (example.fitter true) example.smearing
                    (mkCandidate [1400; 1399] [[1; 2; 3]] 100)
                    example.time_axis 256 1400 1399 [] 0 [] [] [1; 2; 3]
                    eq_refl eq_refl eq_refl)).
    simpl. lia.
  - apply (proj2 (window_failure_aborts_run (H0 := example.elementary)
                    (example.fitter true) example.smearing
                    (mkCandidate [1400; 1399] [[1; 2; 3]] 100)
                    [300; 400; 500] 256 1400 1399 [] 0 [] [] [1; 2; 3]
                    eq_refl eq_refl eq_refl));
      [reflexivity | repeat constructor].
Defined.

Lemma window_keeps_pairs_witness :
  window [-300; -1; 0; 250] [1; 2; 3] = Raise IndexError /\
  exists fit_range windowed,
    window [-300; -1; 0; 250] [1; 2; 3; 4] = Ok (fit_range, windowed) /\
    combine fit_range windowed = [(-1, 2); (0, 3)].
Proof.
  split.
  - apply (proj1 (window_keeps_pairs [-300; -1; 0; 250] [1; 2; 3])).
    simpl. lia.
  - destruct (proj2 (window_keeps_pairs [-300; -1; 0; 250] [1; 2; 3; 4])
                eq_refl) as (fit_range & windowed & Hwin & Hpairs & _).
    exists fit_range, windowed. split; [exact Hwin | ].
    rewrite Hpairs. vm_compute. reflexivity.
Defined.

End RunWitnesses.

(* ================================================================= *)
(** * Normalisation, profile statistics and the time axis over the reals *)

Section NormaliseTheorem.
Import numpy fit_frb.
Local Open Scope R_scope.

Lemma sum_map_affine (k c : R) (l : list R) :
  sum (map (fun v => k * v + c) l) = k * sum l + INR (length l) * c.
Proof.
  induction l as [| v l IH].
  - cbn [map length]. rewrite sum_nil. simpl. lra.
  - cbn [map length]. rewrite !sum_cons, IH, S_INR. lra.
Qed.

(** The peak of a profile with two different samples, after the mean is
    removed, is positive. *)
Lemma shifted_peak_pos (l : list R) (a b : R) :
  In a l -> In b l -> a <> b ->
  exists peak, max (map (fun v => v - mean l) l) = Ok peak /\ 0 < peak.
Proof.
  intros Ha Hb Hab.
  set (mu := mean l). set (shifted := map (fun v => v - mu) l).
  assert (Hn : 0 < INR (length l)).
  { apply lt_0_INR. destruct l; [contradiction | simpl; lia]. }
  assert (Hsum : sum shifted = 0).
  { unfold shifted. rewrite sum_map_shift. unfold mu. rewrite mean_real.
    field. lra. }
  assert (Hne : shifted <> []).
  { unfold shifted. destruct l; [contradiction | discriminate]. }
  destruct (max_nonempty shifted Hne) as [peak Hpeak].
  exists peak. split; [exact Hpeak | ].
  destruct (Rlt_le_dec 0 peak) as [Hlt | Hle]; [exact Hlt | exfalso].
  assert (Hzero : Forall (fun v => v = 0) shifted).
  { apply sum_nonpos_zero; [ | exact Hsum].
    eapply Forall_impl; [ | apply (max_upper_bound shifted peak Hpeak)].
    intros v Hv. cbv beta in Hv. lra. }
  rewrite Forall_forall in Hzero.
  assert (Ha0 : a - mu = 0)
    by (apply Hzero; unfold shifted; apply in_map_iff; now exists a).
  assert (Hb0 : b - mu = 0)
    by (apply Hzero; unfold shifted; apply in_map_iff; now exists b).
  apply Hab. lra.
Qed.

(** X24.  Over the reals, a windowed profile that holds two different samples
    is normalised to a profile of the same length whose samples sum to zero
    (the baseline is removed) and whose maximum is exactly 1. *)
Theorem normalise_unit_peak (sub_profile : list R) (a b : R) :
  In a sub_profile -> In b sub_profile -> a <> b ->
  exists profile,
    normalise sub_profile = Ok profile /\
    length profile = length sub_profile /\
    sum profile = 0 /\
    max profile = Ok 1.
Proof.
  intros Ha Hb Hab.
  destruct (shifted_peak_pos sub_profile a b Ha Hb Hab)
    as (peak & Hpeak & Hpos).
  assert (Hn : 0 < INR (length sub_profile)).
  { apply lt_0_INR. destruct sub_profile; [contradiction | simpl; lia]. }
  unfold normalise.
  change (fun v : R => fsub v ?m) with (fun v : R => v - m).
  set (shifted := map (fun v => v - mean sub_profile) sub_profile) in *.
  assert (Hsum : sum shifted = 0).
  { unfold shifted. rewrite sum_map_shift, mean_real. field. lra. }
  rewrite Hpeak. cbn [obind]. eexists. split; [reflexivity | ].
  rewrite (map_ext (fun v => fdiv v peak) (fun v => / peak * v))
    by (intro v; cbn; unfold Rdiv; ring).
  split; [ | split].
  - unfold shifted. now rewrite !length_map.
  - rewrite sum_map_scale, Hsum. ring.
  - rewrite (max_scale (/ peak) shifted peak);
      [f_equal; field; lra | | exact Hpeak].
    left. now apply Rinv_0_lt_compat.
Qed.

Lemma normalise_unit_peak_witness :
  exists profile,
    normalise [1; 3; 2] = Ok profile /\
    length profile = 3%nat /\ sum profile = 0 /\ max profile = Ok 1.
Proof.
  apply (normalise_unit_peak [1; 3; 2] 1 3); [simpl; auto | simpl; auto | lra].
Defined.

(** X25.  Over the reals, normalisation does not see the baseline or the
    scale of the data: for a profile with two different samples, multiplying
    every sample by k > 0 and adding an offset c gives the same normalised
    profile. *)
Theorem normalise_affine_invariant (sub_profile : list R) (k c a b : R) :
  0 < k -> In a sub_profile -> In b sub_profile -> a <> b ->
  normalise (map (fun v => k * v + c) sub_profile) = normalise sub_profile.
Proof.
  intros Hk Ha Hb Hab.
  destruct (shifted_peak_pos sub_profile a b Ha Hb Hab)
    as (peak & Hpeak & Hpos).
  assert (Hn : 0 < INR (length sub_profile)).
  { apply lt_0_INR. destruct sub_profile; [contradiction | simpl; lia]. }
  assert (Hmean : mean (map (fun v => k * v + c) sub_profile)
                  = k * mean sub_profile + c).
  { rewrite !mean_real, sum_map_affine, length_map. field. lra. }
  unfold normalise. rewrite Hmean.
  change (fun v : R => fsub v ?m) with (fun v : R => v - m).
  rewrite map_map.
  rewrite (map_ext (fun v => k * v + c - (k * mean sub_profile + c))
                   (fun v => k * (v - mean sub_profile)))
    by (intro v; ring).
  rewrite <- (map_map (fun v => v - mean sub_profile) (fun u => k * u)).
  rewrite Hpeak, (max_scale k _ peak) by (lra || exact Hpeak).
  cbn [obind]. f_equal. rewrite map_map. apply map_ext. intro v.
  cbn. field. split; lra.
Qed.

Lemma normalise_affine_invariant_witness :
  normalise (map (fun v => 3 * v + 10) [1; 3; 2]) = normalise [1; 3; 2].
Proof.
  apply (normalise_affine_invariant [1; 3; 2] 3 10 1 3);
    [lra | simpl; auto | simpl; auto | lra].
Defined.

(** X26.  The equivalent width that the loop stores for a fitted sub-band is
    the one [pulsemodels.equivalent_width] computes from the fit's time
    axis and best-fit curve, exceptions included. *)
Theorem profile_statistics_weq (fit_range : list R)
    (fitresult : ModelResult (F := R)) :
  obind (profile_statistics fit_range fitresult) (fun s => Ok (snd s))
  = pulsemodels.equivalent_width fit_range (best_fit fitresult).
Proof.
  unfold profile_statistics, pulsemodels.equivalent_width.
  destruct fit_range as [| t0 [| t1 rest]]; try reflexivity.
  cbn [getitem nth_error obind].
  destruct (max (best_fit fitresult)) as [peak | e]; [ | reflexivity].
  cbn [obind snd].
  change (fabs (fsub t1 t0)) with (Rabs (t1 - t0)).
  change (fabs (fsub t0 t1)) with (Rabs (t0 - t1)).
  now rewrite (Rabs_minus_sym t1 t0).
Qed.

End NormaliseTheorem.

Section TimeAxis.
Import numpy fit_frb.
Local Open Scope R_scope.

(** [np.linspace(0, stop, num)] over the reals. *)
Lemma linspace_real (stop : R) (num : nat) :
  (2 <= num)%nat ->
  linspace 0 stop num
  = map (fun i => INR i * stop / INR (num - 1)) (seq 0 num).
Proof.
  intro Hnum. destruct num as [| [| k]]; [lia | lia | ].
  unfold linspace. apply map_ext_in. intros i Hi.
  replace (S (S k) - 1)%nat with (S k) by lia.
  assert (Hk : 0 < INR (S k)) by (apply lt_0_INR; lia).
  change (of_int (Z.of_nat ?n)) with (IZR (Z.of_nat n)).
  rewrite <- !INR_IZR_INZ.
  destruct (Nat.eqb i (S k)) eqn:Hlast.
  - apply Nat.eqb_eq in Hlast. subst i. field. lra.
  - change (of_int 0) with 0.
    change fsub with Rminus. change fdiv with Rdiv.
    change fmul with Rmult. change fadd with Rplus.
    destruct (andb _ _); field; lra.
Qed.

(** X27.  Over the reals, for a profile of n >= 2 samples and with
    b = argmax(profile), the time axis built by [main] has n samples, sample
    i being fact*(n/(n-1)*i - b) with fact = 1000*tsamp*tscrunch_factor:
    consecutive samples are fact*n/(n-1) apart, and the sample at the burst
    bin b is fact*b/(n-1), which is zero only when fact = 0 or b = 0. *)
Theorem burst_time_axis_samples (tsamp : R) (tscrunch_factor : Z)
    (profile : list R) :
  (2 <= length profile)%nat ->
  let n := length profile in
  let fact := 1000 * tsamp * IZR tscrunch_factor in
  exists b axis,
    argmax profile = Ok b /\ (b < n)%nat /\
    burst_time_axis tsamp tscrunch_factor profile = Ok axis /\
    length axis = n /\
    (forall i, (i < n)%nat ->
       nth i axis 0 = fact * (INR n / INR (n - 1) * INR i - INR b)) /\
    (forall i, (S i < n)%nat ->
       nth (S i) axis 0 - nth i axis 0 = fact * INR n / INR (n - 1)) /\
    nth b axis 0 = fact * INR b / INR (n - 1) /\
    (nth b axis 0 = 0 <-> fact = 0 \/ b = 0%nat).
Proof.
  intros Hlen n fact.
  destruct (argmax profile) as [b | e] eqn:Hb;
    [ | destruct profile; [simpl in Hlen; lia | discriminate]].
  pose proof (argmax_bound profile b Hb) as Hbn. fold n in Hbn.
  assert (Hn1 : 0 < INR (n - 1)) by (apply lt_0_INR; unfold n; lia).
  assert (Hnn : INR n = INR (n - 1) + 1).
  { replace n with (S (n - 1)) at 1 by (unfold n; lia). apply S_INR. }
  set (axis := map (fun i => fact * (INR n / INR (n - 1) * INR i - INR b))
                   (seq 0 n)).
  assert (Haxis : burst_time_axis tsamp tscrunch_factor profile = Ok axis).
  { unfold burst_time_axis. rewrite Hb. cbn [obind]. f_equal. fold n.
    change (of_int 0) with 0. change (of_int 1000) with 1000.
    change (of_int tscrunch_factor) with (IZR tscrunch_factor).
    change (of_int (Z.of_nat ?m)) with (IZR (Z.of_nat m)).
    rewrite <- !INR_IZR_INZ.
    change (fmul (fmul 1000 tsamp) (IZR tscrunch_factor)) with fact.
    rewrite linspace_real by exact Hlen. rewrite map_map.
    apply map_ext. intro i. cbn. field. lra. }
  assert (Hnth : forall i, (i < n)%nat ->
            nth i axis 0 = fact * (INR n / INR (n - 1) * INR i - INR b)).
  { intros i Hi. unfold axis. now rewrite nth_map_seq. }
  exists b, axis. split; [reflexivity | ]. split; [exact Hbn | ].
  split; [exact Haxis | ].
  split; [unfold axis; now rewrite length_map, length_seq | ].
  split; [exact Hnth | ].
  assert (Hburst : nth b axis 0 = fact * INR b / INR (n - 1))
    by (rewrite Hnth by exact Hbn; rewrite Hnn; field; lra).
  split; [ | split; [exact Hburst | ]].
  - intros i Hi. rewrite !Hnth by lia. rewrite S_INR. field. lra.
  - rewrite Hburst. split.
    + intro Hzero.
      assert (Hprod : fact * INR b = 0).
      { replace (fact * INR b)
          with (fact * INR b / INR (n - 1) * INR (n - 1)) by (field; lra).
        rewrite Hzero. ring. }
      apply Rmult_integral in Hprod.
      destruct Hprod as [Hf | Hb0]; [now left | right].
      destruct b as [| b']; [reflexivity | ].
      rewrite S_INR in Hb0. pose proof (pos_INR b'). lra.
    + intros [-> | ->]; [unfold Rdiv; ring | simpl; unfold Rdiv; ring].
Qed.

Lemma burst_time_axis_samples_witness :
  exists b axis,
    argmax [0; 1; 5; 2; 1] = Ok b /\ (b < 5)%nat /\
    burst_time_axis (1 / 1000) 1 [0; 1; 5; 2; 1] = Ok axis /\
    length axis = 5%nat /\
    (forall i, (i < 5)%nat ->
       nth i axis 0
       = 1000 * (1 / 1000) * 1 * (INR 5 / INR (5 - 1) * INR i - INR b)) /\
    (forall i, (S i < 5)%nat ->
       nth (S i) axis 0 - nth i axis 0
       = 1000 * (1 / 1000) * 1 * INR 5 / INR (5 - 1)) /\
    nth b axis 0 = 1000 * (1 / 1000) * 1 * INR b / INR (5 - 1) /\
    (nth b axis 0 = 0 <-> 1000 * (1 / 1000) * 1 = 0 \/ b = 0%nat).
Proof.
  apply (burst_time_axis_samples (1 / 1000) 1 [0; 1; 5; 2; 1]). simpl. lia.
Defined.

End TimeAxis.
